(** * mcp-discovery: the server registry and the query ranker

    A shallow embedding of [src/routing/rankToolsForQuery.ts],
    [src/registry/ServerRegistry.ts] and the two client classes
    [src/mcp/client/stdioClient.ts] and [src/mcp/client/httpClient.ts],
    followed by the properties the specification states about them.

    Conventions of the embedding:
    - a JavaScript string is a [string] of code units below 256;
    - a JavaScript number holding a score is the rational [Q] it denotes;
      the ranker is embedded in binary64 arithmetic, every operation
      rounding as the code's does (module [Binary64]), and once more in
      exact arithmetic, for the properties that do not depend on rounding;
      numbers holding times, TTLs and limits are integers [Z];
    - a [Map] is an association list in insertion order with unique keys,
      a [Set] a duplicate-free list in insertion order;
    - an [async] method is a state transformer that returns either a value
      or the message of the [Error] it throws, together with the state it
      leaves behind (a throw does not roll anything back); a method runs to
      its end before the next one starts, and the promises of a fan-out run
      in the order of the ids;
    - everything outside the repository (the SDK client and the start of
      the subprocess, the collation of [localeCompare], the clock) is an
      explicit parameter. *)

From Stdlib Require Import Bool List ZArith QArith Qround Qabs Qpower Lia Lqa.
From Stdlib Require Import Ascii String.
From Stdlib Require Import Sorting.Sorted Sorting.Permutation Structures.OrderedTypeEx.
Import ListNotations.

Local Open Scope string_scope.
Local Open Scope list_scope.

Set Implicit Arguments.

(* ================================================================= *)
(** * Part I: definitions *)
(* ================================================================= *)

(** ** Results of fallible operations *)

(** [Err m] stands for [throw new Error(m)]. *)
Inductive Result (A : Type) : Type :=
| Ok (value : A)
| Err (message : string).

Arguments Ok {A} value.
Arguments Err {A} message.

Definition isOk {A} (r : Result A) : bool :=
  match r with Ok _ => true | Err _ => false end.

(** ** JavaScript strings *)

(** The double quote character, as a one-character string. *)
Definition dq : string := String (ascii_of_nat 34) EmptyString.

(** [`"${s}"`] *)
Definition quoted (s : string) : string := (dq ++ s ++ dq)%string.

(** [s.includes(sub)] *)
Fixpoint includes (s sub : string) : bool :=
  if String.prefix sub s then true
  else match s with
       | EmptyString => false
       | String _ s' => includes s' sub
       end.

(** [o ?? ""] *)
Definition orEmpty (o : option string) : string :=
  match o with
  | Some s => s
  | None => EmptyString
  end.

(** [c.toLowerCase()] on one code unit below 256: the letters A-Z and the
    Latin-1 capitals (192-222 except the multiplication sign 215) move up
    by 32. *)
Definition lowerChar (c : ascii) : ascii :=
  let n := nat_of_ascii c in
  if ((65 <=? n) && (n <=? 90))%nat
     || ((192 <=? n) && (n <=? 222) && negb (n =? 215))%nat
  then ascii_of_nat (n + 32)
  else c.

Fixpoint toLowerCase (s : string) : string :=
  match s with
  | EmptyString => EmptyString
  | String c s' => String (lowerChar c) (toLowerCase s')
  end.

(** The character class of the splitting expression of [tokenize]:
    white space (tab, line feed, vertical tab, form feed, carriage return,
    space, no-break space) and the characters
    - _ . , ; : ! ? ( ) [ ] { } ' double-quote / backslash. *)
Definition separatorCodes : list nat :=
  [9; 10; 11; 12; 13; 32; 160;
   45; 95; 46; 44; 59; 58; 33; 63; 40; 41; 91; 93; 123; 125; 39; 34; 47; 92]%nat.

Definition isSeparator (c : ascii) : bool :=
  existsb (Nat.eqb (nat_of_ascii c)) separatorCodes.

(** [s.split(/[...]+/)]: [cur] is the piece being read, [inSep] tells that
    the previous character was a separator.  Like the original, a string
    that starts or ends with separators yields an empty first or last
    piece. *)
Fixpoint splitRuns (s cur : string) (inSep : bool) : list string :=
  match s with
  | EmptyString => [cur]
  | String c s' =>
      if isSeparator c then
        if inSep then splitRuns s' cur true
        else cur :: splitRuns s' EmptyString true
      else splitRuns s' (cur ++ String c EmptyString)%string false
  end.

Definition split (s : string) : list string := splitRuns s EmptyString false.

Definition tokenize (text : string) : list string :=
  filter (fun t => (0 <? String.length t)%nat) (split (toLowerCase text)).

(** ** Sets and maps *)

(** [new Set(l)]: the elements of [l] in order of first occurrence. *)
Fixpoint newSet (l : list string) : list string :=
  match l with
  | [] => []
  | x :: l' => x :: filter (fun y => negb (String.eqb y x)) (newSet l')
  end.

(** [set.has(x)] *)
Definition has (set : list string) (x : string) : bool :=
  existsb (String.eqb x) set.

(** A [Map<string, V>]. *)
Definition JsMap (V : Type) : Type := list (string * V).

(** [m.get(k)] *)
Fixpoint mapGet {V} (m : JsMap V) (k : string) : option V :=
  match m with
  | [] => None
  | (k', v) :: m' => if String.eqb k' k then Some v else mapGet m' k
  end.

(** [m.has(k)] *)
Definition mapHas {V} (m : JsMap V) (k : string) : bool :=
  match mapGet m k with Some _ => true | None => false end.

(** [m.set(k, v)]: an existing key keeps its position, a new one goes last. *)
Fixpoint mapSet {V} (m : JsMap V) (k : string) (v : V) : JsMap V :=
  match m with
  | [] => [(k, v)]
  | (k', v') :: m' =>
      if String.eqb k' k then (k', v) :: m' else (k', v') :: mapSet m' k v
  end.

(** [Array.from(m.keys())] and [Array.from(m.values())] *)
Definition mapKeys {V} (m : JsMap V) : list string := map fst m.
Definition mapValues {V} (m : JsMap V) : list V := map snd m.

(** Assignment to a field of the object stored under [k]: the entry is
    replaced where it stands. *)
Fixpoint mapUpdate {V} (m : JsMap V) (k : string) (f : V -> V) : JsMap V :=
  match m with
  | [] => []
  | (k', v) :: m' =>
      if String.eqb k' k then (k', f v) :: m' else (k', v) :: mapUpdate m' k f
  end.

(** ** Data model *)

(** Opaque payloads ([Record<string, unknown>]) are carried as their text. *)
Definition Json : Type := string.

(** [ToolInfo] of [src/mcp/client/types.ts]. *)
Record ToolInfo : Type := {
  tool_name : string;
  tool_title : option string;
  tool_description : option string;
  tool_inputSchema : option Json;
}.

Record ToolCallContentItem : Type := {
  item_text : string;
}.

Record ToolCallResult : Type := {
  content : list ToolCallContentItem;
  isError : bool;
}.

(** The transport configurations of [src/config/schema.ts]. *)
Record StdioTransportConfig : Type := {
  command : string;
  args : list string;
  env : option (list (string * string));
  cwd : option string;
}.

Record HttpTransportConfig : Type := {
  url : string;
  headers : option (list (string * string));
}.

Inductive TransportConfig : Type :=
| TStdio (c : StdioTransportConfig)
| THttp (c : HttpTransportConfig).

Record ServerConfig : Type := {
  cfg_id : string;
  cfg_name : string;
  cfg_description : option string;
  cfg_transport : TransportConfig;
  cfg_enabled : bool;
  cfg_tags : list string;
}.

Record RoutingConfig : Type := {
  routing_maxResults : Z;
  routing_cacheTtlMs : Z;
}.

Record DiscoveryConfig : Type := {
  cfg_servers : list ServerConfig;
  cfg_routing : RoutingConfig;
}.

(* ----------------------------------------------------------------- *)
(** ** The ranker, [src/routing/rankToolsForQuery.ts]

    The scoring functions of this section compute in exact arithmetic; the
    module [Binary64] below has them as the code computes them. *)

Record RankedTool : Type := {
  serverId : string;
  serverName : string;
  toolName : string;
  toolDescription : option string;
  score : Q;
  reason : string;
}.

(** The partial-match test of [calculateOverlapScore]. *)
Definition partialMatch (queryToken targetToken : string) : bool :=
  includes targetToken queryToken || includes queryToken targetToken.

(** The body of the [for] loop of [calculateOverlapScore]; [matches] is the
    running sum. *)
Fixpoint overlapLoop (queryTokens targetTokens : list string) (matches : Q) : Q :=
  match queryTokens with
  | [] => matches
  | queryToken :: rest =>
      if has targetTokens queryToken then
        overlapLoop rest targetTokens (matches + 1)
      else if existsb (partialMatch queryToken) targetTokens then
        overlapLoop rest targetTokens (matches + (1 # 2))
      else overlapLoop rest targetTokens matches
  end.

Definition calculateOverlapScore (queryTokens targetTokens : list string) : Q :=
  if ((List.length queryTokens =? 0) || (List.length targetTokens =? 0))%nat then 0
  else overlapLoop queryTokens targetTokens 0
       / inject_Z (Z.of_nat (List.length queryTokens)).

(** The match test of [buildReason]. *)
Definition reasonMatch (qt t : string) : bool :=
  String.eqb t qt || includes t qt || includes qt t.

(** The tokens pushed by one of the two inner loops of [buildReason]: for
    every query token, the first token of [tokens] that matches it. *)
Definition firstMatches (queryTokens tokens : list string) : list string :=
  flat_map (fun qt => match find (reasonMatch qt) tokens with
                      | Some t => [t]
                      | None => []
                      end) queryTokens.

(** [[...new Set(ms)].slice(0, 3).join(", ")] *)
Definition renderMatches (ms : list string) : string :=
  String.concat ", " (firstn 3 (newSet ms)).

Definition buildReason (queryTokens serverTokens toolTokens : list string) : string :=
  let serverMatches := firstMatches queryTokens serverTokens in
  let toolMatches := firstMatches queryTokens toolTokens in
  let parts :=
    (if (0 <? List.length serverMatches)%nat
     then [("server matches: " ++ renderMatches serverMatches)%string] else [])
    ++ (if (0 <? List.length toolMatches)%nat
        then [("tool matches: " ++ renderMatches toolMatches)%string] else []) in
  if (0 <? List.length parts)%nat then String.concat "; " parts
  else "low relevance match".

(** [Math.round(x * 100) / 100] in exact arithmetic; [Math.round] rounds
    halves up. *)
Definition round2 (x : Q) : Q :=
  inject_Z (Qfloor (x * 100 + (1 # 2))) / 100.

(** [x > 0] *)
Definition Qpositive (x : Q) : bool := negb (Qle_bool x 0).

Definition serverText (config : ServerConfig) : string :=
  String.concat " "
    (cfg_name config :: orEmpty (cfg_description config) :: cfg_tags config).

Definition toolText (tool : ToolInfo) : string :=
  String.concat " "
    [tool_name tool; orEmpty (tool_title tool); orEmpty (tool_description tool)].

Definition serverTokensOf (config : ServerConfig) : list string :=
  newSet (tokenize (serverText config)).

Definition toolTokensOf (tool : ToolInfo) : list string :=
  newSet (tokenize (toolText tool)).

(** [serverScore * 0.4 + toolScore * 0.6] in exact arithmetic *)
Definition combinedScore (serverScore toolScore : Q) : Q :=
  serverScore * (4 # 10) + toolScore * (6 # 10).

(** The candidates pushed for one tool: one if the combined score is
    positive, none otherwise. *)
Definition toolCandidates (queryTokens : list string) (sid : string)
    (config : ServerConfig) (tool : ToolInfo) : list RankedTool :=
  let serverTokens := serverTokensOf config in
  let serverScore := calculateOverlapScore queryTokens serverTokens in
  let toolTokens := toolTokensOf tool in
  let toolScore := calculateOverlapScore queryTokens toolTokens in
  let combined := combinedScore serverScore toolScore in
  if Qpositive combined then
    [{| serverId := sid;
        serverName := cfg_name config;
        toolName := tool_name tool;
        toolDescription := tool_description tool;
        score := round2 combined;
        reason := buildReason queryTokens serverTokens toolTokens |}]
  else [].

(** The candidates pushed by one iteration of the outer loop. *)
Definition serverCandidates (queryTokens : list string)
    (serverConfigs : JsMap ServerConfig)
    (entry : string * list ToolInfo) : list RankedTool :=
  let (sid, tools) := entry in
  match mapGet serverConfigs sid with
  | None => []
  | Some config => flat_map (toolCandidates queryTokens sid config) tools
  end.

Definition allCandidates (queryTokens : list string)
    (serverTools : JsMap (list ToolInfo))
    (serverConfigs : JsMap ServerConfig) : list RankedTool :=
  flat_map (serverCandidates queryTokens serverConfigs) serverTools.

(** [l.slice(0, e)] for an integer [e]: a negative [e] counts from the end. *)
Definition slice0 {A} (l : list A) (e : Z) : list A :=
  if (e <? 0)%Z
  then firstn (Z.to_nat (Z.max (Z.of_nat (List.length l) + e) 0)) l
  else firstn (Z.to_nat e) l.

Section Ranking.

(** [a.localeCompare(b)] depends on the host's collation; it is a
    parameter, [Lt] being a negative result and [Gt] a positive one. *)
Variable localeCompare : string -> string -> comparison.

(** The comparison function handed to [sort]: [Lt] is a negative result
    ([a] first), [Gt] a positive one. *)
Definition compareRanked (a b : RankedTool) : comparison :=
  if negb (Qeq_bool (score b) (score a))
  then (score b ?= score a)%Q
  else localeCompare (toolName a) (toolName b).

(** [Array.prototype.sort] is stable; with a consistent comparison
    function its result is the stable sorted arrangement, which stable
    insertion computes. *)
Fixpoint insertRanked (x : RankedTool) (l : list RankedTool) : list RankedTool :=
  match l with
  | [] => [x]
  | y :: l' =>
      match compareRanked x y with
      | Gt => y :: insertRanked x l'
      | _ => x :: l
      end
  end.

Fixpoint sortRanked (l : list RankedTool) : list RankedTool :=
  match l with
  | [] => []
  | x :: l' => insertRanked x (sortRanked l')
  end.

Definition rankToolsForQuery (query : string)
    (serverTools : JsMap (list ToolInfo))
    (serverConfigs : JsMap ServerConfig)
    (maxResults : Z) : list RankedTool :=
  let queryTokens := tokenize query in
  if (List.length queryTokens =? 0)%nat then []
  else slice0 (sortRanked (allCandidates queryTokens serverTools serverConfigs))
              maxResults.

End Ranking.

(* ----------------------------------------------------------------- *)
(** ** The ranker in binary64 arithmetic

    A JavaScript number is a binary64 floating-point number, and an
    arithmetic operation returns the exact result rounded to the nearest
    such number, ties going to the one with the even significand.  A finite
    number is the rational it denotes, so that comparing numbers is
    comparing rationals.  A binary64 number has 53 significant bits: from
    [2^e] up to [2^(e+1)] the numbers are the multiples of [2^(e-52)].  The
    limits of the exponent are left out: an array has fewer than [2^32]
    elements, so the nonzero numbers of the ranker lie between [2^-40] and
    [2^32], far from overflow and from the subnormal numbers. *)
Module Binary64.

(** The exponent [e] with [2^e <= x < 2^(e+1)], for a positive [x]. *)
Definition floorLog2 (x : Q) : Z :=
  let e := (Z.log2 (Qnum x) - Z.log2 (Zpos (Qden x)))%Z in
  if Qle_bool (2 ^ e) x then e else (e - 1)%Z.

(** The nearest integer, the even one of two that are equally near. *)
Definition roundEven (x : Q) : Z :=
  let f := Qfloor x in
  match Qcompare (x - inject_Z f) (1 # 2) with
  | Lt => f
  | Gt => (f + 1)%Z
  | Eq => if Z.even f then f else (f + 1)%Z
  end.

(** The binary64 number nearest to [x]. *)
Definition round64 (x : Q) : Q :=
  if Qeq_bool x 0 then 0
  else let t := (floorLog2 (Qabs x) - 52)%Z in
       inject_Z (roundEven (x / 2 ^ t)) * 2 ^ t.

(** [x + y], [x - y], [x * y] and [x / y] *)
Definition add (x y : Q) : Q := round64 (x + y).
Definition sub (x y : Q) : Q := round64 (x - y).
Definition mul (x y : Q) : Q := round64 (x * y).
Definition div (x y : Q) : Q := round64 (x / y).

(** The literals [0.4] and [0.6]: the numbers nearest to 4/10 and 6/10. *)
Definition point4 : Q := round64 (4 # 10).
Definition point6 : Q := round64 (6 # 10).

(** The length of an array as a number. *)
Definition lengthOf {A} (l : list A) : Q :=
  round64 (inject_Z (Z.of_nat (List.length l))).

(** [Math.round(x)]: the nearest integer, the greater one of two that are
    equally near. *)
Definition Math_round (x : Q) : Q := inject_Z (Qfloor (x + (1 # 2))).

Fixpoint overlapLoop (queryTokens targetTokens : list string) (matches : Q) : Q :=
  match queryTokens with
  | [] => matches
  | queryToken :: rest =>
      if has targetTokens queryToken then
        overlapLoop rest targetTokens (add matches 1)
      else if existsb (partialMatch queryToken) targetTokens then
        overlapLoop rest targetTokens (add matches (1 # 2))
      else overlapLoop rest targetTokens matches
  end.

Definition calculateOverlapScore (queryTokens targetTokens : list string) : Q :=
  if ((List.length queryTokens =? 0) || (List.length targetTokens =? 0))%nat then 0
  else div (overlapLoop queryTokens targetTokens 0) (lengthOf queryTokens).

(** [Math.round(x * 100) / 100] *)
Definition round2 (x : Q) : Q := div (Math_round (mul x 100)) 100.

(** [serverScore * 0.4 + toolScore * 0.6] *)
Definition combinedScore (serverScore toolScore : Q) : Q :=
  add (mul serverScore point4) (mul toolScore point6).

Definition toolCandidates (queryTokens : list string) (sid : string)
    (config : ServerConfig) (tool : ToolInfo) : list RankedTool :=
  let serverTokens := serverTokensOf config in
  let serverScore := calculateOverlapScore queryTokens serverTokens in
  let toolTokens := toolTokensOf tool in
  let toolScore := calculateOverlapScore queryTokens toolTokens in
  let combined := combinedScore serverScore toolScore in
  if Qpositive combined then
    [{| serverId := sid;
        serverName := cfg_name config;
        toolName := tool_name tool;
        toolDescription := tool_description tool;
        score := round2 combined;
        reason := buildReason queryTokens serverTokens toolTokens |}]
  else [].

Definition serverCandidates (queryTokens : list string)
    (serverConfigs : JsMap ServerConfig)
    (entry : string * list ToolInfo) : list RankedTool :=
  let (sid, tools) := entry in
  match mapGet serverConfigs sid with
  | None => []
  | Some config => flat_map (toolCandidates queryTokens sid config) tools
  end.

Definition allCandidates (queryTokens : list string)
    (serverTools : JsMap (list ToolInfo))
    (serverConfigs : JsMap ServerConfig) : list RankedTool :=
  flat_map (serverCandidates queryTokens serverConfigs) serverTools.

Section Ranking.

Variable localeCompare : string -> string -> comparison.

(** The comparison function handed to [sort]: the sign of
    [b.score - a.score] when the scores differ. *)
Definition compareRanked (a b : RankedTool) : comparison :=
  if negb (Qeq_bool (score b) (score a))
  then (sub (score b) (score a) ?= 0)%Q
  else localeCompare (toolName a) (toolName b).

Fixpoint insertRanked (x : RankedTool) (l : list RankedTool) : list RankedTool :=
  match l with
  | [] => [x]
  | y :: l' =>
      match compareRanked x y with
      | Gt => y :: insertRanked x l'
      | _ => x :: l
      end
  end.

Fixpoint sortRanked (l : list RankedTool) : list RankedTool :=
  match l with
  | [] => []
  | x :: l' => insertRanked x (sortRanked l')
  end.

Definition rankToolsForQuery (query : string)
    (serverTools : JsMap (list ToolInfo))
    (serverConfigs : JsMap ServerConfig)
    (maxResults : Z) : list RankedTool :=
  let queryTokens := tokenize query in
  if (List.length queryTokens =? 0)%nat then []
  else slice0 (sortRanked (allCandidates queryTokens serverTools serverConfigs))
              maxResults.

End Ranking.

(** The candidate of one tool of one server: the score is the rounded
    combination, written out operation by operation. *)
Definition candidateOf (queryTokens : list string) (sid : string)
    (cfg : ServerConfig) (tool : ToolInfo) (r : RankedTool) : Prop :=
  let up := calculateOverlapScore queryTokens (serverTokensOf cfg) in
  let cap := calculateOverlapScore queryTokens (toolTokensOf tool) in
  let combined := add (mul up point4) (mul cap point6) in
  serverId r = sid /\ serverName r = cfg_name cfg /\
  toolName r = tool_name tool /\ toolDescription r = tool_description tool /\
  0 < combined /\
  score r = div (Math_round (mul combined 100)) 100 /\
  (exists k : Z,
     score r = div (inject_Z k) 100 /\
     inject_Z k - (1 # 2) <= mul combined 100 /\
     mul combined 100 < inject_Z k + (1 # 2)) /\
  reason r = buildReason queryTokens (serverTokensOf cfg) (toolTokensOf tool).

End Binary64.

(** A stand-in collation for running examples: code-unit order. *)
Definition codeUnitCompare : string -> string -> comparison := String.compare.

(** The two upstreams of [test/routing.test.ts]. *)
Definition noArgs : StdioTransportConfig :=
  {| command := "node"; args := []; env := None; cwd := None |}.

Definition weatherServerConfig : ServerConfig :=
  {| cfg_id := "weather"; cfg_name := "Weather Server";
     cfg_description := Some "Get weather forecasts and alerts";
     cfg_transport := TStdio noArgs; cfg_enabled := true;
     cfg_tags := ["weather"; "forecast"; "nws"] |}.

Definition calculatorServerConfig : ServerConfig :=
  {| cfg_id := "calculator"; cfg_name := "Calculator Server";
     cfg_description := Some "Perform mathematical calculations";
     cfg_transport := TStdio noArgs; cfg_enabled := true;
     cfg_tags := ["math"; "calculator"] |}.

Definition mkTool (n t d : string) : ToolInfo :=
  {| tool_name := n; tool_title := Some t; tool_description := Some d;
     tool_inputSchema := None |}.

Definition weatherTools : list ToolInfo :=
  [mkTool "get-forecast" "Get Forecast" "Get weather forecast for a location";
   mkTool "get-alerts" "Get Alerts" "Get weather alerts for a state"].

Definition calculatorTools : list ToolInfo :=
  [mkTool "add" "Add Numbers" "Add two numbers together";
   mkTool "multiply" "Multiply Numbers" "Multiply two numbers"].

Definition testServerTools : JsMap (list ToolInfo) :=
  [("weather", weatherTools); ("calculator", calculatorTools)].

Definition testServerConfigs : JsMap ServerConfig :=
  [("weather", weatherServerConfig); ("calculator", calculatorServerConfig)].

(** Two tools whose combinations are both 0.225 in exact arithmetic and lie
    on either side of it in binary64 arithmetic, for the query
    [alpha beta gamma delta]: the overlap scores are 0 and 0.375 for [kkk]
    and 0.375 and 0.125 for [zzz]. *)
Definition roundingServerConfigs : JsMap ServerConfig :=
  [("plain",
    {| cfg_id := "plain"; cfg_name := "Server K"; cfg_description := None;
       cfg_transport := TStdio noArgs; cfg_enabled := true; cfg_tags := [] |});
   ("matching",
    {| cfg_id := "matching"; cfg_name := "Server alpha betamax";
       cfg_description := None;
       cfg_transport := TStdio noArgs; cfg_enabled := true; cfg_tags := [] |})].

Definition roundingServerTools : JsMap (list ToolInfo) :=
  [("plain", [mkTool "kkk" "Tool" "alpha betamax"]);
   ("matching", [mkTool "zzz" "Tool" "gammaray"])].

(* ----------------------------------------------------------------- *)
(** ** The outside world *)

(** What the repository asks of the SDK: [Client.connect],
    [Client.listTools], [Client.callTool] and [Transport.close], each for
    the upstream named by the server id. *)
Inductive Event : Type :=
| EvConnect (id : string)
| EvListTools (id : string)
| EvCallTool (id toolName : string) (arguments : Json)
| EvClose (id : string).

(** The answer of [Client.callTool]. *)
Record SdkCallResponse : Type := {
  resp_content : list ToolCallContentItem;
  resp_isError : option bool;
}.

(** The two places where [StdioMcpClient.connect] can fail: [spawn] throws
    while the subprocess is started, before the [try] block and before the
    SDK is asked for anything (Node throws there for an empty command, for
    one), or [Client.connect] rejects inside the [try] block.  Either
    carries the message of the error. *)
Inductive ConnectFailure : Type :=
| SpawnThrew (message : string)
| ConnectRejected (message : string).

(** The behaviour of the upstreams: every answer may depend on everything
    asked so far, so an upstream may fail now and work later.  [sdk_connect]
    tells how an attempt to connect ends: [None] when the subprocess starts
    and the SDK connects, else where the attempt failed. *)
Record World : Type := {
  sdk_connect : list Event -> string -> option ConnectFailure;
  sdk_listTools : list Event -> string -> Result (list ToolInfo);
  sdk_callTool : list Event -> string -> string -> Json -> Result SdkCallResponse;
}.

(* ----------------------------------------------------------------- *)
(** ** The clients, [src/mcp/client] *)

(** The fields of a [StdioMcpClient]; a boolean tells whether the field
    holds an object ([true]) or [null] ([false]). *)
Record StdioMcpClient : Type := {
  stdio_serverId : string;
  stdio_config : StdioTransportConfig;
  stdio_client : bool;
  stdio_transport : bool;
  stdio_process : bool;
  stdio_connected : bool;
}.

Record HttpMcpClient : Type := {
  http_serverId : string;
  http_config : HttpTransportConfig;
  http_connected : bool;
}.

Definition newStdioMcpClient (id : string) (c : StdioTransportConfig) : StdioMcpClient :=
  {| stdio_serverId := id; stdio_config := c; stdio_client := false;
     stdio_transport := false; stdio_process := false; stdio_connected := false |}.

Definition newHttpMcpClient (id : string) (c : HttpTransportConfig) : HttpMcpClient :=
  {| http_serverId := id; http_config := c; http_connected := false |}.

(** [StdioMcpClient.close]: errors of [transport.close()] are ignored. *)
Definition stdioClose (c : StdioMcpClient) (tr : list Event)
  : StdioMcpClient * list Event :=
  ({| stdio_serverId := stdio_serverId c; stdio_config := stdio_config c;
      stdio_client := false; stdio_transport := false;
      stdio_process := false; stdio_connected := false |},
   if stdio_transport c then tr ++ [EvClose (stdio_serverId c)] else tr).

(** The message of the error [StdioMcpClient.connect] throws. *)
Definition connectFailed (id message : string) : string :=
  ("Failed to connect to server " ++ quoted id ++ ": " ++ message)%string.

(** [StdioMcpClient.connect].  When [spawn] throws, [this.client] has been
    assigned, [this.process] and [this.transport] have not, the SDK has not
    been asked and nothing catches the error: it reaches the caller as it
    is.  When [Client.connect] rejects, the [catch] block closes the client
    and throws the wrapped message. *)
Definition stdioConnect (W : World) (c : StdioMcpClient) (tr : list Event)
  : Result unit * StdioMcpClient * list Event :=
  if stdio_connected c then (Ok tt, c, tr)
  else
    let created :=
      {| stdio_serverId := stdio_serverId c; stdio_config := stdio_config c;
         stdio_client := true; stdio_transport := stdio_transport c;
         stdio_process := stdio_process c; stdio_connected := false |} in
    let started :=
      {| stdio_serverId := stdio_serverId c; stdio_config := stdio_config c;
         stdio_client := true; stdio_transport := true;
         stdio_process := true; stdio_connected := false |} in
    let tr1 := tr ++ [EvConnect (stdio_serverId c)] in
    match sdk_connect W tr (stdio_serverId c) with
    | None =>
        (Ok tt,
         {| stdio_serverId := stdio_serverId c; stdio_config := stdio_config c;
            stdio_client := true; stdio_transport := true;
            stdio_process := true; stdio_connected := true |},
         tr1)
    | Some (SpawnThrew message) => (Err message, created, tr)
    | Some (ConnectRejected message) =>
        let (closed, tr2) := stdioClose started tr1 in
        (Err (connectFailed (stdio_serverId c) message), closed, tr2)
    end.

Definition notConnected (id : string) : string :=
  ("Client not connected for server " ++ quoted id)%string.

(** The object built for each tool by [StdioMcpClient.listTools]. *)
Definition copyTool (tool : ToolInfo) : ToolInfo :=
  {| tool_name := tool_name tool; tool_title := tool_title tool;
     tool_description := tool_description tool;
     tool_inputSchema := tool_inputSchema tool |}.

(** [StdioMcpClient.listTools] *)
Definition stdioListTools (W : World) (c : StdioMcpClient) (tr : list Event)
  : Result (list ToolInfo) * list Event :=
  if negb (stdio_connected c) || negb (stdio_client c)
  then (Err (notConnected (stdio_serverId c)), tr)
  else
    match sdk_listTools W tr (stdio_serverId c) with
    | Ok response => (Ok (map copyTool response), tr ++ [EvListTools (stdio_serverId c)])
    | Err message => (Err message, tr ++ [EvListTools (stdio_serverId c)])
    end.

(** [response.isError === true] *)
Definition isTrue (o : option bool) : bool :=
  match o with Some true => true | _ => false end.

(** [StdioMcpClient.callTool] *)
Definition stdioCallTool (W : World) (c : StdioMcpClient)
    (toolName : string) (arguments : Json) (tr : list Event)
  : Result ToolCallResult * list Event :=
  if negb (stdio_connected c) || negb (stdio_client c)
  then (Err (notConnected (stdio_serverId c)), tr)
  else
    let tr1 := tr ++ [EvCallTool (stdio_serverId c) toolName arguments] in
    match sdk_callTool W tr (stdio_serverId c) toolName arguments with
    | Ok response =>
        (Ok {| content := resp_content response;
               isError := isTrue (resp_isError response) |}, tr1)
    | Err message => (Err message, tr1)
    end.

Definition httpNotImplemented : string := "HTTP transport not yet implemented".

Definition httpConnectFailed (id url : string) : string :=
  ("HTTP transport not yet implemented for server " ++ quoted id ++ ". "
   ++ "URL: " ++ url ++ ". Use stdio transport for now.")%string.

(** [HttpMcpClient.connect]: always throws. *)
Definition httpConnect (c : HttpMcpClient) : Result unit :=
  Err (httpConnectFailed (http_serverId c) (url (http_config c))).

Definition httpListTools (c : HttpMcpClient) : Result (list ToolInfo) :=
  if negb (http_connected c) then Err (notConnected (http_serverId c))
  else Err httpNotImplemented.

Definition httpCallTool (c : HttpMcpClient) (toolName : string) (arguments : Json)
  : Result ToolCallResult :=
  if negb (http_connected c) then Err (notConnected (http_serverId c))
  else Err httpNotImplemented.

Definition httpClose (c : HttpMcpClient) : HttpMcpClient :=
  {| http_serverId := http_serverId c; http_config := http_config c;
     http_connected := false |}.

(** The two implementations of the interface [McpClient]. *)
Inductive McpClient : Type :=
| CStdio (c : StdioMcpClient)
| CHttp (c : HttpMcpClient).

Definition connected (c : McpClient) : bool :=
  match c with
  | CStdio c => stdio_connected c
  | CHttp c => http_connected c
  end.

Definition clientServerId (c : McpClient) : string :=
  match c with
  | CStdio c => stdio_serverId c
  | CHttp c => http_serverId c
  end.

Definition clientConnect (W : World) (c : McpClient) (tr : list Event)
  : Result unit * McpClient * list Event :=
  match c with
  | CStdio c => let '(r, c', tr') := stdioConnect W c tr in (r, CStdio c', tr')
  | CHttp c => (httpConnect c, CHttp c, tr)
  end.

Definition clientListTools (W : World) (c : McpClient) (tr : list Event)
  : Result (list ToolInfo) * list Event :=
  match c with
  | CStdio c => stdioListTools W c tr
  | CHttp c => (httpListTools c, tr)
  end.

Definition clientCallTool (W : World) (c : McpClient)
    (toolName : string) (arguments : Json) (tr : list Event)
  : Result ToolCallResult * list Event :=
  match c with
  | CStdio c => stdioCallTool W c toolName arguments tr
  | CHttp c => (httpCallTool c toolName arguments, tr)
  end.

Definition clientClose (c : McpClient) (tr : list Event) : McpClient * list Event :=
  match c with
  | CStdio c => let (c', tr') := stdioClose c tr in (CStdio c', tr')
  | CHttp c => (CHttp (httpClose c), tr)
  end.

(* ----------------------------------------------------------------- *)
(** ** The registry, [src/registry/ServerRegistry.ts] *)

Record CachedTools : Type := {
  tools : list ToolInfo;
  fetchedAt : Z;
}.

Record RegisteredServer : Type := {
  config : ServerConfig;
  client : option McpClient;
  cachedTools : option CachedTools;
}.

Record ServerRegistry : Type := {
  servers : JsMap RegisteredServer;
  cacheTtlMs : Z;
}.

(** The registry together with the record of what was asked of the SDK. *)
Record State : Type := {
  registry : ServerRegistry;
  trace : list Event;
}.

(** [server.client = c] and [server.cachedTools = t] *)
Definition withClient (c : option McpClient) (server : RegisteredServer)
  : RegisteredServer :=
  {| config := config server; client := c; cachedTools := cachedTools server |}.

Definition withCachedTools (t : option CachedTools) (server : RegisteredServer)
  : RegisteredServer :=
  {| config := config server; client := client server; cachedTools := t |}.

Definition withServers (m : JsMap RegisteredServer) (r : ServerRegistry)
  : ServerRegistry :=
  {| servers := m; cacheTtlMs := cacheTtlMs r |}.

(** The constructor. *)
Definition register (m : JsMap RegisteredServer) (serverConfig : ServerConfig)
  : JsMap RegisteredServer :=
  if cfg_enabled serverConfig
  then mapSet m (cfg_id serverConfig)
              {| config := serverConfig; client := None; cachedTools := None |}
  else m.

Definition newServerRegistry (cfg : DiscoveryConfig) : ServerRegistry :=
  {| servers := fold_left register (cfg_servers cfg) [];
     cacheTtlMs := routing_cacheTtlMs (cfg_routing cfg) |}.

Definition getServerIds (r : ServerRegistry) : list string :=
  mapKeys (servers r).

Definition getServerConfig (r : ServerRegistry) (id : string) : option ServerConfig :=
  option_map config (mapGet (servers r) id).

Definition getAllServerConfigs (r : ServerRegistry) : list ServerConfig :=
  map config (mapValues (servers r)).

Definition hasServer (r : ServerRegistry) (id : string) : bool :=
  mapHas (servers r) id.

(** *** Suspending methods

    A method is a function from the state before to its outcome and the
    state after. *)
Definition M (A : Type) : Type := State -> Result A * State.

Definition ret {A} (a : A) : M A := fun s => (Ok a, s).

Definition throw {A} (message : string) : M A := fun s => (Err message, s).

Definition bind {A B} (m : M A) (k : A -> M B) : M B :=
  fun s => match m s with
           | (Ok a, s') => k a s'
           | (Err e, s') => (Err e, s')
           end.

(** [try { m } catch (err) { h err }] *)
Definition tryCatch {A} (m : M A) (h : string -> M A) : M A :=
  fun s => match m s with
           | (Ok a, s') => (Ok a, s')
           | (Err e, s') => h e s'
           end.

Notation "x <- m ;; k" := (bind m (fun x => k))
  (at level 61, m at next level, right associativity).

Definition getState : M State := fun s => (Ok s, s).

(** Assignment to a field of the registered server [id]. *)
Definition modifyServer (id : string) (f : RegisteredServer -> RegisteredServer)
  : M unit :=
  fun s => (Ok tt, {| registry := withServers (mapUpdate (servers (registry s)) id f)
                                              (registry s);
                      trace := trace s |}).

(** [await Promise.all(l.map(f))], the calls run one after the other in
    the order of [l]. *)
Fixpoint forEachM {A B} (f : A -> M B) (l : list A) : M (list B) :=
  match l with
  | [] => ret []
  | a :: l' => b <- f a ;; bs <- forEachM f l' ;; ret (b :: bs)
  end.

Definition unknownServer (id : string) : string :=
  ("Unknown server: " ++ quoted id)%string.

(** [new StdioMcpClient(...)] or [new HttpMcpClient(...)], by the transport
    type.  The [default] branch of the [switch] has no counterpart: a
    transport is one of the two. *)
Definition newClient (id : string) (transport : TransportConfig) : McpClient :=
  match transport with
  | TStdio c => CStdio (newStdioMcpClient id c)
  | THttp c => CHttp (newHttpMcpClient id c)
  end.

(** [await client.connect()]; the client object after the call is handed
    back on success. *)
Definition awaitConnect (W : World) (c : McpClient) : M McpClient :=
  fun s => match clientConnect W c (trace s) with
           | (Ok _, c', tr') => (Ok c', {| registry := registry s; trace := tr' |})
           | (Err e, _, tr') => (Err e, {| registry := registry s; trace := tr' |})
           end.

Definition awaitListTools (W : World) (c : McpClient) : M (list ToolInfo) :=
  fun s => let (r, tr') := clientListTools W c (trace s) in
           (r, {| registry := registry s; trace := tr' |}).

Definition awaitCallTool (W : World) (c : McpClient)
    (toolName : string) (arguments : Json) : M ToolCallResult :=
  fun s => let (r, tr') := clientCallTool W c toolName arguments (trace s) in
           (r, {| registry := registry s; trace := tr' |}).

(** [server.client?.connected], with the client when it holds. *)
Definition connectedClient (server : RegisteredServer) : option McpClient :=
  match client server with
  | Some c => if connected c then Some c else None
  | None => None
  end.

Definition getClient (W : World) (id : string) : M McpClient :=
  s <- getState ;;
  match mapGet (servers (registry s)) id with
  | None => throw (unknownServer id)
  | Some server =>
      match connectedClient server with
      | Some c => ret c
      | None =>
          c <- awaitConnect W (newClient id (cfg_transport (config server))) ;;
          _ <- modifyServer id (withClient (Some c)) ;;
          ret c
      end
  end.

(** The cache test of [listTools]. *)
Definition freshTools (ttl now : Z) (server : RegisteredServer)
  : option (list ToolInfo) :=
  match cachedTools server with
  | Some cached => if (now - fetchedAt cached <? ttl)%Z
                   then Some (tools cached) else None
  | None => None
  end.

(** [listTools]; [now] is the value [Date.now()] returns in this call. *)
Definition listTools (W : World) (id : string) (now : Z) : M (list ToolInfo) :=
  s <- getState ;;
  match mapGet (servers (registry s)) id with
  | None => throw (unknownServer id)
  | Some server =>
      match freshTools (cacheTtlMs (registry s)) now server with
      | Some cached => ret cached
      | None =>
          c <- getClient W id ;;
          fetched <- awaitListTools W c ;;
          _ <- modifyServer id
                 (withCachedTools (Some {| tools := fetched; fetchedAt := now |})) ;;
          ret fetched
      end
  end.

(** One of the promises of [listAllTools]. *)
Definition listToolsOrEmpty (W : World) (now : string -> Z) (id : string)
  : M (string * list ToolInfo) :=
  tryCatch (fetched <- listTools W id (now id) ;; ret (id, fetched))
           (fun _ => ret (id, [])).

(** [listAllTools]; [now id] is the value [Date.now()] returns in the call
    for [id]. *)
Definition listAllTools (W : World) (now : string -> Z)
  : M (JsMap (list ToolInfo)) :=
  s <- getState ;;
  toolResults <- forEachM (listToolsOrEmpty W now) (getServerIds (registry s)) ;;
  ret (fold_left (fun results (r : string * list ToolInfo) =>
                    mapSet results (fst r) (snd r))
                 toolResults []).

Definition callTool (W : World) (id toolName : string) (arguments : Json)
  : M ToolCallResult :=
  c <- getClient W id ;;
  awaitCallTool W c toolName arguments.

(** The loop of [closeAll] over [this.servers.values()]. *)
Fixpoint closeEach (entries : JsMap RegisteredServer) (tr : list Event)
  : JsMap RegisteredServer * list Event :=
  match entries with
  | [] => ([], tr)
  | (k, server) :: rest =>
      match client server with
      | Some c =>
          let (_, tr1) := clientClose c tr in
          let (rest', tr2) := closeEach rest tr1 in
          ((k, withClient None server) :: rest', tr2)
      | None =>
          let (rest', tr2) := closeEach rest tr in
          ((k, server) :: rest', tr2)
      end
  end.

Definition closeAll : M unit :=
  fun s => let (servers', tr') := closeEach (servers (registry s)) (trace s) in
           (Ok tt, {| registry := withServers servers' (registry s); trace := tr' |}).

(** [if (serverId)]: an absent argument and the empty string are falsy. *)
Definition truthy (o : option string) : bool :=
  match o with
  | Some s => (0 <? String.length s)%nat
  | None => false
  end.

Definition invalidateCache (serverId : option string) (s : State) : State :=
  match serverId with
  | Some id =>
      if truthy serverId then
        match mapGet (servers (registry s)) id with
        | Some _ =>
            {| registry := withServers
                 (mapUpdate (servers (registry s)) id (withCachedTools None))
                 (registry s);
               trace := trace s |}
        | None => s
        end
      else
        {| registry := withServers
             (map (fun e => (fst e, withCachedTools None (snd e)))
                  (servers (registry s)))
             (registry s);
           trace := trace s |}
  | None =>
      {| registry := withServers
           (map (fun e => (fst e, withCachedTools None (snd e)))
                (servers (registry s)))
           (registry s);
         trace := trace s |}
  end.

(** The [exit] and [error] handlers a [StdioMcpClient] installs on its
    child process: the client of [id], when it is a stdio client, loses
    its [_connected] flag. *)
Definition disconnect (c : McpClient) : McpClient :=
  match c with
  | CStdio c =>
      CStdio {| stdio_serverId := stdio_serverId c; stdio_config := stdio_config c;
                stdio_client := stdio_client c; stdio_transport := stdio_transport c;
                stdio_process := stdio_process c; stdio_connected := false |}
  | CHttp c => CHttp c
  end.

Definition processExit (id : string) (s : State) : State :=
  {| registry := withServers
       (mapUpdate (servers (registry s)) id
          (fun server => withClient (option_map disconnect (client server)) server))
       (registry s);
     trace := trace s |}.

(** The state right after construction. *)
Definition initialState (cfg : DiscoveryConfig) : State :=
  {| registry := newServerRegistry cfg; trace := [] |}.

(* ----------------------------------------------------------------- *)
(** ** Observations used in the statements *)

(** The three columns of the registry table. *)
Definition configs (r : ServerRegistry) : JsMap ServerConfig :=
  map (fun e => (fst e, config (snd e))) (servers r).

Definition clients (r : ServerRegistry) : JsMap (option McpClient) :=
  map (fun e => (fst e, client (snd e))) (servers r).

Definition snapshots (r : ServerRegistry) : JsMap (option CachedTools) :=
  map (fun e => (fst e, cachedTools (snd e))) (servers r).

Definition isListEvent (e : Event) : bool :=
  match e with EvListTools _ => true | _ => false end.

Definition isConnectEvent (e : Event) : bool :=
  match e with EvConnect _ => true | _ => false end.

Definition isCallEvent (e : Event) : bool :=
  match e with EvCallTool _ _ _ => true | _ => false end.

(** The number of [Client.listTools] requests in a trace. *)
Definition fetchCount (tr : list Event) : nat :=
  List.length (filter isListEvent tr).

Definition connectCount (tr : list Event) : nat :=
  List.length (filter isConnectEvent tr).

Definition callCount (tr : list Event) : nat :=
  List.length (filter isCallEvent tr).

(** What a stored client must satisfy: a stdio client that is connected
    holds its SDK client, and an HTTP client is never connected. *)
Definition clientSound (c : McpClient) : Prop :=
  match c with
  | CStdio c => stdio_connected c = true -> stdio_client c = true
  | CHttp c => http_connected c = false
  end.

(** The invariant of the registry: keys are unique, and the client stored
    under a key was built for that key. *)
Definition wfState (s : State) : Prop :=
  NoDup (getServerIds (registry s)) /\
  forall k server c,
    In (k, server) (servers (registry s)) ->
    client server = Some c ->
    clientServerId c = k /\ clientSound c.

(** Two candidates that differ at most in their scores. *)
Definition sameButScore (a b : RankedTool) : Prop :=
  serverId a = serverId b /\ serverName a = serverName b /\
  toolName a = toolName b /\ toolDescription a = toolDescription b /\
  reason a = reason b.

(** What [listAllTools] records for an outcome of [listTools]. *)
Definition toolsOrEmpty (r : Result (list ToolInfo)) : list ToolInfo :=
  match r with
  | Ok ts => ts
  | Err _ => []
  end.

(** The state in which the listing of the next id starts, once [listTools]
    has run for the ids of [ids] in turn. *)
Fixpoint stateAfter (W : World) (now : string -> Z) (ids : list string) (s : State)
  : State :=
  match ids with
  | [] => s
  | id :: rest => stateAfter W now rest (snd (listTools W id (now id) s))
  end.

(** The entries [listAllTools] collects, in the order of the ids. *)
Fixpoint collected (W : World) (now : string -> Z) (ids : list string) (s : State)
  : JsMap (list ToolInfo) :=
  match ids with
  | [] => []
  | id :: rest =>
      (id, toolsOrEmpty (fst (listTools W id (now id) s)))
        :: collected W now rest (snd (listTools W id (now id) s))
  end.

(** [cfg] with another list of servers. *)
Definition withConfigServers (l : list ServerConfig) (cfg : DiscoveryConfig)
  : DiscoveryConfig :=
  {| cfg_servers := l; cfg_routing := cfg_routing cfg |}.

(** The overlap rule in the words of the specification: 1 for a query
    token found in the target set, else 1/2 if some target token is a
    substring of it or it of some target token, else nothing. *)
Definition award (targetTokens : list string) (queryToken : string) : Q :=
  if existsb (String.eqb queryToken) targetTokens then 1
  else if existsb (fun t => includes t queryToken || includes queryToken t)
                  targetTokens
       then 1 # 2
       else 0.

Fixpoint Qsum (l : list Q) : Q :=
  match l with
  | [] => 0
  | x :: l' => x + Qsum l'
  end.

Definition overlapSpec (queryTokens targetTokens : list string) : Q :=
  Qsum (map (award targetTokens) queryTokens)
  / inject_Z (Z.of_nat (List.length queryTokens)).

(** [a] may stand before [b] in the ranking: a higher score, or the same
    score and a name that does not come later. *)
Definition rankedBefore (localeCompare : string -> string -> comparison)
    (a b : RankedTool) : Prop :=
  score b < score a \/
  (score a == score b /\ localeCompare (toolName a) (toolName b) <> Gt).

(** The candidate of one tool of one server, as the specification
    describes it. *)
Definition candidateOf (queryTokens : list string) (sid : string)
    (cfg : ServerConfig) (tool : ToolInfo) (r : RankedTool) : Prop :=
  let up := calculateOverlapScore queryTokens (serverTokensOf cfg) in
  let cap := calculateOverlapScore queryTokens (toolTokensOf tool) in
  serverId r = sid /\ serverName r = cfg_name cfg /\
  toolName r = tool_name tool /\ toolDescription r = tool_description tool /\
  0 < (4 # 10) * up + (6 # 10) * cap /\
  score r == round2 ((4 # 10) * up + (6 # 10) * cap) /\
  reason r = buildReason queryTokens (serverTokensOf cfg) (toolTokensOf tool).

(** ** Sample upstreams *)

(** Every connection succeeds and every listing answers [ts]. *)
Definition healthyWorld (ts : list ToolInfo) : World :=
  {| sdk_connect := fun _ _ => None;
     sdk_listTools := fun _ _ => Ok ts;
     sdk_callTool := fun _ _ _ _ =>
       Ok {| resp_content := []; resp_isError := None |} |}.

(** Connections succeed; listing and calling fail with [message]. *)
Definition brokenWorld (message : string) : World :=
  {| sdk_connect := fun _ _ => None;
     sdk_listTools := fun _ _ => Err message;
     sdk_callTool := fun _ _ _ _ => Err message |}.

(** Connections are refused with [message]. *)
Definition unreachableWorld (message : string) : World :=
  {| sdk_connect := fun _ _ => Some (ConnectRejected message);
     sdk_listTools := fun _ _ => Err message;
     sdk_callTool := fun _ _ _ _ => Err message |}.

(** The subprocess cannot be started: [spawn] throws [message]. *)
Definition spawnFailsWorld (message : string) : World :=
  {| sdk_connect := fun _ _ => Some (SpawnThrew message);
     sdk_listTools := fun _ _ => Err message;
     sdk_callTool := fun _ _ _ _ => Err message |}.

(** The upstream [bad] fails to list, every other one answers [ts]. *)
Definition oneBrokenWorld (bad : string) (ts : list ToolInfo) : World :=
  {| sdk_connect := fun _ _ => None;
     sdk_listTools := fun _ id =>
       if String.eqb id bad then Err "listing failed" else Ok ts;
     sdk_callTool := fun _ _ _ _ =>
       Ok {| resp_content := []; resp_isError := None |} |}.

(** The configuration of [test/registry.test.ts]. *)
Definition stdioServer (id name description : string) (enabled : bool)
    (tags : list string) : ServerConfig :=
  {| cfg_id := id; cfg_name := name; cfg_description := Some description;
     cfg_transport := TStdio noArgs; cfg_enabled := enabled; cfg_tags := tags |}.

Definition testConfig : DiscoveryConfig :=
  {| cfg_servers :=
       [stdioServer "server1" "Server One" "First test server" true ["test"; "one"];
        stdioServer "server2" "Server Two" "Second test server" true ["test"; "two"];
        stdioServer "disabled" "Disabled Server" "This server is disabled" false []];
     cfg_routing := {| routing_maxResults := 5; routing_cacheTtlMs := 60000 |} |}.

(** A configuration the schema accepts whose one upstream has the empty
    command, for which Node's [spawn] throws. *)
Definition emptyCommandConfig : DiscoveryConfig :=
  {| cfg_servers :=
       [{| cfg_id := "server1"; cfg_name := "Server One"; cfg_description := None;
           cfg_transport :=
             TStdio {| command := EmptyString; args := []; env := None; cwd := None |};
           cfg_enabled := true; cfg_tags := [] |}];
     cfg_routing := {| routing_maxResults := 5; routing_cacheTtlMs := 60000 |} |}.

Definition emptyCommandMessage : string :=
  "The argument 'file' cannot be empty. Received ''".

(** A registry holding a snapshot taken at time 1000 for [server1]. *)
Definition cachedState : State :=
  {| registry :=
       {| servers :=
            [("server1",
              {| config := stdioServer "server1" "Server One" "First test server"
                             true ["test"; "one"];
                 client := None;
                 cachedTools := Some {| tools := weatherTools; fetchedAt := 1000 |} |})];
          cacheTtlMs := 60000 |};
     trace := [] |}.

(** The row of [server1] in [cachedState] and right after construction. *)
Definition cachedRow : RegisteredServer :=
  {| config := stdioServer "server1" "Server One" "First test server"
                 true ["test"; "one"];
     client := None;
     cachedTools := Some {| tools := weatherTools; fetchedAt := 1000 |} |}.

Definition freshRow : RegisteredServer :=
  {| config := stdioServer "server1" "Server One" "First test server"
                 true ["test"; "one"];
     client := None;
     cachedTools := None |}.

(** The first answer to the query of the second routing test. *)
Definition addScore : Q := Eval vm_compute in round2 (6 # 10).

Definition addCandidate : RankedTool :=
  {| serverId := "calculator"; serverName := "Calculator Server";
     toolName := "add"; toolDescription := Some "Add two numbers together";
     score := addScore;
     reason := "tool matches: add, two, numbers" |}.

(* ----------------------------------------------------------------- *)
(** ** The command line, [src/bin/mcp-discovery.ts] *)

Record ParsedArgs : Type := {
  configPath : option string;
  help : bool;
}.

(** [arg.startsWith(p)] *)
Definition startsWith (arg p : string) : bool := String.prefix p arg.

(** [arg.slice(n)] for a count [n] *)
Fixpoint sliceFrom (n : nat) (s : string) : string :=
  match n, s with
  | O, _ => s
  | S n', String _ s' => sliceFrom n' s'
  | S _, EmptyString => EmptyString
  end.

(** The loop of [parseArgs] from the argument it stands at; [configPath]
    and [help] are the two variables.  [args[++i]] past the end is
    [undefined], and the loop ends there. *)
Fixpoint parseLoop (args : list string) (configPath : option string) (help : bool)
  : ParsedArgs :=
  match args with
  | [] => {| configPath := configPath; help := help |}
  | arg :: rest =>
      if String.eqb arg "--help" || String.eqb arg "-h" then
        parseLoop rest configPath true
      else if String.eqb arg "--config" || String.eqb arg "-c" then
        match rest with
        | [] => {| configPath := None; help := help |}
        | path :: rest' => parseLoop rest' (Some path) help
        end
      else if startsWith arg "--config=" then
        parseLoop rest (Some (sliceFrom (String.length "--config=") arg)) help
      else parseLoop rest configPath help
  end.

(** [parseArgs]; [argv] is [process.argv.slice(2)]. *)
Definition parseArgs (argv : list string) : ParsedArgs :=
  parseLoop argv None false.

(** The arguments [parseArgs] reacts to. *)
Definition isOptionWord (arg : string) : bool :=
  String.eqb arg "--help" || String.eqb arg "-h" ||
  String.eqb arg "--config" || String.eqb arg "-c" ||
  startsWith arg "--config=".

(* ----------------------------------------------------------------- *)
(** ** The router tools, [src/server/registerRouterTools.ts] *)

(** What a tool handler returns; [r_isError] is [None] where the object has
    no [isError] field. *)
Record ToolResponse : Type := {
  r_content : list ToolCallContentItem;
  r_isError : option bool;
}.

Definition textItem (t : string) : ToolCallContentItem := {| item_text := t |}.

(** The entry of [list-servers] for one configuration. *)
Record ServerSummary : Type := {
  sum_id : string;
  sum_name : string;
  sum_description : string;
  sum_transport : string;
  sum_tags : list string;
}.

Definition transportType (t : TransportConfig) : string :=
  match t with
  | TStdio _ => "stdio"
  | THttp _ => "http"
  end.

Definition summarize (c : ServerConfig) : ServerSummary :=
  {| sum_id := cfg_id c; sum_name := cfg_name c;
     sum_description := orEmpty (cfg_description c);
     sum_transport := transportType (cfg_transport c);
     sum_tags := cfg_tags c |}.

(** The host's text renderings: [JSON.stringify(x, null, 2)] for the two
    lists that are printed, and the conversion of a number inside a
    template. *)
Record Rendering : Type := {
  stringifyServers : list ServerSummary -> string;
  stringifyTools : list ToolInfo -> string;
  showNumber : Q -> string;
  showCount : nat -> string;
}.

Definition newline : string := String (ascii_of_nat 10) EmptyString.

Definition unknownServerText (id : string) : string :=
  ("Error: Unknown server " ++ quoted id
   ++ ". Use list-servers to see available servers.")%string.

Definition listErrorText (id message : string) : string :=
  ("Error listing tools for server " ++ quoted id ++ ": " ++ message)%string.

Definition callErrorText (toolName id message : string) : string :=
  ("Error calling tool " ++ quoted toolName ++ " on server " ++ quoted id
   ++ ": " ++ message)%string.

Definition routeErrorText (message : string) : string :=
  ("Error routing query: " ++ message)%string.

Definition noToolsText (query : string) : string :=
  ("No relevant tools found for query: " ++ quoted query)%string.

Definition errorResponse (t : string) : ToolResponse :=
  {| r_content := [textItem t]; r_isError := Some true |}.

Definition textResponse (t : string) : ToolResponse :=
  {| r_content := [textItem t]; r_isError := None |}.

(** The handler of [list-servers]. *)
Definition listServersHandler (R : Rendering) (s : State) : ToolResponse :=
  textResponse (stringifyServers R (map summarize (getAllServerConfigs (registry s)))).

(** The handler of [list-tools]. *)
Definition listToolsHandler (R : Rendering) (W : World) (id : string) (now : Z)
    (s : State) : ToolResponse * State :=
  if negb (hasServer (registry s) id) then (errorResponse (unknownServerText id), s)
  else
    match listTools W id now s with
    | (Ok fetched, s') => (textResponse (stringifyTools R (map copyTool fetched)), s')
    | (Err message, s') => (errorResponse (listErrorText id message), s')
    end.

(** The map of configurations [route-query] builds for the ranker. *)
Definition collectConfigs (r : ServerRegistry) : JsMap ServerConfig :=
  fold_left (fun m id => match getServerConfig r id with
                         | Some c => mapSet m id c
                         | None => m
                         end)
            (getServerIds r) [].

(** The line block of one ranked tool; [i] counts from 0. *)
Definition rankedLine (R : Rendering) (i : nat) (r : RankedTool) : string :=
  (showCount R (i + 1) ++ ". " ++ serverName r ++ " / " ++ toolName r
   ++ " (score: " ++ showNumber R (score r) ++ ")" ++ newline
   ++ "   " ++ match toolDescription r with
               | Some d => d
               | None => "No description"
               end ++ newline
   ++ "   Reason: " ++ reason r)%string.

Fixpoint rankedLines (R : Rendering) (i : nat) (l : list RankedTool) : list string :=
  match l with
  | [] => []
  | r :: l' => rankedLine R i r :: rankedLines R (S i) l'
  end.

Definition resultText (R : Rendering) (query : string) (ranked : list RankedTool)
  : string :=
  String.concat newline
    (("Top " ++ showCount R (List.length ranked) ++ " tool(s) for query: "
      ++ quoted query)%string
     :: EmptyString :: rankedLines R 0 ranked).

(** The handler of [route-query]; [maxRouteResults] is the value the tools
    were registered with, [requested] the optional argument. *)
Definition routeQueryHandler (R : Rendering) (W : World)
    (localeCompare : string -> string -> comparison)
    (maxRouteResults : Z) (query : string) (requested : option Z)
    (now : string -> Z) (s : State) : ToolResponse * State :=
  let limit := match requested with Some n => n | None => maxRouteResults end in
  match listAllTools W now s with
  | (Ok allTools, s') =>
      let ranked := rankToolsForQuery localeCompare query allTools
                      (collectConfigs (registry s')) limit in
      if (List.length ranked =? 0)%nat
      then (textResponse (noToolsText query), s')
      else (textResponse (resultText R query ranked), s')
  | (Err message, s') => (errorResponse (routeErrorText message), s')
  end.

(** The text of the empty argument object, [{}]. *)
Definition emptyObject : Json := String (ascii_of_nat 123) (String (ascii_of_nat 125) EmptyString).

(** The handler of [call-tool]. *)
Definition callToolHandler (W : World) (id toolName : string)
    (arguments : option Json) (s : State) : ToolResponse * State :=
  if negb (hasServer (registry s) id) then (errorResponse (unknownServerText id), s)
  else
    match callTool W id toolName
            (match arguments with Some a => a | None => emptyObject end) s with
    | (Ok result, s') =>
        ({| r_content := content result; r_isError := Some (isError result) |}, s')
    | (Err message, s') => (errorResponse (callErrorText toolName id message), s')
    end.

(* ----------------------------------------------------------------- *)
(** ** Histories *)

(** What can happen to a registry: a call of one of its methods, or the
    child process of a stdio client ending. *)
Inductive Op : Type :=
| OpGetClient (id : string)
| OpListTools (id : string) (now : Z)
| OpListAllTools (now : string -> Z)
| OpCallTool (id toolName : string) (arguments : Json)
| OpCloseAll
| OpInvalidateCache (serverId : option string)
| OpProcessExit (id : string).

Definition runOp (W : World) (s : State) (op : Op) : State :=
  match op with
  | OpGetClient id => snd (getClient W id s)
  | OpListTools id now => snd (listTools W id now s)
  | OpListAllTools now => snd (listAllTools W now s)
  | OpCallTool id n a => snd (callTool W id n a s)
  | OpCloseAll => snd (closeAll s)
  | OpInvalidateCache o => invalidateCache o s
  | OpProcessExit id => processExit id s
  end.

(** The state a configuration reaches through a history. *)
Definition runOps (W : World) (cfg : DiscoveryConfig) (ops : list Op) : State :=
  fold_left (runOp W) ops (initialState cfg).

(** The upstream an event was sent to. *)
Definition eventId (e : Event) : string :=
  match e with
  | EvConnect id => id
  | EvListTools id => id
  | EvCallTool id _ _ => id
  | EvClose id => id
  end.

(** A listing or a call, the two requests that need a connection. *)
Definition isRequest (e : Event) : bool := isListEvent e || isCallEvent e.

(** No listing and no call without a connection opened before it. *)
Definition okTrace (tr : list Event) : Prop :=
  forall a e b, tr = a ++ e :: b -> isRequest e = true ->
                In (EvConnect (eventId e)) a.

Definition isStdio (t : TransportConfig) : Prop := exists c0, t = TStdio c0.

(** What holds of a registry built from [cfg] throughout its life. *)
Definition registryInv (cfg : DiscoveryConfig) (s : State) : Prop :=
  wfState s /\
  configs (registry s) = configs (newServerRegistry cfg) /\
  cacheTtlMs (registry s) = routing_cacheTtlMs (cfg_routing cfg) /\
  (forall k sv c,
      In (k, sv) (servers (registry s)) -> client sv = Some c -> connected c = true ->
      isStdio (cfg_transport (config sv)) /\ In (EvConnect k) (trace s)) /\
  (forall k sv,
      In (k, sv) (servers (registry s)) -> cachedTools sv <> None ->
      isStdio (cfg_transport (config sv))) /\
  (forall e, In e (trace s) -> In (eventId e) (getServerIds (registry s))) /\
  okTrace (trace s).

(** The tokens named by one clause of a reason. *)
Definition reasonTokens (queryTokens tokens : list string) : list string :=
  firstn 3 (newSet (firstMatches queryTokens tokens)).

(** The characters of a string. *)
Fixpoint chars (s : string) : list ascii :=
  match s with
  | EmptyString => []
  | String c s' => c :: chars s'
  end.

(** What a token is: some characters, none of them separating. *)
Definition cleanToken (t : string) : Prop :=
  t <> EmptyString /\ forall c, In c (chars t) -> isSeparator c = false.

(** The last enabled descriptor of a list that carries [id]. *)
Definition lastEnabled (l : list ServerConfig) (id : string) : option ServerConfig :=
  find (fun c => String.eqb (cfg_id c) id) (rev (filter cfg_enabled l)).

(** A configuration with one HTTP upstream. *)
Definition httpConfig : DiscoveryConfig :=
  {| cfg_servers :=
       [{| cfg_id := "remote"; cfg_name := "Remote"; cfg_description := None;
           cfg_transport := THttp {| url := "http://localhost:1"; headers := None |};
           cfg_enabled := true; cfg_tags := [] |}];
     cfg_routing := {| routing_maxResults := 5; routing_cacheTtlMs := 60000 |} |}.

(** A rendering for running examples: a list prints as the digit of its
    length, a score as the digit of its tenths. *)
Definition sampleCount (n : nat) : string :=
  String (ascii_of_nat (48 + n)) EmptyString.

Definition sampleRendering : Rendering :=
  {| stringifyServers := fun l => sampleCount (List.length l);
     stringifyTools := fun l => sampleCount (List.length l);
     showNumber := fun q => sampleCount (Z.to_nat (Qfloor (q * 10)));
     showCount := sampleCount |}.

(* ================================================================= *)
(** * Part II: properties *)
(* ================================================================= *)

(** ** Maps *)

Lemma mapKeys_mapSet {V} (m : JsMap V) k v :
  mapKeys (mapSet m k v) = if mapHas m k then mapKeys m else mapKeys m ++ [k].
Proof.
  unfold mapHas. induction m as [|[k' v'] m IH]; simpl; [reflexivity|].
  destruct (String.eqb k' k) eqn:E; simpl; [reflexivity|].
  rewrite IH. destruct (mapGet m k); reflexivity.
Qed.

Lemma mapHas_In {V} (m : JsMap V) k : mapHas m k = true <-> In k (mapKeys m).
Proof.
  unfold mapHas. induction m as [|[k' v'] m IH]; simpl.
  - split; [discriminate | tauto].
  - destruct (String.eqb k' k) eqn:E.
    + apply String.eqb_eq in E. split; auto.
    + apply String.eqb_neq in E. rewrite IH. split; [auto | intros [H|H]; congruence].
Qed.

Lemma mapHas_false {V} (m : JsMap V) k : mapHas m k = false <-> ~ In k (mapKeys m).
Proof.
  rewrite <- mapHas_In. destruct (mapHas m k); split; congruence.
Qed.

Lemma mapGet_In {V} (m : JsMap V) k v : mapGet m k = Some v -> In (k, v) m.
Proof.
  induction m as [|[k' v'] m IH]; simpl; [discriminate|].
  destruct (String.eqb k' k) eqn:E.
  - apply String.eqb_eq in E. intros [= ->]. subst. auto.
  - auto.
Qed.

Lemma In_mapGet {V} (m : JsMap V) k v :
  NoDup (mapKeys m) -> In (k, v) m -> mapGet m k = Some v.
Proof.
  induction m as [|[k' v'] m IH]; simpl; [tauto|].
  intros ND [H|H].
  - injection H as -> ->. now rewrite String.eqb_refl.
  - inversion ND as [|? ? Hn ND']; subst.
    destruct (String.eqb k' k) eqn:E.
    + apply String.eqb_eq in E. subst. exfalso. apply Hn.
      change k with (fst (k, v)). now apply in_map.
    + auto.
Qed.

Lemma mapKeys_mapUpdate {V} (m : JsMap V) k f : mapKeys (mapUpdate m k f) = mapKeys m.
Proof.
  induction m as [|[k' v'] m IH]; simpl; [reflexivity|].
  destruct (String.eqb k' k); simpl; [reflexivity | now rewrite IH].
Qed.

Lemma mapGet_mapUpdate {V} (m : JsMap V) k f k' :
  mapGet (mapUpdate m k f) k' =
  if String.eqb k k' then option_map f (mapGet m k') else mapGet m k'.
Proof.
  induction m as [|[k0 v0] m IH]; simpl.
  - now destruct (String.eqb k k').
  - destruct (String.eqb k0 k) eqn:E; simpl.
    + apply String.eqb_eq in E. subst k0.
      destruct (String.eqb k k'); reflexivity.
    + destruct (String.eqb k0 k') eqn:E'.
      * apply String.eqb_eq in E'. subst k0.
        rewrite String.eqb_sym in E. now rewrite E.
      * apply IH.
Qed.

Lemma In_mapUpdate {V} (m : JsMap V) k f k' v' :
  In (k', v') (mapUpdate m k f) ->
  In (k', v') m \/ (k' = k /\ exists v, In (k, v) m /\ v' = f v).
Proof.
  induction m as [|[k0 v0] m IH]; simpl; [tauto|].
  destruct (String.eqb k0 k) eqn:E; simpl.
  - apply String.eqb_eq in E. subst k0. intros [H|H].
    + injection H as <- <-. right. split; [reflexivity|]. exists v0. auto.
    + auto.
  - intros [H|H]; [auto|].
    destruct (IH H) as [H'|(-> & v & Hin & ->)]; [auto|].
    right. split; [reflexivity|]. exists v. auto.
Qed.

Lemma NoDup_mapSet {V} (m : JsMap V) k v :
  NoDup (mapKeys m) -> NoDup (mapKeys (mapSet m k v)).
Proof.
  intros ND. rewrite mapKeys_mapSet.
  destruct (mapHas m k) eqn:E; [assumption|].
  apply mapHas_false in E.
  apply NoDup_rev in ND. rewrite <- (rev_involutive (mapKeys m ++ [k])).
  apply NoDup_rev. rewrite rev_app_distr. simpl.
  constructor; [rewrite <- in_rev; assumption | assumption].
Qed.

(** ** Construction: C7 *)

Lemma register_keys (l : list ServerConfig) : forall acc i,
  In i (mapKeys (fold_left register l acc)) <->
  In i (mapKeys acc) \/
  exists c, In c l /\ cfg_enabled c = true /\ cfg_id c = i.
Proof.
  induction l as [|c l IH]; intros acc i; simpl.
  - split; [auto | intros [H|(c & [] & _)]; assumption].
  - rewrite IH. unfold register.
    destruct (cfg_enabled c) eqn:En.
    + rewrite mapKeys_mapSet.
      destruct (mapHas acc (cfg_id c)) eqn:Hh.
      * apply mapHas_In in Hh. split.
        -- intros [H|(c' & Hin & He & Hi)]; [auto|]. right. exists c'. auto.
        -- intros [H|(c' & [->|Hin] & He & Hi)]; [auto| |].
           ++ left. now subst.
           ++ right. exists c'. auto.
      * rewrite in_app_iff. simpl. split.
        -- intros [[H|[H|[]]]|(c' & Hin & He & Hi)]; [auto| |].
           ++ right. exists c. auto.
           ++ right. exists c'. auto.
        -- intros [H|(c' & [->|Hin] & He & Hi)]; [auto| |].
           ++ left. right. left. assumption.
           ++ right. exists c'. auto.
    + split.
      * intros [H|(c' & Hin & He & Hi)]; [auto|]. right. exists c'. auto.
      * intros [H|(c' & [->|Hin] & He & Hi)]; [auto|congruence|].
        right. exists c'. auto.
Qed.

Lemma register_NoDup (l : list ServerConfig) : forall acc,
  NoDup (mapKeys acc) -> NoDup (mapKeys (fold_left register l acc)).
Proof.
  induction l as [|c l IH]; intros acc ND; simpl; [assumption|].
  apply IH. unfold register. destruct (cfg_enabled c); [|assumption].
  now apply NoDup_mapSet.
Qed.

Lemma register_filter (l : list ServerConfig) : forall acc,
  fold_left register (filter cfg_enabled l) acc = fold_left register l acc.
Proof.
  induction l as [|c l IH]; intros acc; simpl; [reflexivity|].
  destruct (cfg_enabled c) eqn:En; simpl; rewrite IH; unfold register; now rewrite En.
Qed.

Lemma mapHas_mapSet {V} (m : JsMap V) k v x :
  mapHas (mapSet m k v) x = mapHas m x || String.eqb k x.
Proof.
  unfold mapHas. induction m as [|[k' v'] m IH]; simpl.
  - now destruct (String.eqb k x).
  - destruct (String.eqb k' k) eqn:E; simpl.
    + apply String.eqb_eq in E. subst k'.
      destruct (String.eqb k x); [reflexivity|]. now rewrite orb_false_r.
    + destruct (String.eqb k' x); [reflexivity | exact IH].
Qed.

Lemma filter_and {A} (f g : A -> bool) (l : list A) :
  filter (fun x => f x && g x) l = filter f (filter g l).
Proof.
  induction l as [|x l IH]; simpl; [reflexivity|].
  destruct (g x); simpl; [|now rewrite andb_false_r].
  rewrite andb_true_r. destruct (f x); now rewrite IH.
Qed.

(** The keys of the table in order: the ids of the enabled descriptors in
    order of first occurrence, behind those already there. *)
Lemma register_keys_ordered (l : list ServerConfig) : forall acc,
  mapKeys (fold_left register l acc) =
  mapKeys acc ++ filter (fun k => negb (mapHas acc k))
                        (newSet (map cfg_id (filter cfg_enabled l))).
Proof.
  induction l as [|c l IH]; intros acc; simpl.
  - now rewrite app_nil_r.
  - rewrite IH. unfold register. destruct (cfg_enabled c) eqn:En; [|reflexivity].
    simpl. rewrite mapKeys_mapSet.
    rewrite (filter_ext (fun k => negb (mapHas (mapSet acc (cfg_id c)
                 {| config := c; client := None; cachedTools := None |}) k))
               (fun k => negb (mapHas acc k) && negb (String.eqb k (cfg_id c)))).
    2:{ intros k. rewrite mapHas_mapSet, negb_orb, (String.eqb_sym (cfg_id c) k).
        reflexivity. }
    rewrite filter_and.
    destruct (mapHas acc (cfg_id c)) eqn:Hh; simpl; [reflexivity|].
    now rewrite <- app_assoc.
Qed.

(** C7. The registered ids are exactly the ids of the enabled descriptors,
    each once (possibly none at all); [hasServer] answers [false] exactly
    for the ids that no enabled descriptor carries, be the id disabled or
    absent; and a configuration builds the same registry with or without
    its disabled descriptors, so the two cases cannot be told apart.  In
    order, the registered ids are the ids of the enabled descriptors as
    they first occur in the configuration. *)
Theorem C7_registered_ids_are_the_enabled_ones (cfg : DiscoveryConfig) :
  let r := newServerRegistry cfg in
  getServerIds r = newSet (map cfg_id (filter cfg_enabled (cfg_servers cfg))) /\
  NoDup (getServerIds r) /\
  (forall i, In i (getServerIds r) <->
             exists c, In c (cfg_servers cfg) /\ cfg_enabled c = true /\ cfg_id c = i) /\
  (forall i, hasServer r i = false <->
             forall c, In c (cfg_servers cfg) -> cfg_id c = i -> cfg_enabled c = false) /\
  newServerRegistry (withConfigServers (filter cfg_enabled (cfg_servers cfg)) cfg) = r.
Proof.
  cbv zeta. unfold getServerIds, hasServer, newServerRegistry. simpl.
  assert (Hk : forall i, In i (mapKeys (fold_left register (cfg_servers cfg) [])) <->
             exists c, In c (cfg_servers cfg) /\ cfg_enabled c = true /\ cfg_id c = i).
  { intros i. rewrite register_keys. simpl. tauto. }
  split.
  { rewrite register_keys_ordered. simpl.
    induction (newSet (map cfg_id (filter cfg_enabled (cfg_servers cfg))))
      as [|x l IH]; simpl; [reflexivity | now rewrite IH]. }
  repeat split.
  - apply register_NoDup. constructor.
  - apply Hk.
  - apply Hk.
  - intros Hf c Hin Hi. apply mapHas_false in Hf.
    destruct (cfg_enabled c) eqn:En; [|reflexivity].
    exfalso. apply Hf, Hk. exists c. auto.
  - intros Hall. apply mapHas_false. intros Hin. apply Hk in Hin.
    destruct Hin as (c & Hin & He & Hi). rewrite (Hall c Hin Hi) in He. discriminate.
  - now rewrite register_filter.
Qed.

(** ** Strings *)

Lemma prefix_app (sub s b : string) :
  String.prefix sub s = true -> String.prefix sub (s ++ b)%string = true.
Proof.
  revert sub. induction s as [|c s IH]; intros [|c' sub]; simpl.
  - intros _. now destruct b.
  - discriminate.
  - reflexivity.
  - destruct (ascii_dec c' c); [auto | discriminate].
Qed.

Lemma prefix_refl (s : string) : String.prefix s s = true.
Proof.
  induction s as [|c s IH]; simpl; [reflexivity|].
  destruct (ascii_dec c c); [assumption | congruence].
Qed.

Lemma includes_refl (s : string) : includes s s = true.
Proof.
  destruct s; simpl; [reflexivity|].
  destruct (ascii_dec a a); [|congruence]. now rewrite prefix_refl.
Qed.

Lemma includes_app_l (s sub b : string) :
  includes s sub = true -> includes (s ++ b)%string sub = true.
Proof.
  assert (Hp : forall t, String.prefix sub t = true -> includes t sub = true).
  { intros t E. destruct t; cbn [includes]; now rewrite E. }
  induction s as [|c s IH]; cbn [includes].
  - destruct (String.prefix sub EmptyString) eqn:E; [|discriminate].
    intros _. apply Hp. now apply (prefix_app _ _ b) in E.
  - destruct (String.prefix sub (String c s)) eqn:E.
    + intros _. apply Hp. now apply (prefix_app _ _ b) in E.
    + intros H. cbn [append includes].
      destruct (String.prefix sub (String c (s ++ b))); [reflexivity | auto].
Qed.

Lemma includes_app_r (a s sub : string) :
  includes s sub = true -> includes (a ++ s)%string sub = true.
Proof.
  intros H. induction a as [|c a IH]; [assumption|].
  cbn [append includes].
  destruct (String.prefix sub (String c (a ++ s))); [reflexivity | assumption].
Qed.

Lemma append_assoc (a b c : string) : ((a ++ b) ++ c = a ++ (b ++ c))%string.
Proof. induction a as [|x a IH]; simpl; [reflexivity | now rewrite IH]. Qed.

Lemma includes_quoted (id : string) : includes (quoted id) id = true.
Proof.
  unfold quoted. apply includes_app_r, includes_app_l, includes_refl.
Qed.

Lemma includes_unknownServer (id : string) : includes (unknownServer id) id = true.
Proof. unfold unknownServer. apply includes_app_r, includes_quoted. Qed.

Lemma includes_notConnected (id : string) : includes (notConnected id) id = true.
Proof. unfold notConnected. apply includes_app_r, includes_quoted. Qed.

Lemma includes_connectFailed (id m : string) : includes (connectFailed id m) id = true.
Proof.
  unfold connectFailed. apply includes_app_r, includes_app_l, includes_quoted.
Qed.

Lemma includes_httpConnectFailed (id u : string) :
  includes (httpConnectFailed id u) id = true.
Proof.
  unfold httpConnectFailed. apply includes_app_r, includes_app_l, includes_quoted.
Qed.

Arguments includes : simpl never.
Arguments connectFailed : simpl never.
Arguments httpConnectFailed : simpl never.
Arguments notConnected : simpl never.
Arguments unknownServer : simpl never.

(** ** The clients *)

Lemma filter_snoc {A} (f : A -> bool) l x :
  filter f (l ++ [x]) = filter f l ++ (if f x then [x] else []).
Proof. rewrite filter_app. reflexivity. Qed.

(** Outcome of connecting a client that was just built. *)
Lemma clientConnect_new (W : World) (id : string) (t : TransportConfig) (tr : list Event) :
  forall r c' tr', clientConnect W (newClient id t) tr = (r, c', tr') ->
  exists evs, tr' = tr ++ evs /\
    (connectCount evs <= 1)%nat /\ fetchCount evs = 0%nat /\ callCount evs = 0%nat /\
    clientServerId c' = id /\ clientSound c' /\
    match r with
    | Ok _ => connected c' = true /\ exists c0, t = TStdio c0 /\ sdk_connect W tr id = None
    | Err e =>
        match t with
        | TStdio _ =>
            (exists m, sdk_connect W tr id = Some (ConnectRejected m) /\
                       e = connectFailed id m /\ evs = [EvConnect id; EvClose id]) \/
            (exists m, sdk_connect W tr id = Some (SpawnThrew m) /\ e = m /\ evs = [])
        | THttp h => e = httpConnectFailed id (url h) /\ evs = []
        end
    end.
Proof.
  intros r c' tr'. destruct t as [c0|c0]; simpl.
  - unfold stdioConnect. simpl.
    destruct (sdk_connect W tr id) as [[m|m]|] eqn:E; simpl; intros [= <- <- <-].
    + exists []. rewrite app_nil_r.
      repeat split; try reflexivity; try (cbv; lia); try discriminate.
      right. exists m. auto.
    + exists [EvConnect id; EvClose id]. rewrite <- app_assoc. simpl.
      repeat split; try reflexivity; try (cbv; lia); try discriminate.
      left. exists m. auto.
    + exists [EvConnect id]. repeat split; try reflexivity; try (cbv; lia).
      exists c0. auto.
  - intros [= <- <- <-]. exists []. rewrite app_nil_r.
    repeat split; try reflexivity; try (cbv; lia).
Qed.

Lemma copyTool_id (l : list ToolInfo) : map copyTool l = l.
Proof.
  induction l as [|[n t d i] l IH]; simpl; [reflexivity|].
  now rewrite IH.
Qed.

(** Outcome of listing through a connected client. *)
Lemma clientListTools_connected (W : World) (c : McpClient) (tr : list Event) :
  connected c = true -> clientSound c ->
  clientListTools W c tr =
  (sdk_listTools W tr (clientServerId c), tr ++ [EvListTools (clientServerId c)]).
Proof.
  destruct c as [c|c]; simpl; intros Hc Hs.
  - unfold stdioListTools. rewrite Hc, (Hs Hc). simpl.
    destruct (sdk_listTools W tr (stdio_serverId c)); [|reflexivity].
    now rewrite copyTool_id.
  - congruence.
Qed.

(** Whatever the client, listing asks the SDK at most once and an error is
    either the SDK's own, as it came, or names the server. *)
Lemma clientListTools_spec (W : World) (c : McpClient) (tr : list Event) :
  forall r tr', clientListTools W c tr = (r, tr') ->
  exists evs, tr' = tr ++ evs /\
    (fetchCount evs <= 1)%nat /\ connectCount evs = 0%nat /\ callCount evs = 0%nat /\
    match r with
    | Ok ts => sdk_listTools W tr (clientServerId c) = Ok ts /\
               evs = [EvListTools (clientServerId c)]
    | Err e => (sdk_listTools W tr (clientServerId c) = Err e /\
                evs = [EvListTools (clientServerId c)]) \/
               (includes e (clientServerId c) = true /\ evs = []) \/
               (e = httpNotImplemented /\ evs = [])
    end.
Proof.
  intros r tr'. destruct c as [c|c]; simpl.
  - unfold stdioListTools.
    destruct (negb (stdio_connected c) || negb (stdio_client c)).
    + intros [= <- <-]. exists []. rewrite app_nil_r.
      repeat split; try (cbv; lia). right. left. split; [|reflexivity].
      apply includes_notConnected.
    + destruct (sdk_listTools W tr (stdio_serverId c)) eqn:E; intros [= <- <-];
        eexists; (split; [reflexivity|]); repeat split; try (cbv; lia).
      * now rewrite copyTool_id.
      * left. auto.
  - intros [= <- <-]. exists []. rewrite app_nil_r.
    repeat split; try (cbv; lia). unfold httpListTools.
    destruct (negb (http_connected c)).
    + right. left. split; [apply includes_notConnected | reflexivity].
    + right. right. auto.
Qed.

Lemma clientCallTool_spec (W : World) (c : McpClient) n a (tr : list Event) :
  forall r tr', clientCallTool W c n a tr = (r, tr') ->
  exists evs, tr' = tr ++ evs /\
    (callCount evs <= 1)%nat /\ connectCount evs = 0%nat /\ fetchCount evs = 0%nat /\
    match r with
    | Ok res => exists resp, sdk_callTool W tr (clientServerId c) n a = Ok resp /\
                  res = {| content := resp_content resp;
                           isError := isTrue (resp_isError resp) |}
    | Err e => sdk_callTool W tr (clientServerId c) n a = Err e \/
               includes e (clientServerId c) = true \/
               e = httpNotImplemented
    end.
Proof.
  intros r tr'. destruct c as [c|c]; simpl.
  - unfold stdioCallTool.
    destruct (negb (stdio_connected c) || negb (stdio_client c)).
    + intros [= <- <-]. exists []. rewrite app_nil_r.
      repeat split; try (cbv; lia). right. left. apply includes_notConnected.
    + destruct (sdk_callTool W tr (stdio_serverId c) n a) as [resp|e] eqn:E;
        intros [= <- <-];
        eexists; (split; [reflexivity|]); repeat split; try (cbv; lia).
      * exists resp. auto.
      * left. reflexivity.
  - intros [= <- <-]. exists []. rewrite app_nil_r.
    repeat split; try (cbv; lia). unfold httpCallTool.
    destruct (negb (http_connected c)).
    + right. left. apply includes_notConnected.
    + right. right. reflexivity.
Qed.

(** ** Frame properties of the field assignments *)

Lemma snapshots_withClient (m : JsMap RegisteredServer) id c r :
  snapshots (withServers (mapUpdate m id (withClient c)) r) = snapshots (withServers m r).
Proof.
  unfold snapshots. simpl. induction m as [|[k v] m IH]; simpl; [reflexivity|].
  destruct (String.eqb k id); simpl; [reflexivity | now rewrite IH].
Qed.

Lemma configs_mapUpdate (m : JsMap RegisteredServer) id f r :
  (forall v, config (f v) = config v) ->
  configs (withServers (mapUpdate m id f) r) = configs (withServers m r).
Proof.
  intros Hf. unfold configs. simpl. induction m as [|[k v] m IH]; simpl; [reflexivity|].
  destruct (String.eqb k id); simpl; [now rewrite Hf | now rewrite IH].
Qed.

Lemma clients_withCachedTools (m : JsMap RegisteredServer) id t r :
  clients (withServers (mapUpdate m id (withCachedTools t)) r) = clients (withServers m r).
Proof.
  unfold clients. simpl. induction m as [|[k v] m IH]; simpl; [reflexivity|].
  destruct (String.eqb k id); simpl; [reflexivity | now rewrite IH].
Qed.

Lemma withServers_same (r : ServerRegistry) : withServers (servers r) r = r.
Proof. now destruct r. Qed.

Lemma state_eta (s : State) : {| registry := registry s; trace := trace s |} = s.
Proof. now destruct s. Qed.

(** ** [getClient] *)

Lemma getClient_unknown (W : World) id s :
  mapGet (servers (registry s)) id = None ->
  getClient W id s = (Err (unknownServer id), s).
Proof. intros H. unfold getClient, bind, getState, throw. now rewrite H. Qed.

Lemma getClient_connected (W : World) id s server c :
  mapGet (servers (registry s)) id = Some server ->
  connectedClient server = Some c ->
  getClient W id s = (Ok c, s).
Proof. intros H Hc. unfold getClient, bind, getState, ret. now rewrite H, Hc. Qed.

Lemma getClient_connecting (W : World) id s server :
  mapGet (servers (registry s)) id = Some server ->
  connectedClient server = None ->
  getClient W id s =
  match clientConnect W (newClient id (cfg_transport (config server))) (trace s) with
  | (Ok _, c, tr') =>
      (Ok c, {| registry := withServers
                  (mapUpdate (servers (registry s)) id (withClient (Some c)))
                  (registry s);
                trace := tr' |})
  | (Err e, _, tr') => (Err e, {| registry := registry s; trace := tr' |})
  end.
Proof.
  intros H Hc. unfold getClient, bind, getState, awaitConnect, modifyServer, ret.
  rewrite H, Hc.
  destruct (clientConnect W (newClient id (cfg_transport (config server))) (trace s))
    as [[[u|e] c] tr']; reflexivity.
Qed.

Lemma connectedClient_Some server c :
  connectedClient server = Some c -> client server = Some c /\ connected c = true.
Proof.
  unfold connectedClient. destruct (client server) as [c0|]; [|discriminate].
  destruct (connected c0) eqn:E; [|discriminate]. intros [= <-]. auto.
Qed.

(** The outcomes of [getClient]: it asks for at most one connection; an
    error leaves the registry as it was and names the server, unless it is
    what [spawn] threw; a success hands out a connected client, either the
    stored one (nothing changes) or a new one stored under [id]. *)
Lemma getClient_spec (W : World) id s r s' :
  getClient W id s = (r, s') ->
  exists evs, trace s' = trace s ++ evs /\
    (connectCount evs <= 1)%nat /\ fetchCount evs = 0%nat /\ callCount evs = 0%nat /\
    match r with
    | Err e =>
        registry s' = registry s /\
        (includes e id = true \/
         (sdk_connect W (trace s) id = Some (SpawnThrew e) /\ s' = s)) /\
        ((mapGet (servers (registry s)) id = None /\ e = unknownServer id) \/
         exists server, mapGet (servers (registry s)) id = Some server /\
                        connectedClient server = None)
    | Ok c =>
        connected c = true /\
        exists server, mapGet (servers (registry s)) id = Some server /\
          ((connectedClient server = Some c /\ s' = s) \/
           (connectedClient server = None /\
            clientServerId c = id /\ clientSound c /\
            sdk_connect W (trace s) id = None /\
            registry s' = withServers
              (mapUpdate (servers (registry s)) id (withClient (Some c)))
              (registry s)))
    end.
Proof.
  intros H.
  destruct (mapGet (servers (registry s)) id) as [server|] eqn:Hg.
  - destruct (connectedClient server) as [c|] eqn:Hc.
    + rewrite (getClient_connected W _ _ Hg Hc) in H. injection H as <- <-.
      exists []. rewrite app_nil_r. repeat split; try (cbv; lia).
      * now apply connectedClient_Some in Hc.
      * exists server. auto.
    + rewrite (getClient_connecting W _ _ Hg Hc) in H.
      destruct (clientConnect W (newClient id (cfg_transport (config server))) (trace s))
        as [[r0 c] tr'] eqn:Ec.
      destruct (clientConnect_new W id _ _ Ec)
        as (evs & -> & Hn & Hf & Hcl & Hid & Hsound & Hr).
      exists evs. destruct r0 as [u|e]; injection H as <- <-; simpl;
        (split; [reflexivity|]); (split; [exact Hn|]);
        (split; [exact Hf|]); (split; [exact Hcl|]).
      * split; [apply Hr|].
        exists server. split; [reflexivity|]. right.
        destruct Hr as (_ & c0 & _ & Hw). repeat split; auto.
      * split; [reflexivity|]. split; [|right; exists server; auto].
        destruct (cfg_transport (config server)) as [c0|h].
        -- destruct Hr as [(m & Hw & -> & _)|(m & Hw & -> & ->)].
           ++ left. apply includes_connectFailed.
           ++ right. rewrite app_nil_r. split; [exact Hw|]. now destruct s.
        -- destruct Hr as [-> _]. left. apply includes_httpConnectFailed.
  - rewrite (getClient_unknown W _ _ Hg) in H. injection H as <- <-.
    exists []. rewrite app_nil_r. repeat split; try (cbv; lia).
    + left. apply includes_unknownServer.
    + left. auto.
Qed.

(** In a well-formed state the client handed out was built for [id] and is
    usable. *)
Lemma getClient_sound (W : World) id s c s' :
  wfState s -> getClient W id s = (Ok c, s') ->
  connected c = true /\ clientServerId c = id /\ clientSound c.
Proof.
  intros [_ Hwf] H. destruct (getClient_spec _ _ _ H) as (evs & _ & _ & _ & _ & Hc & server & Hg & Hcase).
  split; [assumption|].
  destruct Hcase as [[Hcc _]|(_ & Hid & Hs & _)]; [|auto].
  apply connectedClient_Some in Hcc. destruct Hcc as [Hcl _].
  apply (Hwf id server c); [now apply mapGet_In | assumption].
Qed.

(** ** [listTools] *)

Lemma listTools_unknown (W : World) id now s :
  mapGet (servers (registry s)) id = None ->
  listTools W id now s = (Err (unknownServer id), s).
Proof. intros H. unfold listTools, bind, getState, throw. now rewrite H. Qed.

Lemma listTools_hit (W : World) id now s server cached :
  mapGet (servers (registry s)) id = Some server ->
  freshTools (cacheTtlMs (registry s)) now server = Some cached ->
  listTools W id now s = (Ok cached, s).
Proof. intros H Hf. unfold listTools, bind, getState, ret. now rewrite H, Hf. Qed.

Lemma listTools_miss (W : World) id now s server :
  mapGet (servers (registry s)) id = Some server ->
  freshTools (cacheTtlMs (registry s)) now server = None ->
  listTools W id now s =
  match getClient W id s with
  | (Err e, s1) => (Err e, s1)
  | (Ok c, s1) =>
      match clientListTools W c (trace s1) with
      | (Err e, tr2) => (Err e, {| registry := registry s1; trace := tr2 |})
      | (Ok fetched, tr2) =>
          (Ok fetched,
           {| registry := withServers
                (mapUpdate (servers (registry s1)) id
                   (withCachedTools (Some {| tools := fetched; fetchedAt := now |})))
                (registry s1);
              trace := tr2 |})
      end
  end.
Proof.
  intros H Hf. unfold listTools at 1. unfold bind at 1. unfold getState at 1.
  rewrite H, Hf. unfold bind, awaitListTools, modifyServer, ret.
  destruct (getClient W id s) as [[c|e] s1]; [|reflexivity].
  destruct (clientListTools W c (trace s1)) as [[ts|e] tr2]; reflexivity.
Qed.

Lemma count_app_le (f : Event -> bool) (a b : list Event) n m :
  (List.length (filter f a) <= n)%nat -> (List.length (filter f b) <= m)%nat ->
  (List.length (filter f (a ++ b)) <= n + m)%nat.
Proof. intros. rewrite filter_app, length_app. lia. Qed.

Lemma count_app (f : Event -> bool) (a b : list Event) :
  List.length (filter f (a ++ b)) =
  (List.length (filter f a) + List.length (filter f b))%nat.
Proof. now rewrite filter_app, length_app. Qed.

Lemma mapGet_update_same (m : JsMap RegisteredServer) id f server :
  mapGet m id = Some server -> mapGet (mapUpdate m id f) id = Some (f server).
Proof. intros H. now rewrite mapGet_mapUpdate, String.eqb_refl, H. Qed.

(** What [getClient] leaves of the table: the same rows, of which only the
    client of [id] may differ. *)
Lemma getClient_frame (W : World) id s r s' :
  getClient W id s = (r, s') ->
  cacheTtlMs (registry s') = cacheTtlMs (registry s) /\
  configs (registry s') = configs (registry s) /\
  snapshots (registry s') = snapshots (registry s) /\
  forall server, mapGet (servers (registry s)) id = Some server ->
    exists server', mapGet (servers (registry s')) id = Some server' /\
                    cachedTools server' = cachedTools server.
Proof.
  intros H. destruct (getClient_spec _ _ _ H) as (evs & _ & _ & _ & _ & Hr).
  destruct r as [c|e].
  - destruct Hr as (_ & server & Hg & [[_ ->]|(_ & _ & _ & _ & ->)]).
    + repeat split. intros sv Hsv. exists sv. auto.
    + rewrite snapshots_withClient, configs_mapUpdate, withServers_same by reflexivity.
      repeat split. intros sv Hsv. simpl.
      rewrite (mapGet_update_same _ _ _ Hsv). eexists. split; reflexivity.
  - destruct Hr as (-> & _). repeat split. intros sv Hsv. exists sv. auto.
Qed.

(** The outcomes of [listTools]: at most one connection and one listing are
    asked for; configuration and TTL stay; an error keeps every snapshot; a
    success is either the fresh snapshot (nothing at all changes) or a
    listing just fetched and stored under the time of the call. *)
Lemma listTools_spec (W : World) id now s r s' :
  listTools W id now s = (r, s') ->
  exists evs, trace s' = trace s ++ evs /\
    (connectCount evs <= 1)%nat /\ (fetchCount evs <= 1)%nat /\ callCount evs = 0%nat /\
    cacheTtlMs (registry s') = cacheTtlMs (registry s) /\
    configs (registry s') = configs (registry s) /\
    match r with
    | Err e => snapshots (registry s') = snapshots (registry s)
    | Ok ts =>
        exists server, mapGet (servers (registry s)) id = Some server /\
          ((freshTools (cacheTtlMs (registry s)) now server = Some ts /\ s' = s) \/
           (freshTools (cacheTtlMs (registry s)) now server = None /\
            fetchCount evs = 1%nat /\
            exists server', mapGet (servers (registry s')) id = Some server' /\
              cachedTools server' = Some {| tools := ts; fetchedAt := now |}))
    end.
Proof.
  intros H.
  destruct (mapGet (servers (registry s)) id) as [server|] eqn:Hg.
  2:{ rewrite (listTools_unknown W _ _ _ Hg) in H. injection H as <- <-.
      exists []. rewrite app_nil_r. repeat split; cbv; lia. }
  destruct (freshTools (cacheTtlMs (registry s)) now server) as [cached|] eqn:Hf.
  { rewrite (listTools_hit W _ _ _ Hg Hf) in H. injection H as <- <-.
    exists []. rewrite app_nil_r. repeat split; try (cbv; lia).
    exists server. auto. }
  rewrite (listTools_miss W _ _ _ Hg Hf) in H.
  destruct (getClient W id s) as [[c|e] s1] eqn:Hc.
  - destruct (getClient_spec _ _ _ Hc) as (evs1 & Ht1 & Hn1 & Hf1 & Hc1 & _).
    destruct (getClient_frame _ _ _ Hc) as (Httl & Hcfg & Hsnap & Hrow).
    destruct (Hrow _ Hg) as (server1 & Hg1 & _).
    destruct (clientListTools W c (trace s1)) as [r2 tr2] eqn:Hl.
    destruct (clientListTools_spec _ _ _ Hl) as (evs2 & -> & Hf2 & Hn2 & Hc2 & Hr2).
    exists (evs1 ++ evs2).
    unfold connectCount, fetchCount, callCount in *. rewrite !count_app.
    destruct r2 as [ts|e]; injection H as <- <-; simpl;
      (split; [now rewrite Ht1, <- app_assoc|]);
      (split; [lia|]); (split; [lia|]); (split; [lia|]).
    + rewrite configs_mapUpdate, withServers_same by reflexivity.
      repeat split; auto.
      exists server. split; [reflexivity|]. right. split; [exact Hf|].
      destruct Hr2 as (_ & ->). split; [simpl; lia|].
      rewrite (mapGet_update_same _ _ _ Hg1). eexists. split; reflexivity.
    + auto.
  - destruct (getClient_spec _ _ _ Hc) as (evs1 & Ht1 & Hn1 & Hf1 & Hc1 & Hreg & _).
    injection H as <- <-. exists evs1. rewrite Hreg.
    repeat split; auto. lia.
Qed.

(** With an upstream that accepts the connection and answers the listing,
    a call that finds no fresh snapshot succeeds with the listing. *)
Lemma listTools_fetches (W : World) id now s server c0 ts :
  wfState s ->
  mapGet (servers (registry s)) id = Some server ->
  freshTools (cacheTtlMs (registry s)) now server = None ->
  cfg_transport (config server) = TStdio c0 ->
  (forall tr, sdk_connect W tr id = None) ->
  (forall tr, sdk_listTools W tr id = Ok ts) ->
  fst (listTools W id now s) = Ok ts.
Proof.
  intros Hwf Hg Hf Ht Hconn Hlist. rewrite (listTools_miss W _ _ _ Hg Hf).
  destruct (connectedClient server) as [c|] eqn:Hc.
  - pose proof (getClient_connected W _ _ Hg Hc) as Hgc. rewrite Hgc.
    destruct (getClient_sound _ _ Hwf Hgc) as (Hcon & Hid & Hsound).
    rewrite (clientListTools_connected W _ _ Hcon Hsound), Hid, Hlist. reflexivity.
  - rewrite (getClient_connecting W _ _ Hg Hc), Ht. simpl.
    unfold stdioConnect. simpl. rewrite Hconn. simpl.
    unfold stdioListTools. simpl. rewrite Hlist. simpl.
    now rewrite copyTool_id.
Qed.

(** C1. Within the TTL window the cached sequence is returned and nothing
    else happens: the state, and with it the record of requests to the
    client, is the same after the call.  Hence two calls in a row, the second
    less than a TTL after the first one returned its tools, ask the client to
    list at most once.  A call that finds no snapshot, or one whose age has
    reached the TTL, does not answer from the snapshot: if it returns tools,
    it has asked the client exactly once and has stored these tools under
    the time of the call; and with an upstream that accepts connections and
    answers listings, it does return them, whatever the snapshot held. *)
Theorem C1_listTools_uses_the_cache_within_ttl
    (W : World) (id : string) (now : Z) (s : State) (server : RegisteredServer) :
  mapGet (servers (registry s)) id = Some server ->
  (forall cached,
      cachedTools server = Some cached ->
      (now - fetchedAt cached < cacheTtlMs (registry s))%Z ->
      listTools W id now s = (Ok (tools cached), s)) /\
  (forall now2 ts1 s1 r2 s2,
      listTools W id now s = (Ok ts1, s1) ->
      listTools W id now2 s1 = (r2, s2) ->
      (now2 - now < cacheTtlMs (registry s))%Z ->
      (fetchCount (trace s2) <= fetchCount (trace s) + 1)%nat) /\
  (cachedTools server = None \/
   (exists cached, cachedTools server = Some cached /\
                   (cacheTtlMs (registry s) <= now - fetchedAt cached)%Z) ->
   (forall ts s1,
       listTools W id now s = (Ok ts, s1) ->
       fetchCount (trace s1) = (fetchCount (trace s) + 1)%nat /\
       exists server1, mapGet (servers (registry s1)) id = Some server1 /\
         cachedTools server1 = Some {| tools := ts; fetchedAt := now |}) /\
   (forall c0 ts,
       wfState s ->
       cfg_transport (config server) = TStdio c0 ->
       (forall tr, sdk_connect W tr id = None) ->
       (forall tr, sdk_listTools W tr id = Ok ts) ->
       exists s1 server1,
         listTools W id now s = (Ok ts, s1) /\
         fetchCount (trace s1) = (fetchCount (trace s) + 1)%nat /\
         mapGet (servers (registry s1)) id = Some server1 /\
         cachedTools server1 = Some {| tools := ts; fetchedAt := now |})).
Proof.
  intros Hg. split; [|split].
  - intros cached Hc Hlt. apply (listTools_hit W _ _ _ Hg).
    unfold freshTools. rewrite Hc. apply Z.ltb_lt in Hlt. now rewrite Hlt.
  - intros now2 ts1 s1 r2 s2 H1 H2 Hlt.
    destruct (listTools_spec _ _ _ _ H1)
      as (evs1 & Ht1 & _ & Hf1 & _ & Httl & _ & sv & Hsv & Hcase).
    destruct (listTools_spec _ _ _ _ H2) as (evs2 & Ht2 & _ & Hf2 & _).
    destruct Hcase as [[_ ->]|(_ & Hone & server1 & Hg1 & Hc1)].
    + rewrite Ht2. unfold fetchCount in *. rewrite count_app. lia.
    + assert (Hhit : listTools W id now2 s1 = (Ok ts1, s1)).
      { apply (listTools_hit W _ _ _ Hg1). unfold freshTools. rewrite Hc1. simpl.
        rewrite Httl. apply Z.ltb_lt in Hlt. now rewrite Hlt. }
      rewrite Hhit in H2. injection H2 as <- <-.
      rewrite Ht1. unfold fetchCount in *. rewrite count_app. lia.
  - intros Hold.
    assert (Hf : freshTools (cacheTtlMs (registry s)) now server = None).
    { unfold freshTools. destruct Hold as [->|(cached & -> & Hge)]; [reflexivity|].
      apply Z.ltb_ge in Hge. now rewrite Hge. }
    assert (Hfetch : forall ts s1,
              listTools W id now s = (Ok ts, s1) ->
              fetchCount (trace s1) = (fetchCount (trace s) + 1)%nat /\
              exists server1, mapGet (servers (registry s1)) id = Some server1 /\
                cachedTools server1 = Some {| tools := ts; fetchedAt := now |}).
    { intros ts s1 H1.
      destruct (listTools_spec _ _ _ _ H1)
        as (evs1 & Ht1 & _ & _ & _ & _ & _ & sv & Hsv & Hcase).
      rewrite Hg in Hsv. injection Hsv as <-.
      destruct Hcase as [[Hfresh _]|(_ & Hone & Hrow)]; [congruence|].
      split; [|assumption].
      rewrite Ht1. unfold fetchCount in *. rewrite count_app. lia. }
    split; [exact Hfetch|].
    intros c0 ts Hwf Ht Hconn Hlist.
    pose proof (listTools_fetches W _ _ Hwf Hg Hf Ht Hconn Hlist) as Hok.
    destruct (listTools W id now s) as [r s1] eqn:E. simpl in Hok. subst r.
    destruct (Hfetch ts s1 eq_refl) as (Hcount & server1 & Hg1 & Hc1).
    exists s1, server1. auto.
Qed.

(** ** Failures: C3 and C4 *)

(** C3. A failed [getClient] leaves the registry exactly as it was, so no
    client is stored by it, and the upstream can be tried again: as soon as
    the upstream accepts a connection, the next [getClient] connects and
    stores the client.  A failed [listTools] writes no snapshot and leaves
    every stored snapshot, expired or not, where it was. *)
Theorem C3_errors_keep_the_registry (W : World) (id : string) (s : State) :
  (forall e s',
      getClient W id s = (Err e, s') ->
      registry s' = registry s /\
      forall server c0,
        mapGet (servers (registry s)) id = Some server ->
        cfg_transport (config server) = TStdio c0 ->
        sdk_connect W (trace s') id = None ->
        exists c s'' server'',
          getClient W id s' = (Ok c, s'') /\
          mapGet (servers (registry s'')) id = Some server'' /\
          client server'' = Some c /\ connected c = true) /\
  (forall now e s',
      listTools W id now s = (Err e, s') ->
      snapshots (registry s') = snapshots (registry s)).
Proof.
  split.
  - intros e s' H.
    destruct (getClient_spec _ _ _ H) as (evs & _ & _ & _ & _ & Hreg & _ & Hwhy).
    split; [assumption|]. intros server c0 Hg Ht Hw.
    destruct Hwhy as [[Hn _]|(sv & Hsv & Hcc)]; [congruence|].
    rewrite Hg in Hsv. injection Hsv as <-.
    assert (Hg' : mapGet (servers (registry s')) id = Some server) by now rewrite Hreg.
    rewrite (getClient_connecting W _ _ Hg' Hcc), Ht. simpl.
    unfold stdioConnect. simpl. rewrite Hw.
    do 3 eexists. split; [reflexivity|]. simpl.
    rewrite (mapGet_update_same _ _ _ Hg'). repeat split.
  - intros now e s' H.
    destruct (listTools_spec _ _ _ _ H) as (evs & _ & _ & _ & _ & _ & _ & Hsnap).
    exact Hsnap.
Qed.

Lemma clientCallTool_connected (W : World) (c : McpClient) n a (tr : list Event) :
  connected c = true -> clientSound c ->
  forall e tr', clientCallTool W c n a tr = (Err e, tr') ->
  sdk_callTool W tr (clientServerId c) n a = Err e.
Proof.
  destruct c as [c|c]; simpl; intros Hc Hs e tr'.
  - unfold stdioCallTool. rewrite Hc, (Hs Hc). simpl.
    destruct (sdk_callTool W tr (stdio_serverId c) n a); [discriminate|].
    now intros [= -> _].
  - congruence.
Qed.

Lemma callTool_unfold (W : World) id n a s :
  callTool W id n a s =
  match getClient W id s with
  | (Ok c, s1) =>
      let (r, tr') := clientCallTool W c n a (trace s1) in
      (r, {| registry := registry s1; trace := tr' |})
  | (Err e, s1) => (Err e, s1)
  end.
Proof.
  unfold callTool, bind, awaitCallTool.
  destruct (getClient W id s) as [[c|e] s1]; reflexivity.
Qed.

(** Why [getClient] fails, and what it leaves: the id is not registered;
    or the upstream has the HTTP transport; or [Client.connect] rejected,
    and the client was closed again; or [spawn] threw. *)
Lemma getClient_error (W : World) id s e s' :
  getClient W id s = (Err e, s') ->
  (mapGet (servers (registry s)) id = None /\ e = unknownServer id /\ s' = s) \/
  exists server,
    mapGet (servers (registry s)) id = Some server /\
    connectedClient server = None /\
    match cfg_transport (config server) with
    | THttp h => e = httpConnectFailed id (url h) /\ s' = s
    | TStdio _ =>
        (exists m, sdk_connect W (trace s) id = Some (ConnectRejected m) /\
           e = connectFailed id m /\
           s' = {| registry := registry s;
                   trace := trace s ++ [EvConnect id; EvClose id] |}) \/
        (sdk_connect W (trace s) id = Some (SpawnThrew e) /\ s' = s)
    end.
Proof.
  intros H.
  destruct (mapGet (servers (registry s)) id) as [server|] eqn:Hg.
  2:{ rewrite (getClient_unknown W _ _ Hg) in H. injection H as <- <-. left. auto. }
  right. exists server. split; [reflexivity|].
  destruct (connectedClient server) as [c|] eqn:Hc.
  { rewrite (getClient_connected W _ _ Hg Hc) in H. discriminate. }
  split; [reflexivity|].
  rewrite (getClient_connecting W _ _ Hg Hc) in H.
  destruct (cfg_transport (config server)) as [c0|h]; simpl in H.
  - unfold stdioConnect in H. simpl in H.
    destruct (sdk_connect W (trace s) id) as [[m|m]|]; simpl in H;
      [| |discriminate]; injection H as <- <-.
    + right. split; [reflexivity | now destruct s].
    + left. exists m. rewrite <- app_assoc. auto.
  - injection H as <- <-. split; [reflexivity | now destruct s].
Qed.

(** A [listTools] that fails has failed in [getClient], or [getClient]
    handed out a client and the SDK refused the one listing asked of it:
    its message is the error, as it came. *)
Lemma listTools_error (W : World) id now s e s' :
  wfState s -> listTools W id now s = (Err e, s') ->
  getClient W id s = (Err e, s') \/
  exists c s1,
    getClient W id s = (Ok c, s1) /\
    sdk_listTools W (trace s1) id = Err e /\
    s' = {| registry := registry s1; trace := trace s1 ++ [EvListTools id] |}.
Proof.
  intros Hwf H.
  destruct (mapGet (servers (registry s)) id) as [server|] eqn:Hg.
  2:{ rewrite (listTools_unknown W _ _ _ Hg) in H.
      injection H as <- <-. left. apply (getClient_unknown W _ _ Hg). }
  destruct (freshTools (cacheTtlMs (registry s)) now server) as [cached|] eqn:Hf.
  { rewrite (listTools_hit W _ _ _ Hg Hf) in H. discriminate. }
  rewrite (listTools_miss W _ _ _ Hg Hf) in H.
  destruct (getClient W id s) as [[c|e1] s1] eqn:Hc;
    [|injection H as <- <-; now left].
  right. exists c, s1. split; [reflexivity|].
  destruct (getClient_sound _ _ Hwf Hc) as (Hcon & Hid & Hsound).
  rewrite (clientListTools_connected W _ _ Hcon Hsound), Hid in H.
  destruct (sdk_listTools W (trace s1) id) eqn:E; [discriminate|].
  injection H as <- <-. auto.
Qed.

Lemma callTool_error (W : World) id n a s e s' :
  wfState s -> callTool W id n a s = (Err e, s') ->
  getClient W id s = (Err e, s') \/
  exists c s1,
    getClient W id s = (Ok c, s1) /\
    sdk_callTool W (trace s1) id n a = Err e /\
    s' = {| registry := registry s1; trace := trace s1 ++ [EvCallTool id n a] |}.
Proof.
  intros Hwf. rewrite callTool_unfold.
  destruct (getClient W id s) as [[c|e1] s1] eqn:Hc;
    [|intros [= <- <-]; now left].
  intros H. right. exists c, s1. split; [reflexivity|].
  destruct (getClient_sound _ _ Hwf Hc) as (Hcon & Hid & Hsound).
  destruct c as [c|c]; simpl in *; [|congruence].
  unfold stdioCallTool in H. rewrite Hcon, (Hsound Hcon), Hid in H. simpl in H.
  destruct (sdk_callTool W (trace s1) id n a); [discriminate|].
  injection H as <- <-. auto.
Qed.

Lemma callTool_spec (W : World) id n a s r s' :
  callTool W id n a s = (r, s') ->
  exists evs, trace s' = trace s ++ evs /\
    (connectCount evs <= 1)%nat /\ fetchCount evs = 0%nat /\ (callCount evs <= 1)%nat /\
    snapshots (registry s') = snapshots (registry s).
Proof.
  rewrite callTool_unfold. intros H.
  destruct (getClient W id s) as [[c|e1] s1] eqn:Hc.
  - destruct (getClient_spec _ _ _ Hc) as (evs1 & Ht1 & Hn1 & Hf1 & Hc1 & _).
    destruct (getClient_frame _ _ _ Hc) as (_ & _ & Hsnap & _).
    destruct (clientCallTool W c n a (trace s1)) as [r2 tr2] eqn:Hl.
    destruct (clientCallTool_spec _ _ _ _ _ Hl) as (evs2 & -> & Hc2 & Hn2 & Hf2 & _).
    injection H as <- <-. exists (evs1 ++ evs2). simpl.
    unfold connectCount, fetchCount, callCount in *. rewrite !count_app.
    split; [now rewrite Ht1, <- app_assoc|].
    repeat split; try lia; auto.
  - injection H as <- <-.
    destruct (getClient_spec _ _ _ Hc) as (evs1 & Ht1 & Hn1 & Hf1 & Hc1 & Hreg & _).
    exists evs1. rewrite Hreg. repeat split; auto; try lia.
Qed.

(** C4 as stated fails: the upstream [server1] connects and then refuses to
    list, or to call, with the message [boom]; the caller of [listTools] and
    of [callTool] receives [boom] as it is, without the upstream id. *)
Lemma C4_list_error_is_not_wrapped :
  fst (listTools (brokenWorld "boom") "server1" 0 (initialState testConfig))
    = Err "boom" /\
  fst (callTool (brokenWorld "boom") "server1" "add" "{}" (initialState testConfig))
    = Err "boom" /\
  includes "boom" "server1" = false.
Proof. repeat split; vm_compute; reflexivity. Qed.

(** What [spawn] throws reaches the caller of [getClient], [listTools] and
    [callTool] as it is, and nothing has changed then. *)
Example spawn_error_is_not_wrapped :
  let W := spawnFailsWorld emptyCommandMessage in
  let s := initialState emptyCommandConfig in
  getClient W "server1" s = (Err emptyCommandMessage, s) /\
  listTools W "server1" 0 s = (Err emptyCommandMessage, s) /\
  callTool W "server1" "add" "{}" s = (Err emptyCommandMessage, s) /\
  includes emptyCommandMessage "server1" = false.
Proof. repeat split; vm_compute; reflexivity. Qed.

(** C4, amended.  An error of the SDK reaches the immediate caller, and
    only a rejected [Client.connect] is wrapped on the way: [getClient]
    then throws the SDK's message behind the prefix that names the upstream
    id, after closing the client.  A rejected [Client.listTools] or
    [Client.callTool] is not wrapped: the error of [listTools] or [callTool]
    is the very message the SDK answered to the one request made, right
    after [getClient] handed out the client; and whenever [listTools] or
    [callTool] fails, it fails either so or with the error and the state
    [getClient] failed with.  The errors of [getClient] are listed by
    cause: the id is not registered, the transport is HTTP, [Client.connect]
    rejected, or [spawn] threw, whose message is not wrapped either.  No
    operation retries: each asks for at most one connection and at most one
    listing or call. *)
Theorem C4_errors_reach_the_caller
    (W : World) (id : string) (s : State) :
  wfState s ->
  (forall e s', getClient W id s = (Err e, s') ->
     (mapGet (servers (registry s)) id = None /\ e = unknownServer id /\ s' = s) \/
     exists server,
       mapGet (servers (registry s)) id = Some server /\
       connectedClient server = None /\
       match cfg_transport (config server) with
       | THttp h => e = httpConnectFailed id (url h) /\ s' = s
       | TStdio _ =>
           (exists m, sdk_connect W (trace s) id = Some (ConnectRejected m) /\
              e = connectFailed id m /\
              s' = {| registry := registry s;
                      trace := trace s ++ [EvConnect id; EvClose id] |}) \/
           (sdk_connect W (trace s) id = Some (SpawnThrew e) /\ s' = s)
       end) /\
  (forall server c0 m,
     mapGet (servers (registry s)) id = Some server ->
     connectedClient server = None ->
     cfg_transport (config server) = TStdio c0 ->
     sdk_connect W (trace s) id = Some (ConnectRejected m) ->
     getClient W id s =
       (Err (connectFailed id m),
        {| registry := registry s; trace := trace s ++ [EvConnect id; EvClose id] |}) /\
     includes (connectFailed id m) id = true /\
     exists before, connectFailed id m = (before ++ m)%string) /\
  (forall now e s', listTools W id now s = (Err e, s') ->
     getClient W id s = (Err e, s') \/
     exists c s1,
       getClient W id s = (Ok c, s1) /\
       sdk_listTools W (trace s1) id = Err e /\
       s' = {| registry := registry s1; trace := trace s1 ++ [EvListTools id] |}) /\
  (forall now server c s1 e,
     mapGet (servers (registry s)) id = Some server ->
     freshTools (cacheTtlMs (registry s)) now server = None ->
     getClient W id s = (Ok c, s1) ->
     sdk_listTools W (trace s1) id = Err e ->
     listTools W id now s =
       (Err e, {| registry := registry s1; trace := trace s1 ++ [EvListTools id] |})) /\
  (forall n a e s', callTool W id n a s = (Err e, s') ->
     getClient W id s = (Err e, s') \/
     exists c s1,
       getClient W id s = (Ok c, s1) /\
       sdk_callTool W (trace s1) id n a = Err e /\
       s' = {| registry := registry s1; trace := trace s1 ++ [EvCallTool id n a] |}) /\
  (forall n a c s1 e,
     getClient W id s = (Ok c, s1) ->
     sdk_callTool W (trace s1) id n a = Err e ->
     callTool W id n a s =
       (Err e, {| registry := registry s1;
                  trace := trace s1 ++ [EvCallTool id n a] |})) /\
  (forall r s', getClient W id s = (r, s') ->
     exists evs, trace s' = trace s ++ evs /\
       (connectCount evs <= 1)%nat /\ fetchCount evs = 0%nat /\ callCount evs = 0%nat) /\
  (forall now r s', listTools W id now s = (r, s') ->
     exists evs, trace s' = trace s ++ evs /\
       (connectCount evs <= 1)%nat /\ (fetchCount evs <= 1)%nat /\ callCount evs = 0%nat) /\
  (forall n a r s', callTool W id n a s = (r, s') ->
     exists evs, trace s' = trace s ++ evs /\
       (connectCount evs <= 1)%nat /\ fetchCount evs = 0%nat /\ (callCount evs <= 1)%nat).
Proof.
  intros Hwf.
  split; [intros e s' H; exact (getClient_error _ _ _ H)|].
  split.
  { intros server c0 m Hg Hcc Ht Hw.
    rewrite (getClient_connecting W _ _ Hg Hcc), Ht. simpl.
    unfold stdioConnect. simpl. rewrite Hw. simpl. rewrite <- app_assoc.
    split; [reflexivity|]. split; [apply includes_connectFailed|].
    exists ("Failed to connect to server " ++ quoted id ++ ": ")%string.
    unfold connectFailed. now rewrite !append_assoc. }
  split; [intros now e s' H; exact (listTools_error _ _ _ Hwf H)|].
  split.
  { intros now server c s1 e Hg Hf Hc Hl.
    rewrite (listTools_miss W _ _ _ Hg Hf), Hc.
    destruct (getClient_sound _ _ Hwf Hc) as (Hcon & Hid & Hsound).
    now rewrite (clientListTools_connected W _ _ Hcon Hsound), Hid, Hl. }
  split; [intros n a e s' H; exact (callTool_error _ _ _ _ Hwf H)|].
  split.
  { intros n a c s1 e Hc Hl. rewrite callTool_unfold, Hc.
    destruct (getClient_sound _ _ Hwf Hc) as (Hcon & Hid & Hsound).
    destruct c as [c|c]; simpl in *; [|congruence].
    unfold stdioCallTool. rewrite Hcon, (Hsound Hcon), Hid. simpl.
    now rewrite Hl. }
  split.
  { intros r s' H.
    destruct (getClient_spec _ _ _ H) as (evs & Ht & Hn & Hf & Hc & _). eauto. }
  split.
  { intros now r s' H.
    destruct (listTools_spec _ _ _ _ H) as (evs & Ht & Hn & Hf & Hc & _). eauto. }
  intros n a r s' H.
  destruct (callTool_spec _ _ _ _ _ H) as (evs & Ht & Hn & Hf & Hc & _). eauto 6.
Qed.

(** ** Shutdown and invalidation: C8 and C9 *)

Lemma withClient_None_same (server : RegisteredServer) :
  client server = None -> withClient None server = server.
Proof. destruct server as [cf cl ca]. simpl. now intros ->. Qed.

Lemma closeEach_servers (m : JsMap RegisteredServer) : forall tr,
  fst (closeEach m tr) = map (fun e => (fst e, withClient None (snd e))) m.
Proof.
  induction m as [|[k server] m IH]; intros tr; simpl; [reflexivity|].
  destruct (client server) as [c|] eqn:Ec.
  - destruct (clientClose c tr) as [c' tr1].
    specialize (IH tr1). destruct (closeEach m tr1) as [rest tr2]. simpl in *.
    now rewrite IH.
  - specialize (IH tr). destruct (closeEach m tr) as [rest tr2]. simpl in *.
    now rewrite IH, withClient_None_same.
Qed.

Lemma closeAll_registry (s : State) :
  fst (closeAll s) = Ok tt /\
  servers (registry (snd (closeAll s))) =
    map (fun e => (fst e, withClient None (snd e))) (servers (registry s)) /\
  cacheTtlMs (registry (snd (closeAll s))) = cacheTtlMs (registry s).
Proof.
  unfold closeAll. pose proof (closeEach_servers (servers (registry s)) (trace s)) as H.
  destruct (closeEach (servers (registry s)) (trace s)) as [m' tr']. simpl in *.
  now rewrite H.
Qed.

Lemma mapGet_map {A B} (f : A -> B) (m : JsMap A) k :
  mapGet (map (fun e => (fst e, f (snd e))) m) k = option_map f (mapGet m k).
Proof.
  induction m as [|[k' v] m IH]; simpl; [reflexivity|].
  destruct (String.eqb k' k); [reflexivity | assumption].
Qed.

(** C8. [closeAll] always succeeds and touches only the client column:
    configurations, snapshots and the TTL are as before, and every client
    reference is cleared.  A [listTools] issued afterwards inside the TTL
    window of a snapshot returns the snapshot's tools and changes nothing,
    so no connection is opened for it. *)
Theorem C8_closeAll_keeps_the_cache
    (W : World) (id : string) (now : Z) (s : State)
    (server : RegisteredServer) (cached : CachedTools) :
  mapGet (servers (registry s)) id = Some server ->
  cachedTools server = Some cached ->
  (now - fetchedAt cached < cacheTtlMs (registry s))%Z ->
  exists s',
    closeAll s = (Ok tt, s') /\
    configs (registry s') = configs (registry s) /\
    snapshots (registry s') = snapshots (registry s) /\
    cacheTtlMs (registry s') = cacheTtlMs (registry s) /\
    getServerIds (registry s') = getServerIds (registry s) /\
    (forall k c, In (k, c) (clients (registry s')) -> c = None) /\
    listTools W id now s' = (Ok (tools cached), s').
Proof.
  intros Hg Hc Hlt. destruct (closeAll_registry s) as (Hok & Hm & Httl).
  exists (snd (closeAll s)).
  split; [destruct (closeAll s) as [r s']; simpl in *; now subst|].
  unfold configs, snapshots, clients, getServerIds, mapKeys. rewrite Hm, !map_map. simpl.
  repeat split; auto.
  - intros k c Hin. apply in_map_iff in Hin. now destruct Hin as (x & [= _ <-] & _).
  - apply listTools_hit with (server := withClient None server).
    + now rewrite Hm, mapGet_map, Hg.
    + unfold freshTools. simpl. rewrite Hc, Httl.
      apply Z.ltb_lt in Hlt. now rewrite Hlt.
Qed.

(** For an id that is not registered and not empty, [invalidateCache]
    changes nothing, while the three suspending operations fail. *)
Lemma invalidateCache_unregistered (W : World) (id : string) (s : State) :
  hasServer (registry s) id = false ->
  id <> EmptyString ->
  invalidateCache (Some id) s = s /\
  getClient W id s = (Err (unknownServer id), s) /\
  (forall now, listTools W id now s = (Err (unknownServer id), s)) /\
  (forall n a, callTool W id n a s = (Err (unknownServer id), s)).
Proof.
  unfold hasServer, mapHas. intros Hh Hne.
  destruct (mapGet (servers (registry s)) id) eqn:Hg; [discriminate|].
  repeat split.
  - unfold invalidateCache. rewrite Hg. destruct id; [congruence | reflexivity].
  - now apply getClient_unknown.
  - intros now. now apply listTools_unknown.
  - intros n a. rewrite callTool_unfold. now rewrite (getClient_unknown W _ _ Hg).
Qed.

(** With a registered, non-empty id only the snapshot of that id goes;
    without an id all snapshots go. *)
Lemma invalidateCache_registered (id : string) (s : State) (server : RegisteredServer) :
  mapGet (servers (registry s)) id = Some server ->
  id <> EmptyString ->
  let s' := invalidateCache (Some id) s in
  mapGet (servers (registry s')) id = Some (withCachedTools None server) /\
  (forall k, k <> id ->
     mapGet (servers (registry s')) k = mapGet (servers (registry s)) k) /\
  clients (registry s') = clients (registry s) /\
  trace s' = trace s.
Proof.
  intros Hg Hne. unfold invalidateCache. rewrite Hg.
  destruct id as [|a id]; [congruence|]. simpl.
  rewrite (mapGet_update_same _ _ _ Hg). repeat split.
  - intros k Hk. rewrite mapGet_mapUpdate.
    destruct (String.eqb (String a id) k) eqn:E; [|reflexivity].
    apply String.eqb_eq in E. congruence.
  - apply clients_withCachedTools.
Qed.

Lemma invalidateCache_all (s : State) :
  forall k c, In (k, c) (snapshots (registry (invalidateCache None s))) -> c = None.
Proof.
  intros k c. unfold snapshots. simpl. rewrite map_map. simpl.
  intros Hin. apply in_map_iff in Hin. now destruct Hin as (x & [= _ <-] & _).
Qed.

(** C9, at the input where the code departs from it: the empty string is
    not a registered id of [cachedState], whose upstream [server1] holds a
    snapshot; [invalidateCache] called with it takes the branch for a
    missing argument and discards that snapshot. *)
Theorem C9_empty_id_discards_every_snapshot :
  hasServer (registry cachedState) EmptyString = false /\
  snapshots (registry cachedState)
    = [("server1", Some {| tools := weatherTools; fetchedAt := 1000 |})] /\
  snapshots (registry (invalidateCache (Some EmptyString) cachedState))
    = [("server1", None)] /\
  invalidateCache (Some EmptyString) cachedState <> cachedState.
Proof.
  repeat split; try reflexivity. intros H.
  apply (f_equal (fun s => snapshots (registry s))) in H. discriminate H.
Qed.

(** ** Aggregate listing: C2 *)

Lemma getClient_rows (W : World) id s r s' :
  getClient W id s = (r, s') ->
  forall k, k <> id ->
  mapGet (servers (registry s')) k = mapGet (servers (registry s)) k.
Proof.
  intros H k Hk. destruct (getClient_spec _ _ _ H) as (evs & _ & _ & _ & _ & Hr).
  destruct r as [c|e].
  - destruct Hr as (_ & server & _ & [[_ ->]|(_ & _ & _ & _ & ->)]); [reflexivity|].
    simpl. rewrite mapGet_mapUpdate.
    destruct (String.eqb id k) eqn:E; [|reflexivity].
    apply String.eqb_eq in E. congruence.
  - destruct Hr as (-> & _). reflexivity.
Qed.

(** A listing for one id leaves the rows of all other ids untouched. *)
Lemma listTools_rows (W : World) id now s r s' :
  listTools W id now s = (r, s') ->
  forall k, k <> id ->
  mapGet (servers (registry s')) k = mapGet (servers (registry s)) k.
Proof.
  intros H k Hk.
  destruct (mapGet (servers (registry s)) id) as [server|] eqn:Hg.
  2:{ rewrite (listTools_unknown W _ _ _ Hg) in H. now injection H as <- <-. }
  destruct (freshTools (cacheTtlMs (registry s)) now server) as [cached|] eqn:Hf.
  { rewrite (listTools_hit W _ _ _ Hg Hf) in H. now injection H as <- <-. }
  rewrite (listTools_miss W _ _ _ Hg Hf) in H.
  destruct (getClient W id s) as [[c|e] s1] eqn:Hc.
  - assert (Hrow : mapGet (servers (registry s1)) k = mapGet (servers (registry s)) k)
      by (eapply getClient_rows; eassumption).
    destruct (clientListTools W c (trace s1)) as [[ts|e] tr2];
      injection H as <- <-; simpl; [|assumption].
    rewrite mapGet_mapUpdate.
    destruct (String.eqb id k) eqn:E; [|assumption].
    apply String.eqb_eq in E. congruence.
  - injection H as <- <-. eapply getClient_rows; eassumption.
Qed.

Lemma listTools_keys (W : World) id now s :
  getServerIds (registry (snd (listTools W id now s))) = getServerIds (registry s).
Proof.
  destruct (listTools W id now s) as [r s'] eqn:H. simpl.
  destruct (listTools_spec _ _ _ _ H) as (_ & _ & _ & _ & _ & _ & Hcfg & _).
  apply (f_equal (map fst)) in Hcfg. unfold configs in Hcfg.
  rewrite !map_map in Hcfg. exact Hcfg.
Qed.

Lemma listToolsOrEmpty_total (W : World) now id s :
  listToolsOrEmpty W now id s =
  (Ok (id, toolsOrEmpty (fst (listTools W id (now id) s))),
   snd (listTools W id (now id) s)).
Proof.
  unfold listToolsOrEmpty, tryCatch, bind, ret.
  destruct (listTools W id (now id) s) as [[ts|e] s']; reflexivity.
Qed.

Lemma forEachM_collected (W : World) now ids : forall s,
  forEachM (listToolsOrEmpty W now) ids s =
  (Ok (collected W now ids s), stateAfter W now ids s).
Proof.
  induction ids as [|id ids IH]; intros s; simpl; [reflexivity|].
  unfold bind at 1. rewrite listToolsOrEmpty_total.
  unfold bind at 1. rewrite IH. reflexivity.
Qed.

Lemma collected_keys (W : World) now ids : forall s,
  mapKeys (collected W now ids s) = ids.
Proof.
  induction ids as [|id ids IH]; intros s; simpl; [reflexivity|].
  f_equal. apply IH.
Qed.

Lemma collected_get (W : World) now l1 id l2 : forall s,
  ~ In id l1 ->
  mapGet (collected W now (l1 ++ id :: l2) s) id =
  Some (toolsOrEmpty (fst (listTools W id (now id) (stateAfter W now l1 s)))).
Proof.
  induction l1 as [|k l1 IH]; intros s Hn; simpl.
  - now rewrite String.eqb_refl.
  - destruct (String.eqb k id) eqn:E.
    + apply String.eqb_eq in E. subst. exfalso. apply Hn. now left.
    + apply IH. intros Hin. apply Hn. now right.
Qed.

Lemma stateAfter_rows (W : World) now l1 id : forall s,
  ~ In id l1 ->
  mapGet (servers (registry (stateAfter W now l1 s))) id
  = mapGet (servers (registry s)) id.
Proof.
  induction l1 as [|k l1 IH]; intros s Hn; simpl; [reflexivity|].
  rewrite IH by (intros Hin; apply Hn; now right).
  destruct (listTools W k (now k) s) as [r s'] eqn:H. simpl.
  eapply listTools_rows; [eassumption|]. intros ->. apply Hn. now left.
Qed.

Lemma mapSet_new {V} (m : JsMap V) k v :
  ~ In k (mapKeys m) -> mapSet m k v = m ++ [(k, v)].
Proof.
  induction m as [|[k' v'] m IH]; simpl; intros Hn; [reflexivity|].
  destruct (String.eqb k' k) eqn:E.
  - apply String.eqb_eq in E. tauto.
  - rewrite IH; tauto.
Qed.

Lemma fold_mapSet_NoDup {V} (rs : JsMap V) : forall acc,
  NoDup (mapKeys acc ++ mapKeys rs) ->
  fold_left (fun results (r : string * V) => mapSet results (fst r) (snd r)) rs acc
  = acc ++ rs.
Proof.
  induction rs as [|[k v] rs IH]; intros acc ND; simpl.
  - now rewrite app_nil_r.
  - simpl in ND. rewrite mapSet_new.
    + rewrite IH.
      * now rewrite <- app_assoc.
      * unfold mapKeys in *. rewrite map_app, <- app_assoc. exact ND.
    + apply NoDup_remove_2 in ND. intros Hin. apply ND, in_or_app. now left.
Qed.

Lemma listAllTools_collected (W : World) now s :
  NoDup (getServerIds (registry s)) ->
  listAllTools W now s =
  (Ok (collected W now (getServerIds (registry s)) s),
   stateAfter W now (getServerIds (registry s)) s).
Proof.
  intros ND. unfold listAllTools, bind at 1, getState.
  unfold bind. rewrite forEachM_collected. unfold ret.
  rewrite fold_mapSet_NoDup; [reflexivity|].
  simpl. now rewrite collected_keys.
Qed.

(** C2. [listAllTools] never fails.  The map it returns has exactly the
    registered ids as keys, in their order, hence as many entries as there
    are registered upstreams.  The entry of an id is what [listTools]
    returned for that id, and the empty list if that call failed; the call
    ran on the row the id had when [listAllTools] started, the listings of
    the earlier ids having left it untouched. *)
Theorem C2_listAllTools_covers_every_id
    (W : World) (now : string -> Z) (s : State) :
  NoDup (getServerIds (registry s)) ->
  exists m s',
    listAllTools W now s = (Ok m, s') /\
    mapKeys m = getServerIds (registry s) /\
    List.length m = List.length (getServerIds (registry s)) /\
    forall l1 id l2,
      getServerIds (registry s) = l1 ++ id :: l2 ->
      let s1 := stateAfter W now l1 s in
      mapGet (servers (registry s1)) id = mapGet (servers (registry s)) id /\
      (forall e, fst (listTools W id (now id) s1) = Err e -> mapGet m id = Some []) /\
      (forall ts, fst (listTools W id (now id) s1) = Ok ts -> mapGet m id = Some ts).
Proof.
  intros ND. do 2 eexists. split; [now apply listAllTools_collected|].
  split; [apply collected_keys|].
  split.
  { rewrite <- (collected_keys W now (getServerIds (registry s)) s) at 2.
    unfold mapKeys. now rewrite length_map. }
  intros l1 id l2 Hids s1.
  assert (Hn : ~ In id l1).
  { rewrite Hids in ND. apply NoDup_remove_2 in ND.
    intros Hin. apply ND, in_or_app. now left. }
  split; [now apply stateAfter_rows|].
  rewrite Hids, (collected_get W now l1 id l2 s Hn). fold s1.
  split; intros x Hx; now rewrite Hx.
Qed.

(** The scenario of the specification: of the two registered upstreams one
    fails to list; the map has both ids, the empty list at the failing one
    and the listing at the other. *)
Example listAllTools_one_failing :
  fst (listAllTools (oneBrokenWorld "server2" weatherTools) (fun _ => 0%Z)
         (initialState testConfig))
  = Ok [("server1", weatherTools); ("server2", [])].
Proof. vm_compute. reflexivity. Qed.

(** ** The overlap score: C6 *)

Lemma award_cases (t : list string) (q : string) :
  (In q t -> award t q = 1) /\
  (~ In q t ->
   (exists tt, In tt t /\ (includes tt q = true \/ includes q tt = true)) ->
   award t q = 1 # 2) /\
  (~ In q t ->
   (forall tt, In tt t -> includes tt q = false /\ includes q tt = false) ->
   award t q = 0).
Proof.
  unfold award. repeat split.
  - intros Hin. replace (existsb (String.eqb q) t) with true; [reflexivity|].
    symmetry. apply existsb_exists. exists q. split; [assumption | apply String.eqb_refl].
  - intros Hn (tt & Hin & Hm).
    destruct (existsb (String.eqb q) t) eqn:E.
    + apply existsb_exists in E. destruct E as (x & Hx & Hq).
      apply String.eqb_eq in Hq. now subst.
    + replace (existsb (fun t0 => includes t0 q || includes q t0) t) with true;
        [reflexivity|].
      symmetry. apply existsb_exists. exists tt. split; [assumption|].
      apply orb_true_iff. exact Hm.
  - intros Hn Hall.
    destruct (existsb (String.eqb q) t) eqn:E.
    + apply existsb_exists in E. destruct E as (x & Hx & Hq).
      apply String.eqb_eq in Hq. now subst.
    + destruct (existsb (fun t0 => includes t0 q || includes q t0) t) eqn:E2;
        [|reflexivity].
      apply existsb_exists in E2. destruct E2 as (x & Hx & Hm).
      destruct (Hall x Hx) as [H1 H2]. rewrite H1, H2 in Hm. discriminate.
Qed.

Lemma award_range (t : list string) (q : string) : 0 <= award t q /\ award t q <= 1.
Proof.
  unfold award. destruct (existsb (String.eqb q) t);
    [| destruct (existsb _ t)]; split; discriminate.
Qed.

Lemma overlapLoop_sum (q t : list string) : forall acc,
  overlapLoop q t acc == acc + Qsum (map (award t) q).
Proof.
  induction q as [|x q IH]; intros acc; simpl.
  - ring.
  - unfold award at 1, has, partialMatch.
    destruct (existsb (String.eqb x) t).
    + rewrite IH. ring.
    + destruct (existsb (fun targetToken => includes targetToken x || includes x targetToken) t);
        rewrite IH; ring.
Qed.

Lemma Qsum_range (t q : list string) :
  0 <= Qsum (map (award t) q) /\
  Qsum (map (award t) q) <= inject_Z (Z.of_nat (List.length q)).
Proof.
  induction q as [|x q [IH1 IH2]]; simpl Qsum; simpl List.length.
  - split; discriminate.
  - destruct (award_range t x) as [H1 H2]. split.
    + replace 0 with (0 + 0) by reflexivity. now apply Qplus_le_compat.
    + rewrite Nat2Z.inj_succ, <- Z.add_1_l, inject_Z_plus.
      now apply Qplus_le_compat.
Qed.

Lemma length_pos_Q {A} (l : list A) :
  l <> [] -> 0 < inject_Z (Z.of_nat (List.length l)).
Proof.
  destruct l; [congruence|]. intros _. simpl List.length.
  rewrite <- (Zlt_Qlt 0). lia.
Qed.

Lemma overlapSpec_range (q t : list string) :
  0 <= overlapSpec q t /\ overlapSpec q t <= 1.
Proof.
  unfold overlapSpec. destruct (Qsum_range t q) as [H1 H2].
  destruct q as [|x q].
  - simpl. split; discriminate.
  - assert (Hp : 0 < inject_Z (Z.of_nat (List.length (x :: q))))
      by (apply length_pos_Q; discriminate).
    split.
    + apply Qle_shift_div_l; [assumption|]. now rewrite Qmult_0_l.
    + apply Qle_shift_div_r; [assumption|]. now rewrite Qmult_1_l.
Qed.

Lemma Qsum_empty_target (q : list string) : Qsum (map (award []) q) == 0.
Proof.
  induction q as [|x q IH]; simpl; [reflexivity|]. rewrite IH. reflexivity.
Qed.

Lemma calculateOverlapScore_spec (q t : list string) :
  calculateOverlapScore q t == overlapSpec q t.
Proof.
  unfold calculateOverlapScore, overlapSpec.
  destruct q as [|x q]; [reflexivity|].
  destruct t as [|y t].
  - simpl orb. cbv iota. rewrite Qsum_empty_target. unfold Qdiv. ring.
  - simpl orb. cbv iota. rewrite overlapLoop_sum. unfold Qdiv. ring.
Qed.

Lemma calculateOverlapScore_range (q t : list string) :
  0 <= calculateOverlapScore q t /\ calculateOverlapScore q t <= 1.
Proof. rewrite calculateOverlapScore_spec. apply overlapSpec_range. Qed.


(** ** Candidates *)

Lemma round2_comp (x y : Q) : x == y -> round2 x == round2 y.
Proof. intros H. unfold round2. now rewrite H. Qed.

Lemma Qpositive_iff (x : Q) : Qpositive x = true <-> 0 < x.
Proof.
  unfold Qpositive. rewrite negb_true_iff. split.
  - intros H. apply Qnot_le_lt. intros Hle. apply Qle_bool_iff in Hle. congruence.
  - intros H. destruct (Qle_bool x 0) eqn:E; [|reflexivity].
    apply Qle_bool_iff in E. exfalso. revert E. now apply Qlt_not_le.
Qed.

Lemma combinedScore_spec (up cap : Q) :
  combinedScore up cap == (4 # 10) * up + (6 # 10) * cap.
Proof. unfold combinedScore. ring. Qed.

(** A pushed candidate is the candidate of its tool. *)
Lemma toolCandidates_In q sid cfg tool r :
  In r (toolCandidates q sid cfg tool) <->
  Qpositive (combinedScore (calculateOverlapScore q (serverTokensOf cfg))
                           (calculateOverlapScore q (toolTokensOf tool))) = true /\
  r = {| serverId := sid; serverName := cfg_name cfg; toolName := tool_name tool;
         toolDescription := tool_description tool;
         score := round2 (combinedScore
                            (calculateOverlapScore q (serverTokensOf cfg))
                            (calculateOverlapScore q (toolTokensOf tool)));
         reason := buildReason q (serverTokensOf cfg) (toolTokensOf tool) |}.
Proof.
  unfold toolCandidates. cbv zeta.
  destruct (Qpositive _); simpl; split.
  - intros [<-|[]]. auto.
  - intros [_ ->]. auto.
  - tauto.
  - intros [H _]. discriminate.
Qed.

Lemma toolCandidates_candidateOf q sid cfg tool r :
  In r (toolCandidates q sid cfg tool) -> candidateOf q sid cfg tool r.
Proof.
  intros H. apply toolCandidates_In in H. destruct H as [Hp ->].
  apply Qpositive_iff in Hp. rewrite combinedScore_spec in Hp.
  unfold candidateOf. simpl. repeat split; try assumption.
  apply round2_comp, combinedScore_spec.
Qed.

Lemma allCandidates_In q st sc r :
  In r (allCandidates q st sc) <->
  exists sid tls cfg tool,
    In (sid, tls) st /\ mapGet sc sid = Some cfg /\ In tool tls /\
    In r (toolCandidates q sid cfg tool).
Proof.
  unfold allCandidates. rewrite in_flat_map. split.
  - intros ([sid tls] & Hin & Hr). unfold serverCandidates in Hr.
    destruct (mapGet sc sid) as [cfg|] eqn:Hg; [|contradiction].
    apply in_flat_map in Hr. destruct Hr as (tool & Ht & Hr).
    exists sid, tls, cfg, tool. auto.
  - intros (sid & tls & cfg & tool & Hin & Hg & Ht & Hr).
    exists (sid, tls). split; [assumption|]. unfold serverCandidates. rewrite Hg.
    apply in_flat_map. exists tool. auto.
Qed.

Lemma allCandidates_no_tokens st sc : allCandidates [] st sc = [].
Proof.
  unfold allCandidates. induction st as [|[sid tls] st IH]; simpl; [reflexivity|].
  rewrite IH, app_nil_r. destruct (mapGet sc sid) as [cfg|]; [|reflexivity].
  induction tls as [|tool tls IHt]; [reflexivity|]. simpl. exact IHt.
Qed.

Lemma firstn_prefix {A} n (l : list A) : exists rest, l = firstn n l ++ rest.
Proof. exists (skipn n l). symmetry. apply firstn_skipn. Qed.

Lemma slice0_prefix {A} (l : list A) e : exists rest, l = slice0 l e ++ rest.
Proof. unfold slice0. destruct (e <? 0)%Z; apply firstn_prefix. Qed.

Lemma slice0_length {A} (l : list A) e :
  (0 <= e)%Z -> List.length (slice0 l e) = Nat.min (Z.to_nat e) (List.length l).
Proof.
  intros He. unfold slice0. destruct (e <? 0)%Z eqn:E.
  - apply Z.ltb_lt in E. lia.
  - apply length_firstn.
Qed.

(** ** Binary64 arithmetic *)

Lemma two_power_pos (e : Z) : 0 < 2 ^ e.
Proof. apply Qpower_0_lt. reflexivity. Qed.

Lemma two_power_Z (a : Z) : (0 <= a)%Z -> 2 ^ a == inject_Z (2 ^ a).
Proof. intros H. now rewrite Zpower_Qpower. Qed.

(** [x] is above the power of two one below its estimated exponent. *)
Lemma floorLog2_below (x : Q) : 0 < x -> 2 ^ (Binary64.floorLog2 x - 52) <= x.
Proof.
  intros Hx. destruct x as [n d]. unfold Binary64.floorLog2. cbn [Qnum Qden].
  assert (Hn : (0 < n)%Z).
  { unfold Qlt in Hx. simpl in Hx. lia. }
  set (a := Z.log2 n). set (b := Z.log2 (Zpos d)).
  assert (Ha : (0 <= a)%Z) by apply Z.log2_nonneg.
  assert (Hb : (0 <= b)%Z) by apply Z.log2_nonneg.
  assert (Hsa : (2 ^ a <= n)%Z) by (apply Z.log2_spec; assumption).
  assert (Hsb : (Zpos d < 2 ^ (b + 1))%Z).
  { replace (b + 1)%Z with (Z.succ b) by lia. apply Z.log2_spec. lia. }
  assert (Hlow : 2 ^ (a - (b + 1)) <= n # d).
  { rewrite Qpower_minus by discriminate.
    rewrite (two_power_Z Ha), (@two_power_Z (b + 1)) by lia.
    apply Qle_shift_div_r.
    - replace 0 with (inject_Z 0) by reflexivity. rewrite <- Zlt_Qlt. lia.
    - unfold Qle, Qmult, inject_Z. simpl.
      assert (Hp : (0 < 2 ^ a)%Z) by (apply Z.pow_pos_nonneg; lia).
      nia. }
  apply Qle_trans with (2 ^ (a - (b + 1))); [|assumption].
  apply Qpower_le_compat_l; [|discriminate].
  destruct (Qle_bool (2 ^ (a - b)) (n # d)); lia.
Qed.

Lemma roundEven_floor (x : Q) :
  (Qfloor x <= Binary64.roundEven x <= Qfloor x + 1)%Z /\
  (Binary64.roundEven x = (Qfloor x + 1)%Z -> inject_Z (Qfloor x) + (1 # 2) <= x).
Proof.
  unfold Binary64.roundEven.
  destruct (Qcompare_spec (x - inject_Z (Qfloor x)) (1 # 2)) as [E|L|G].
  - destruct (Z.even (Qfloor x)); (split; [lia|]); intros _; lra.
  - split; [lia|]. intros H. lia.
  - split; [lia|]. intros _. lra.
Qed.

Lemma roundEven_pos (x : Q) : 1 <= x -> (1 <= Binary64.roundEven x)%Z.
Proof.
  intros H. destruct (roundEven_floor x) as [[Hl _] _].
  apply Qfloor_resp_le in H. change (Qfloor 1) with 1%Z in H. lia.
Qed.

Lemma roundEven_neg (x : Q) : x <= -1 -> (Binary64.roundEven x <= -1)%Z.
Proof.
  intros H. destruct (roundEven_floor x) as [[_ Hu] Hup].
  assert (Hf : (Qfloor x <= -1)%Z).
  { apply Qfloor_resp_le in H. exact H. }
  destruct (Z.eq_dec (Binary64.roundEven x) (Qfloor x + 1)) as [E|E]; [|lia].
  specialize (Hup E).
  assert (Hz : (Qfloor x <> -1)%Z).
  { intros Heq. rewrite Heq in Hup. change (inject_Z (-1)) with (-1) in Hup. lra. }
  lia.
Qed.

Lemma inject_Z_pos (k : Z) : (0 < k)%Z -> 0 < inject_Z k.
Proof. intros H. change 0 with (inject_Z 0). now rewrite <- Zlt_Qlt. Qed.

Lemma Qabs_pos_eq (x : Q) : 0 <= x -> Qabs x = x.
Proof.
  destruct x as [n d]. unfold Qle. simpl. intros H.
  unfold Qabs. now rewrite Z.abs_eq by lia.
Qed.

Lemma Qabs_neg_eq (x : Q) : x <= 0 -> Qabs x = - x.
Proof.
  destruct x as [n d]. unfold Qle. simpl. intros H.
  unfold Qabs, Qopp. simpl. now rewrite Z.abs_neq by lia.
Qed.

(** Rounding keeps the sign. *)
Lemma round64_pos (x : Q) : 0 < x -> 0 < Binary64.round64 x.
Proof.
  intros Hx. unfold Binary64.round64.
  destruct (Qeq_bool x 0) eqn:E.
  { apply Qeq_bool_iff in E. lra. }
  cbv zeta. rewrite (@Qabs_pos_eq x) by lra.
  set (t := (Binary64.floorLog2 x - 52)%Z).
  assert (Hy : 1 <= x / 2 ^ t).
  { apply Qle_shift_div_l; [apply two_power_pos|].
    rewrite Qmult_1_l. now apply floorLog2_below. }
  apply roundEven_pos in Hy.
  apply Qmult_lt_0_compat; [|apply two_power_pos].
  apply inject_Z_pos. lia.
Qed.

Lemma round64_neg (x : Q) : x < 0 -> Binary64.round64 x < 0.
Proof.
  intros Hx. unfold Binary64.round64.
  destruct (Qeq_bool x 0) eqn:E.
  { apply Qeq_bool_iff in E. lra. }
  cbv zeta. rewrite (@Qabs_neg_eq x) by lra.
  set (t := (Binary64.floorLog2 (- x) - 52)%Z).
  assert (Hy : x / 2 ^ t <= -1).
  { assert (H1 : 1 <= (- x) / 2 ^ t).
    { apply Qle_shift_div_l; [apply two_power_pos|].
      rewrite Qmult_1_l. apply floorLog2_below. lra. }
    unfold Qdiv in *. 
    setoid_replace (- x * / 2 ^ t) with (- (x * / 2 ^ t)) in H1 by ring.
    lra. }
  apply roundEven_neg in Hy.
  assert (Hk : 0 < inject_Z (- Binary64.roundEven (x / 2 ^ t))) by (apply inject_Z_pos; lia).
  pose proof (Qmult_lt_0_compat _ _ Hk (two_power_pos t)) as Hm.
  rewrite inject_Z_opp in Hm.
  setoid_replace (- inject_Z (Binary64.roundEven (x / 2 ^ t)) * 2 ^ t)
    with (- (inject_Z (Binary64.roundEven (x / 2 ^ t)) * 2 ^ t)) in Hm by ring.
  lra.
Qed.

Lemma round64_zero (x : Q) : x == 0 -> Binary64.round64 x == 0.
Proof.
  intros H. unfold Binary64.round64. apply Qeq_bool_iff in H. now rewrite H.
Qed.

Lemma round64_sign (x : Q) : (Binary64.round64 x ?= 0)%Q = (x ?= 0)%Q.
Proof.
  destruct (Qcompare_spec x 0) as [E|L|G].
  - apply Qeq_alt. now apply round64_zero.
  - apply Qlt_alt. now apply round64_neg.
  - apply Qgt_alt. now apply round64_pos.
Qed.

Lemma roundEven_spec (y : Q) :
  - (1 # 2) <= y - inject_Z (Binary64.roundEven y) <= 1 # 2 /\
  (y - inject_Z (Binary64.roundEven y) == 1 # 2 \/ y - inject_Z (Binary64.roundEven y) == - (1 # 2) ->
   Z.even (Binary64.roundEven y) = true).
Proof.
  unfold Binary64.roundEven.
  pose proof (Qfloor_le y) as Hl. pose proof (Qlt_floor y) as Hu.
  rewrite inject_Z_plus in Hu. change (inject_Z 1) with 1 in Hu.
  destruct (Qcompare_spec (y - inject_Z (Qfloor y)) (1 # 2)) as [E|L|G].
  - destruct (Z.even (Qfloor y)) eqn:Ev.
    + split; [lra|]. intros _. exact Ev.
    + rewrite inject_Z_plus. change (inject_Z 1) with 1.
      split; [lra|]. intros _. rewrite Z.even_add, Ev. reflexivity.
  - split; [lra|]. intros [H|H]; lra.
  - rewrite inject_Z_plus. change (inject_Z 1) with 1.
    split; [lra|]. intros [H|H]; lra.
Qed.

(** The estimated exponent is the exponent. *)
Lemma floorLog2_spec (x : Q) :
  0 < x -> 2 ^ Binary64.floorLog2 x <= x /\ x < 2 ^ (Binary64.floorLog2 x + 1).
Proof.
  intros Hx. destruct x as [n d]. unfold Binary64.floorLog2. cbn [Qnum Qden].
  assert (Hn : (0 < n)%Z).
  { unfold Qlt in Hx. simpl in Hx. lia. }
  set (a := Z.log2 n). set (b := Z.log2 (Zpos d)).
  assert (Ha : (0 <= a)%Z) by apply Z.log2_nonneg.
  assert (Hb : (0 <= b)%Z) by apply Z.log2_nonneg.
  assert (Hsa : (2 ^ a <= n < 2 ^ (a + 1))%Z).
  { replace (a + 1)%Z with (Z.succ a) by lia. apply Z.log2_spec. assumption. }
  assert (Hsb : (2 ^ b <= Zpos d < 2 ^ (b + 1))%Z).
  { replace (b + 1)%Z with (Z.succ b) by lia. apply Z.log2_spec. lia. }
  assert (Hpa : (0 < 2 ^ a)%Z) by (apply Z.pow_pos_nonneg; lia).
  assert (Hpb : (0 < 2 ^ b)%Z) by (apply Z.pow_pos_nonneg; lia).
  destruct (Qle_bool (2 ^ (a - b)) (n # d)) eqn:E.
  - split; [now apply Qle_bool_iff|].
    replace (a - b + 1)%Z with (a + 1 - b)%Z by lia.
    rewrite Qpower_minus by discriminate.
    rewrite (@two_power_Z (a + 1)), (@two_power_Z b) by lia.
    apply Qlt_shift_div_l; [apply inject_Z_pos; assumption|].
    unfold Qlt, Qmult, inject_Z. simpl. nia.
  - replace (a - b - 1 + 1)%Z with (a - b)%Z by lia.
    split.
    + replace (a - b - 1)%Z with (a - (b + 1))%Z by lia.
      rewrite Qpower_minus by discriminate.
      rewrite (@two_power_Z a), (@two_power_Z (b + 1)) by lia.
      apply Qle_shift_div_r; [apply inject_Z_pos; lia|].
      unfold Qle, Qmult, inject_Z. simpl. nia.
    + apply Qnot_le_lt. intros H. apply Qle_bool_iff in H. congruence.
Qed.

(** What rounding does to a positive number with exponent [e]: it returns
    the multiple of [2^(e-52)] nearest to it, the even multiple of two that
    are equally near; the multiple has 53 bits, or is [2^53]. *)
Lemma round64_spec (x : Q) :
  0 < x ->
  let t := (Binary64.floorLog2 x - 52)%Z in
  exists k : Z,
    Binary64.round64 x = inject_Z k * 2 ^ t /\
    (2 ^ 52 <= k <= 2 ^ 53)%Z /\
    - (1 # 2) <= x / 2 ^ t - inject_Z k <= 1 # 2 /\
    (x / 2 ^ t - inject_Z k == 1 # 2 \/ x / 2 ^ t - inject_Z k == - (1 # 2) ->
     Z.even k = true).
Proof.
  intros Hx t. exists (Binary64.roundEven (x / 2 ^ t)).
  split.
  { unfold Binary64.round64. destruct (Qeq_bool x 0) eqn:E.
    - apply Qeq_bool_iff in E. lra.
    - cbv zeta. rewrite (@Qabs_pos_eq x) by lra. reflexivity. }
  destruct (roundEven_spec (x / 2 ^ t)) as [Hb Hev].
  split; [|split; assumption].
  destruct (floorLog2_spec Hx) as [Hlo Hhi].
  assert (H52 : 2 ^ 52 <= x / 2 ^ t).
  { apply Qle_shift_div_l; [apply two_power_pos|].
    rewrite <- Qpower_plus by discriminate.
    replace (52 + t)%Z with (Binary64.floorLog2 x) by (unfold t; lia). exact Hlo. }
  assert (H53 : x / 2 ^ t < 2 ^ 53).
  { apply Qlt_shift_div_r; [apply two_power_pos|].
    rewrite <- Qpower_plus by discriminate.
    replace (53 + t)%Z with (Binary64.floorLog2 x + 1)%Z by (unfold t; lia). exact Hhi. }
  set (k := Binary64.roundEven (x / 2 ^ t)) in *.
  rewrite (@two_power_Z 52) in H52 by lia. rewrite (@two_power_Z 53) in H53 by lia.
  assert (H1 : inject_Z (2 ^ 52 - 1) < inject_Z k).
  { replace (2 ^ 52 - 1)%Z with (2 ^ 52 + -1)%Z by lia.
    rewrite inject_Z_plus. change (inject_Z (-1)) with (-1). lra. }
  assert (H2 : inject_Z k < inject_Z (2 ^ 53 + 1)).
  { rewrite inject_Z_plus. change (inject_Z 1) with 1. lra. }
  rewrite <- Zlt_Qlt in H1, H2. lia.
Qed.

Lemma inject_Z_lt_inv (a b : Z) : inject_Z a < inject_Z b -> (a < b)%Z.
Proof. intros H. now rewrite <- Zlt_Qlt in H. Qed.

Lemma inject_Z_le_inv (a b : Z) : inject_Z a <= inject_Z b -> (a <= b)%Z.
Proof. intros H. now rewrite <- Zle_Qle in H. Qed.

(** Rounding to the nearest integer is monotone. *)
Lemma roundEven_mono (x y : Q) : x <= y -> (Binary64.roundEven x <= Binary64.roundEven y)%Z.
Proof.
  intros H.
  destruct (roundEven_spec x) as [[Hx1 Hx2] Hxe].
  destruct (roundEven_spec y) as [[Hy1 Hy2] Hye].
  destruct (Z_le_gt_dec (Binary64.roundEven x) (Binary64.roundEven y)) as [Hle|Hgt]; [assumption|].
  exfalso.
  assert (Hk : inject_Z (Binary64.roundEven y) + 1 <= inject_Z (Binary64.roundEven x)).
  { change 1 with (inject_Z 1). rewrite <- inject_Z_plus, <- Zle_Qle. lia. }
  assert (E1 : x - inject_Z (Binary64.roundEven x) == - (1 # 2)) by lra.
  assert (E2 : y - inject_Z (Binary64.roundEven y) == 1 # 2) by lra.
  assert (Ek : inject_Z (Binary64.roundEven x) == inject_Z (Binary64.roundEven y) + 1) by lra.
  change 1 with (inject_Z 1) in Ek. rewrite <- inject_Z_plus in Ek.
  apply (proj1 (inject_Z_injective _ _)) in Ek.
  specialize (Hxe (or_intror E1)). specialize (Hye (or_introl E2)).
  rewrite Ek, Z.even_add, Hye in Hxe. discriminate.
Qed.

Lemma roundEven_int (y : Q) (z : Z) : y == inject_Z z -> Binary64.roundEven y = z.
Proof.
  intros E. destruct (roundEven_spec y) as [[H1 H2] _].
  assert (A : inject_Z (z - 1) < inject_Z (Binary64.roundEven y)).
  { replace (z - 1)%Z with (z + -1)%Z by lia. rewrite inject_Z_plus.
    change (inject_Z (-1)) with (-1). lra. }
  assert (B : inject_Z (Binary64.roundEven y) < inject_Z (z + 1)).
  { rewrite inject_Z_plus. change (inject_Z 1) with 1. lra. }
  apply inject_Z_lt_inv in A, B. lia.
Qed.

Lemma two_power_lt_inv (a b : Z) : 2 ^ a < 2 ^ b -> (a < b)%Z.
Proof.
  intros H. destruct (Z_lt_le_dec a b) as [Hl|Hge]; [assumption|].
  exfalso. assert (2 ^ b <= 2 ^ a) by (apply Qpower_le_compat_l; [assumption|discriminate]).
  lra.
Qed.

Lemma floorLog2_mono (x y : Q) : 0 < x -> x <= y -> (Binary64.floorLog2 x <= Binary64.floorLog2 y)%Z.
Proof.
  intros Hx Hxy.
  destruct (floorLog2_spec Hx) as [Hlx _].
  destruct (@floorLog2_spec y) as [_ Huy]; [lra|].
  assert (H : 2 ^ Binary64.floorLog2 x < 2 ^ (Binary64.floorLog2 y + 1)) by lra.
  apply two_power_lt_inv in H. lia.
Qed.

(** Rounding is monotone on the numbers that are not negative. *)
Lemma round64_mono (x y : Q) : 0 <= x -> x <= y -> Binary64.round64 x <= Binary64.round64 y.
Proof.
  intros Hx Hxy.
  destruct (Qlt_le_dec 0 x) as [Hp|Hz].
  2:{ assert (E : x == 0) by lra. rewrite (round64_zero E).
      destruct (Qlt_le_dec 0 y) as [Hy|Hy].
      - apply Qlt_le_weak. now apply round64_pos.
      - assert (Ey : y == 0) by lra. rewrite (round64_zero Ey). lra. }
  assert (Hy : 0 < y) by lra.
  destruct (round64_spec Hp) as (k1 & E1 & [K1l K1u] & _).
  destruct (round64_spec Hy) as (k2 & E2 & [K2l K2u] & _).
  pose proof (floorLog2_mono Hp Hxy) as He.
  destruct (Z.eq_dec (Binary64.floorLog2 x) (Binary64.floorLog2 y)) as [Heq|Hne].
  - (* the same grid *)
    unfold Binary64.round64. destruct (Qeq_bool x 0) eqn:Ex; [apply Qeq_bool_iff in Ex; lra|].
    destruct (Qeq_bool y 0) eqn:Ey; [apply Qeq_bool_iff in Ey; lra|].
    cbv zeta. rewrite (@Qabs_pos_eq x), (@Qabs_pos_eq y), Heq by lra.
    set (t := (Binary64.floorLog2 y - 52)%Z).
    apply Qmult_le_compat_r; [|apply Qlt_le_weak, two_power_pos].
    rewrite <- Zle_Qle. apply roundEven_mono.
    unfold Qdiv. apply Qmult_le_compat_r; [assumption|].
    apply Qlt_le_weak, Qinv_lt_0_compat, two_power_pos.
  - (* a lower binade *)
    rewrite E1, E2.
    apply Qle_trans with (2 ^ (Binary64.floorLog2 x + 1)).
    + replace (Binary64.floorLog2 x + 1)%Z with (53 + (Binary64.floorLog2 x - 52))%Z by lia.
      rewrite Qpower_plus by discriminate.
      apply Qmult_le_compat_r; [|apply Qlt_le_weak, two_power_pos].
      rewrite (@two_power_Z 53) by lia. now rewrite <- Zle_Qle.
    + apply Qle_trans with (2 ^ Binary64.floorLog2 y).
      * apply Qpower_le_compat_l; [lia | discriminate].
      * replace (Binary64.floorLog2 y) with (52 + (Binary64.floorLog2 y - 52))%Z at 1 by lia.
        rewrite Qpower_plus by discriminate.
        apply Qmult_le_compat_r; [|apply Qlt_le_weak, two_power_pos].
        rewrite (@two_power_Z 52) by lia. now rewrite <- Zle_Qle.
Qed.

Lemma round64_comp (x y : Q) : 0 <= x -> x == y -> Binary64.round64 x == Binary64.round64 y.
Proof.
  intros Hx E. apply Qle_antisym; apply round64_mono; lra.
Qed.

(** A number with at most 53 significant bits is left as it is. *)
Lemma round64_exact (x : Q) (m j : Z) :
  (0 < m < 2 ^ 53)%Z -> x == inject_Z m * 2 ^ j -> Binary64.round64 x == x.
Proof.
  intros [Hm0 Hm] E.
  assert (Hx : 0 < x).
  { rewrite E. apply Qmult_lt_0_compat; [now apply inject_Z_pos | apply two_power_pos]. }
  destruct (round64_spec Hx) as (k & Ek & _ & _ & _).
  destruct (floorLog2_spec Hx) as [Hlo _].
  set (t := (Binary64.floorLog2 x - 52)%Z) in *.
  assert (Hj : (t <= j)%Z).
  { assert (Hup : x < 2 ^ (53 + j)).
    { rewrite E, Qpower_plus by discriminate.
      apply Qmult_lt_compat_r; [apply two_power_pos|].
      rewrite (@two_power_Z 53) by lia. now rewrite <- Zlt_Qlt. }
    assert (H : 2 ^ Binary64.floorLog2 x < 2 ^ (53 + j)) by lra.
    apply two_power_lt_inv in H. unfold t. lia. }
  assert (Ey : x / 2 ^ t == inject_Z (m * 2 ^ (j - t))).
  { rewrite inject_Z_mult, <- (@two_power_Z (j - t)) by lia.
    rewrite E. replace j with ((j - t) + t)%Z at 1 by lia.
    rewrite Qpower_plus by discriminate.
    field. apply Qnot_eq_sym, Qlt_not_eq, two_power_pos. }
  unfold Binary64.round64. destruct (Qeq_bool x 0) eqn:Ex; [apply Qeq_bool_iff in Ex; lra|].
  cbv zeta. rewrite (@Qabs_pos_eq x) by lra. fold t.
  rewrite (roundEven_int Ey).
  rewrite inject_Z_mult, <- (@two_power_Z (j - t)) by lia.
  rewrite E. replace j with ((j - t) + t)%Z at 2 by lia.
  rewrite (Qpower_plus 2 (j - t) t) by discriminate. ring.
Qed.

Lemma Qcompare_sub (x y : Q) : (x - y ?= 0)%Q = (x ?= y)%Q.
Proof.
  destruct (Qcompare_spec x y) as [E|L|G].
  - apply (proj1 (Qeq_alt (x - y) 0)). lra.
  - apply (proj1 (Qlt_alt (x - y) 0)). lra.
  - apply (proj1 (Qgt_alt (x - y) 0)). lra.
Qed.

(** The sign of a rounded difference is that of the difference. *)
Lemma sub_sign (x y : Q) : (Binary64.sub x y ?= 0)%Q = (x ?= y)%Q.
Proof. unfold Binary64.sub. now rewrite round64_sign, Qcompare_sub. Qed.

(** [Math.round] returns the integer within one half, the upper one at a
    distance of one half. *)
Lemma Math_round_spec (x : Q) :
  exists k : Z, Binary64.Math_round x = inject_Z k /\
                inject_Z k - (1 # 2) <= x /\ x < inject_Z k + (1 # 2).
Proof.
  exists (Qfloor (x + (1 # 2))). split; [reflexivity|].
  pose proof (Qfloor_le (x + (1 # 2))) as Hl.
  pose proof (Qlt_floor (x + (1 # 2))) as Hu.
  rewrite inject_Z_plus in Hu. change (inject_Z 1) with 1 in Hu. lra.
Qed.

(** ** The candidates in binary64 arithmetic *)

(** A candidate is pushed for a tool exactly when it is the candidate of
    that tool. *)
Lemma toolCandidates64_In q sid cfg tool r :
  In r (Binary64.toolCandidates q sid cfg tool) <->
  Binary64.candidateOf q sid cfg tool r.
Proof.
  unfold Binary64.toolCandidates, Binary64.candidateOf. cbv zeta.
  fold (Binary64.combinedScore
          (Binary64.calculateOverlapScore q (serverTokensOf cfg))
          (Binary64.calculateOverlapScore q (toolTokensOf tool))).
  set (c := Binary64.combinedScore _ _).
  split.
  - destruct (Qpositive c) eqn:Hp; [|intros []].
    intros [<-|[]]. cbn [serverId serverName toolName toolDescription score reason].
    apply Qpositive_iff in Hp.
    split; [reflexivity|]. split; [reflexivity|]. split; [reflexivity|].
    split; [reflexivity|]. split; [exact Hp|]. split; [reflexivity|].
    split; [|reflexivity].
    destruct (Math_round_spec (Binary64.mul c 100)) as (k & Hk & Hb).
    exists k. unfold Binary64.round2. now rewrite Hk.
  - intros (H1 & H2 & H3 & H4 & Hp & H5 & _ & H6).
    apply Qpositive_iff in Hp. rewrite Hp. left.
    destruct r as [a b c0 d e f]. simpl in *. subst. reflexivity.
Qed.

Lemma allCandidates64_In q st sc r :
  In r (Binary64.allCandidates q st sc) <->
  exists sid tls cfg tool,
    In (sid, tls) st /\ mapGet sc sid = Some cfg /\ In tool tls /\
    Binary64.candidateOf q sid cfg tool r.
Proof.
  unfold Binary64.allCandidates. rewrite in_flat_map. split.
  - intros ([sid tls] & Hin & Hr). unfold Binary64.serverCandidates in Hr.
    destruct (mapGet sc sid) as [cfg|] eqn:Hg; [|contradiction].
    apply in_flat_map in Hr. destruct Hr as (tool & Ht & Hr).
    exists sid, tls, cfg, tool. apply toolCandidates64_In in Hr. auto.
  - intros (sid & tls & cfg & tool & Hin & Hg & Ht & Hr).
    exists (sid, tls). split; [assumption|]. unfold Binary64.serverCandidates.
    rewrite Hg. apply in_flat_map. exists tool. apply toolCandidates64_In in Hr. auto.
Qed.

Lemma allCandidates64_no_tokens st sc : Binary64.allCandidates [] st sc = [].
Proof.
  unfold Binary64.allCandidates.
  induction st as [|[sid tls] st IH]; simpl; [reflexivity|].
  rewrite IH, app_nil_r. destruct (mapGet sc sid) as [cfg|]; [|reflexivity].
  induction tls as [|tool tls IHt]; [reflexivity|]. simpl. exact IHt.
Qed.

Lemma toolCandidates64_length q sid cfg tool :
  (List.length (Binary64.toolCandidates q sid cfg tool) <= 1)%nat.
Proof.
  unfold Binary64.toolCandidates. cbv zeta. destruct (Qpositive _); simpl; lia.
Qed.

Lemma allCandidates64_length q st sc :
  (List.length (Binary64.allCandidates q st sc) <= List.length (flat_map snd st))%nat.
Proof.
  unfold Binary64.allCandidates.
  induction st as [|[sid tls] st IH]; simpl; [lia|].
  rewrite !length_app. apply Nat.add_le_mono; [|assumption].
  destruct (mapGet sc sid) as [cfg|]; [|simpl; lia].
  induction tls as [|tool tls IHt]; simpl; [lia|].
  rewrite length_app. pose proof (toolCandidates64_length q sid cfg tool). lia.
Qed.

(** ** Rounding and the choice of candidates

    Rounding keeps the sign of every intermediate result, so the
    combination is positive in binary64 arithmetic exactly when it is in
    exact arithmetic: the same candidates are pushed, with the same names
    and reasons, and only their scores may differ. *)

Lemma round64_nonneg (x : Q) : 0 <= x -> 0 <= Binary64.round64 x.
Proof.
  intros H. destruct (Qlt_le_dec 0 x) as [Hp|Hz].
  - apply Qlt_le_weak. now apply round64_pos.
  - rewrite (@round64_zero x) by lra. lra.
Qed.

Lemma round64_pos_iff (x : Q) : 0 <= x -> (0 < Binary64.round64 x <-> 0 < x).
Proof.
  intros H. split; [|apply round64_pos].
  intros Hr. destruct (Qlt_le_dec 0 x) as [Hp|Hz]; [assumption|].
  rewrite (@round64_zero x) in Hr by lra. lra.
Qed.

Lemma Qdiv_sign (a n : Q) :
  0 <= a -> 0 < n -> 0 <= a / n /\ (0 < a / n <-> 0 < a).
Proof.
  intros Ha Hn. assert (Hi : 0 < / n) by now apply Qinv_lt_0_compat.
  unfold Qdiv. split; [apply Qmult_le_0_compat; lra|]. split.
  - intros H. destruct (Qlt_le_dec 0 a) as [Hp|Hz]; [assumption|].
    assert (E : a == 0) by lra. rewrite E, Qmult_0_l in H. lra.
  - intros H. now apply Qmult_lt_0_compat.
Qed.

Lemma Qmult_sign (a c : Q) :
  0 <= a -> 0 < c -> 0 <= a * c /\ (0 < a * c <-> 0 < a).
Proof.
  intros Ha Hc. split; [apply Qmult_le_0_compat; lra|]. split.
  - intros H. destruct (Qlt_le_dec 0 a) as [Hp|Hz]; [assumption|].
    assert (E : a == 0) by lra. rewrite E, Qmult_0_l in H. lra.
  - intros H. now apply Qmult_lt_0_compat.
Qed.

Lemma overlapLoop64_sign (q t : list string) : forall m m',
  0 <= m -> 0 <= m' -> (0 < m <-> 0 < m') ->
  0 <= Binary64.overlapLoop q t m /\ 0 <= overlapLoop q t m' /\
  (0 < Binary64.overlapLoop q t m <-> 0 < overlapLoop q t m').
Proof.
  induction q as [|x q IH]; intros m m' Hm Hm' Hiff; simpl.
  - auto.
  - assert (Hstep : forall a, 0 < a ->
              0 <= Binary64.add m a /\ 0 <= m' + a /\
              (0 < Binary64.add m a <-> 0 < m' + a)).
    { intros a Ha. unfold Binary64.add.
      split; [apply round64_nonneg; lra|]. split; [lra|].
      split; intros _; [lra | apply round64_pos; lra]. }
    destruct (has t x).
    + destruct (Hstep 1) as (H1 & H2 & H3); [reflexivity|]. now apply IH.
    + destruct (existsb (partialMatch x) t).
      * destruct (Hstep (1 # 2)) as (H1 & H2 & H3); [reflexivity|]. now apply IH.
      * now apply IH.
Qed.

Lemma lengthOf_pos {A} (l : list A) : l <> [] -> 0 < Binary64.lengthOf l.
Proof.
  intros H. unfold Binary64.lengthOf. apply round64_pos, inject_Z_pos.
  destruct l; [congruence | simpl; lia].
Qed.

Lemma calculateOverlapScore64_sign (q t : list string) :
  0 <= Binary64.calculateOverlapScore q t /\
  (0 < Binary64.calculateOverlapScore q t <-> 0 < calculateOverlapScore q t).
Proof.
  unfold Binary64.calculateOverlapScore, calculateOverlapScore.
  destruct ((List.length q =? 0) || (List.length t =? 0))%nat eqn:E.
  - split; [lra | tauto].
  - assert (Hq : q <> []) by (intros ->; discriminate).
    assert (H0 : 0 <= 0) by lra.
    destruct (@overlapLoop64_sign q t 0 0 H0 H0 (iff_refl _)) as (H1 & H2 & H3).
    assert (Hn : 0 < Binary64.lengthOf q) by now apply lengthOf_pos.
    assert (Hn' : 0 < inject_Z (Z.of_nat (List.length q))).
    { apply inject_Z_pos. destruct q; [congruence | simpl; lia]. }
    destruct (Qdiv_sign H1 Hn) as [D1 D2]. destruct (Qdiv_sign H2 Hn') as [D1' D2'].
    unfold Binary64.div.
    split; [now apply round64_nonneg|].
    rewrite (round64_pos_iff D1). tauto.
Qed.

Lemma point_weights_pos : 0 < Binary64.point4 /\ 0 < Binary64.point6.
Proof. split; apply round64_pos; reflexivity. Qed.

(** The test [combinedScore > 0] has the same outcome in both arithmetics. *)
Lemma combinedScore64_positive (q st tt : list string) :
  Qpositive (Binary64.combinedScore (Binary64.calculateOverlapScore q st)
                                    (Binary64.calculateOverlapScore q tt))
  = Qpositive (combinedScore (calculateOverlapScore q st)
                             (calculateOverlapScore q tt)).
Proof.
  destruct (calculateOverlapScore64_sign q st) as [Hs Hsi].
  destruct (calculateOverlapScore64_sign q tt) as [Ht Hti].
  destruct (calculateOverlapScore_range q st) as [Es _].
  destruct (calculateOverlapScore_range q tt) as [Et _].
  destruct point_weights_pos as [H4 H6].
  set (s := Binary64.calculateOverlapScore q st) in *.
  set (t := Binary64.calculateOverlapScore q tt) in *.
  set (s' := calculateOverlapScore q st) in *.
  set (t' := calculateOverlapScore q tt) in *.
  destruct (Qmult_sign Hs H4) as [A1 A2]. destruct (Qmult_sign Ht H6) as [B1 B2].
  assert (Hiff : 0 < Binary64.combinedScore s t <-> 0 < combinedScore s' t').
  { unfold Binary64.combinedScore, Binary64.add, Binary64.mul, combinedScore.
    pose proof (round64_nonneg A1) as R1. pose proof (round64_nonneg B1) as R2.
    pose proof (round64_pos_iff A1) as P1. pose proof (round64_pos_iff B1) as P2.
    rewrite round64_pos_iff by lra.
    assert (E4 : 0 < 4 # 10) by reflexivity. assert (E6 : 0 < 6 # 10) by reflexivity.
    destruct (Qmult_sign Es E4) as [C1 C2]. destruct (Qmult_sign Et E6) as [D1 D2].
    split.
    - intros H.
      destruct (Qlt_le_dec 0 (Binary64.round64 (s * Binary64.point4))) as [Hp|Hz].
      + assert (0 < s' * (4 # 10)) by tauto. lra.
      + assert (0 < Binary64.round64 (t * Binary64.point6)) by lra.
        assert (0 < t' * (6 # 10)) by tauto. lra.
    - intros H.
      destruct (Qlt_le_dec 0 (s' * (4 # 10))) as [Hp|Hz].
      + assert (0 < Binary64.round64 (s * Binary64.point4)) by tauto. lra.
      + assert (0 < t' * (6 # 10)) by lra.
        assert (0 < Binary64.round64 (t * Binary64.point6)) by tauto. lra. }
  destruct (Qpositive (Binary64.combinedScore s t)) eqn:E1;
    destruct (Qpositive (combinedScore s' t')) eqn:E2; try reflexivity.
  - apply Qpositive_iff, Hiff, Qpositive_iff in E1. congruence.
  - apply Qpositive_iff, Hiff, Qpositive_iff in E2. congruence.
Qed.

Lemma toolCandidates64_same q sid cfg tool :
  Forall2 sameButScore (Binary64.toolCandidates q sid cfg tool)
                       (toolCandidates q sid cfg tool).
Proof.
  unfold Binary64.toolCandidates, toolCandidates. cbv zeta.
  rewrite combinedScore64_positive.
  destruct (Qpositive _); constructor; [|constructor].
  unfold sameButScore. simpl. auto.
Qed.

Lemma allCandidates64_same q st sc :
  Forall2 sameButScore (Binary64.allCandidates q st sc) (allCandidates q st sc).
Proof.
  unfold Binary64.allCandidates, allCandidates.
  induction st as [|[sid tls] st IH]; simpl; [constructor|].
  apply Forall2_app; [|exact IH].
  destruct (mapGet sc sid) as [cfg|]; [|constructor].
  induction tls as [|tool tls IHt]; simpl; [constructor|].
  apply Forall2_app; [apply toolCandidates64_same | exact IHt].
Qed.

(** ** The size of the scores

    With fewer than [2^52] query tokens, which an array always has, the
    sums of the loop and the length are exact, and [calculateOverlapScore]
    rounds once, in its division. *)

Lemma round64_half (h : Z) (x : Q) :
  (0 <= h < 2 ^ 53)%Z -> x == inject_Z h / 2 -> Binary64.round64 x == x.
Proof.
  intros [H0 H] E. destruct (Z.eq_dec h 0) as [->|Hne].
  - assert (Ez : x == 0) by (rewrite E; reflexivity).
    rewrite (round64_zero Ez). now rewrite Ez.
  - apply (@round64_exact x h (-1)); [lia|]. rewrite E. reflexivity.
Qed.

Lemma round64_integer (n : Z) :
  (0 <= n < 2 ^ 53)%Z -> Binary64.round64 (inject_Z n) == inject_Z n.
Proof.
  intros [H0 H]. destruct (Z.eq_dec n 0) as [->|Hne]; [reflexivity|].
  apply (@round64_exact (inject_Z n) n 0); [lia|].
  change (2 ^ 0) with 1. ring.
Qed.

Lemma overlapLoop64_exact (q t : list string) : forall m m' h,
  m == m' -> m' == inject_Z h / 2 -> (0 <= h)%Z ->
  (h + 2 * Z.of_nat (List.length q) < 2 ^ 53)%Z ->
  Binary64.overlapLoop q t m == overlapLoop q t m'.
Proof.
  induction q as [|x q IH]; intros m m' h Em Eh H0 Hlen; [exact Em|].
  cbn [List.length] in Hlen.
  assert (Hpos : 0 <= m').
  { rewrite Eh. apply Qdiv_sign; [|reflexivity].
    change 0 with (inject_Z 0). rewrite <- Zle_Qle. assumption. }
  assert (Hstep : forall (a : Q) (d : Z), a == inject_Z d / 2 -> (0 < d <= 2)%Z ->
            Binary64.add m a == m' + a /\
            m' + a == inject_Z (h + d) / 2).
  { intros a d Ea Hd.
    assert (E2 : m' + a == inject_Z (h + d) / 2).
    { rewrite Eh, Ea, inject_Z_plus. field. }
    split; [|exact E2]. unfold Binary64.add.
    assert (Hd0 : 0 <= a).
    { rewrite Ea. apply Qdiv_sign; [|reflexivity].
      change 0 with (inject_Z 0). rewrite <- Zle_Qle. lia. }
    rewrite (@round64_comp (m + a) (m' + a)).
    - apply (@round64_half (h + d)); [lia | exact E2].
    - lra.
    - now rewrite Em. }
  simpl. destruct (has t x).
  - destruct (Hstep 1 2%Z) as [A B]; [reflexivity | lia |].
    apply (IH _ _ (h + 2)%Z); [exact A | exact B | lia | lia].
  - destruct (existsb (partialMatch x) t).
    + destruct (Hstep (1 # 2) 1%Z) as [A B]; [reflexivity | lia |].
      apply (IH _ _ (h + 1)%Z); [exact A | exact B | lia | lia].
    + apply (IH _ _ h); [exact Em | exact Eh | lia | lia].
Qed.

(** The overlap score of the code is the exact score, rounded. *)
Lemma calculateOverlapScore64_rounds (q t : list string) :
  (Z.of_nat (List.length q) < 2 ^ 52)%Z ->
  Binary64.calculateOverlapScore q t
    == Binary64.round64 (calculateOverlapScore q t).
Proof.
  intros Hlen. unfold Binary64.calculateOverlapScore, calculateOverlapScore.
  destruct ((List.length q =? 0) || (List.length t =? 0))%nat eqn:E; [reflexivity|].
  assert (Hq : q <> []) by (intros ->; discriminate).
  assert (H0 : 0 <= 0) by lra.
  destruct (@overlapLoop64_sign q t 0 0 H0 H0 (iff_refl _)) as (H1 & H2 & _).
  assert (Hn : 0 < Binary64.lengthOf q) by now apply lengthOf_pos.
  assert (El : Binary64.overlapLoop q t 0 == overlapLoop q t 0).
  { apply (@overlapLoop64_exact q t 0 0 0%Z); [reflexivity | reflexivity | lia | lia]. }
  assert (En : Binary64.lengthOf q == inject_Z (Z.of_nat (List.length q))).
  { unfold Binary64.lengthOf. apply round64_integer. lia. }
  unfold Binary64.div. apply round64_comp.
  - now apply Qdiv_sign.
  - now rewrite El, En.
Qed.

Lemma round64_one : Binary64.round64 1 == 1.
Proof. apply Qeq_bool_iff. vm_compute. reflexivity. Qed.

Lemma calculateOverlapScore64_range (q t : list string) :
  (Z.of_nat (List.length q) < 2 ^ 52)%Z ->
  0 <= Binary64.calculateOverlapScore q t /\ Binary64.calculateOverlapScore q t <= 1.
Proof.
  intros Hlen. split; [apply calculateOverlapScore64_sign|].
  rewrite (@calculateOverlapScore64_rounds q t Hlen).
  destruct (calculateOverlapScore_range q t) as [H0 H1].
  apply Qle_trans with (Binary64.round64 1); [now apply round64_mono|].
  pose proof round64_one. lra.
Qed.

(** The combination lies between 0 and 1, and a hundred times it between
    0 and 100. *)
Lemma combinedScore64_range (s t : Q) :
  0 <= s /\ s <= 1 -> 0 <= t /\ t <= 1 ->
  0 <= Binary64.combinedScore s t /\ Binary64.combinedScore s t <= 1 /\
  0 <= Binary64.mul (Binary64.combinedScore s t) 100 /\
  Binary64.mul (Binary64.combinedScore s t) 100 <= 100.
Proof.
  intros [Hs0 Hs1] [Ht0 Ht1].
  destruct point_weights_pos as [H4 H6].
  assert (E4 : Binary64.round64 (1 * Binary64.point4) == Binary64.point4)
    by (apply Qeq_bool_iff; vm_compute; reflexivity).
  assert (E6 : Binary64.round64 (1 * Binary64.point6) == Binary64.point6)
    by (apply Qeq_bool_iff; vm_compute; reflexivity).
  assert (E1 : Binary64.round64 (Binary64.point4 + Binary64.point6) == 1)
    by (apply Qeq_bool_iff; vm_compute; reflexivity).
  assert (E100 : Binary64.round64 (1 * 100) == 100)
    by (apply Qeq_bool_iff; vm_compute; reflexivity).
  assert (A0 : 0 <= s * Binary64.point4) by (apply Qmult_le_0_compat; lra).
  assert (B0 : 0 <= t * Binary64.point6) by (apply Qmult_le_0_compat; lra).
  assert (A1 : Binary64.mul s Binary64.point4 <= Binary64.point4).
  { unfold Binary64.mul.
    apply Qle_trans with (Binary64.round64 (1 * Binary64.point4)); [|lra].
    apply round64_mono; [assumption|]. apply Qmult_le_compat_r; lra. }
  assert (B1 : Binary64.mul t Binary64.point6 <= Binary64.point6).
  { unfold Binary64.mul.
    apply Qle_trans with (Binary64.round64 (1 * Binary64.point6)); [|lra].
    apply round64_mono; [assumption|]. apply Qmult_le_compat_r; lra. }
  pose proof (round64_nonneg A0) as A2. pose proof (round64_nonneg B0) as B2.
  fold (Binary64.mul s Binary64.point4) in A2.
  fold (Binary64.mul t Binary64.point6) in B2.
  assert (C0 : 0 <= Binary64.combinedScore s t).
  { unfold Binary64.combinedScore, Binary64.add. apply round64_nonneg. lra. }
  assert (C1 : Binary64.combinedScore s t <= 1).
  { unfold Binary64.combinedScore, Binary64.add.
    apply Qle_trans with (Binary64.round64 (Binary64.point4 + Binary64.point6));
      [|lra].
    apply round64_mono; lra. }
  split; [exact C0|]. split; [exact C1|].
  unfold Binary64.mul at 1 2. split.
  - apply round64_nonneg. apply Qmult_le_0_compat; lra.
  - apply Qle_trans with (Binary64.round64 (1 * 100)); [|lra].
    apply round64_mono.
    + apply Qmult_le_0_compat; lra.
    + apply Qmult_le_compat_r; lra.
Qed.

Section RankingProperties.

Variable localeCompare : string -> string -> comparison.

Lemma insertRanked_perm x l :
  Permutation (x :: l) (insertRanked localeCompare x l).
Proof.
  induction l as [|y l IH]; simpl; [reflexivity|].
  destruct (compareRanked localeCompare x y); try reflexivity.
  rewrite perm_swap. now constructor.
Qed.

Lemma sortRanked_perm l : Permutation l (sortRanked localeCompare l).
Proof.
  induction l as [|x l IH]; simpl; [reflexivity|].
  rewrite <- insertRanked_perm. now constructor.
Qed.


(** The collation is a total preorder. *)
Hypothesis localeCompare_total :
  forall a b, localeCompare a b = Gt -> localeCompare b a <> Gt.
Hypothesis localeCompare_trans :
  forall a b c, localeCompare a b <> Gt -> localeCompare b c <> Gt ->
                localeCompare a c <> Gt.

Lemma compareRanked_before x y :
  compareRanked localeCompare x y <> Gt -> rankedBefore localeCompare x y.
Proof.
  unfold compareRanked, rankedBefore.
  destruct (Qeq_bool (score y) (score x)) eqn:E; simpl.
  - apply Qeq_bool_iff in E. intros H. right. split; [now symmetry | assumption].
  - intros H. left. destruct (Qcompare_spec (score y) (score x)) as [He|Hl|Hg].
    + apply Qeq_bool_iff in He. congruence.
    + assumption.
    + congruence.
Qed.

Lemma compareRanked_after x y :
  compareRanked localeCompare x y = Gt -> rankedBefore localeCompare y x.
Proof.
  unfold compareRanked, rankedBefore.
  destruct (Qeq_bool (score y) (score x)) eqn:E; simpl.
  - apply Qeq_bool_iff in E. intros H. right. split; [assumption|].
    now apply localeCompare_total.
  - intros H. left. now apply Qgt_alt in H.
Qed.

Lemma rankedBefore_trans : Relations_1.Transitive (rankedBefore localeCompare).
Proof.
  intros a b c [H1|[E1 L1]] [H2|[E2 L2]]; unfold rankedBefore.
  - left. now apply Qlt_trans with (score b).
  - left. now rewrite <- E2.
  - left. now rewrite E1.
  - right. split; [now rewrite E1 | eapply localeCompare_trans; eassumption].
Qed.

Lemma insertRanked_sorted x l :
  Sorted (rankedBefore localeCompare) l ->
  Sorted (rankedBefore localeCompare) (insertRanked localeCompare x l).
Proof.
  induction l as [|y l IH]; simpl; intros Hs.
  - repeat constructor.
  - destruct (compareRanked localeCompare x y) eqn:E.
    + constructor; [assumption|]. constructor.
      apply compareRanked_before. congruence.
    + constructor; [assumption|]. constructor.
      apply compareRanked_before. congruence.
    + inversion Hs as [|? ? Hs' Hhd]; subst.
      constructor; [now apply IH|].
      apply compareRanked_after in E.
      destruct l as [|z l]; simpl.
      * now constructor.
      * destruct (compareRanked localeCompare x z); constructor; try assumption;
          now inversion Hhd.
Qed.

Lemma sortRanked_sorted l :
  StronglySorted (rankedBefore localeCompare) (sortRanked localeCompare l).
Proof.
  apply Sorted_StronglySorted; [exact rankedBefore_trans|].
  induction l as [|x l IH]; simpl; [constructor|].
  now apply insertRanked_sorted.
Qed.

(** The comparison function of the code orders as the comparison of the
    scores does, so that sorting with it sorts by score. *)
Lemma compareRanked64 (a b : RankedTool) :
  Binary64.compareRanked localeCompare a b = compareRanked localeCompare a b.
Proof.
  unfold Binary64.compareRanked, compareRanked.
  destruct (negb (Qeq_bool (score b) (score a))); [apply sub_sign | reflexivity].
Qed.

Lemma sortRanked64 (l : list RankedTool) :
  Binary64.sortRanked localeCompare l = sortRanked localeCompare l.
Proof.
  assert (Hi : forall x m, Binary64.insertRanked localeCompare x m
                           = insertRanked localeCompare x m).
  { intros x m. induction m as [|y m IH]; simpl; [reflexivity|].
    rewrite compareRanked64, IH. reflexivity. }
  induction l as [|x l IH]; simpl; [reflexivity|]. now rewrite IH, Hi.
Qed.

(** C5. The candidates pushed are exactly the candidates of the tools of
    the servers present in both maps whose combination is positive, the
    combination being the server's overlap score times 0.4 plus the tool's
    times 0.6, each operation in binary64 arithmetic; so a tool with a
    combination of 0 or less has no candidate.  The score of a candidate is
    [Math.round] of a hundred times the combination, divided by 100: a
    number of hundredths [k / 100], [k] being the integer within one half
    of a hundred times the combination.  The returned sequence is the
    beginning of an arrangement of all pushed candidates by descending
    score, equal scores by ascending name; it has at most [limit] entries,
    and exactly [limit] when there are that many candidates. *)
Theorem C5_ranking_is_scored_sorted_and_truncated
    (query : string) (serverTools : JsMap (list ToolInfo))
    (serverConfigs : JsMap ServerConfig) (limit : Z) :
  (0 <= limit)%Z ->
  let result :=
    Binary64.rankToolsForQuery localeCompare query serverTools serverConfigs limit in
  let pushed := Binary64.allCandidates (tokenize query) serverTools serverConfigs in
  (forall r, In r pushed <->
     exists sid tls cfg tool,
       In (sid, tls) serverTools /\ mapGet serverConfigs sid = Some cfg /\
       In tool tls /\ Binary64.candidateOf (tokenize query) sid cfg tool r) /\
  (forall r, In r result -> In r pushed) /\
  (exists rest,
     StronglySorted (rankedBefore localeCompare) (result ++ rest) /\
     Permutation (result ++ rest) pushed) /\
  StronglySorted (rankedBefore localeCompare) result /\
  (Z.of_nat (List.length result) <= limit)%Z /\
  List.length result = Nat.min (Z.to_nat limit) (List.length pushed).
Proof.
  intros Hl result pushed.
  assert (Hres : result = slice0 (sortRanked localeCompare pushed) limit).
  { unfold result, pushed, Binary64.rankToolsForQuery. rewrite sortRanked64.
    destruct (tokenize query) as [|t ts]; [|reflexivity].
    simpl. rewrite allCandidates64_no_tokens. simpl.
    unfold slice0. destruct (limit <? 0)%Z; now rewrite firstn_nil. }
  destruct (slice0_prefix (sortRanked localeCompare pushed) limit) as (rest & Hrest).
  rewrite <- Hres in Hrest.
  pose proof (sortRanked_sorted pushed) as Hs.
  rewrite Hrest in Hs.
  assert (Hperm : Permutation (result ++ rest) pushed).
  { rewrite <- Hrest. symmetry. apply sortRanked_perm. }
  assert (Hlen : List.length result =
                 Nat.min (Z.to_nat limit) (List.length pushed)).
  { rewrite Hres, slice0_length by assumption.
    now rewrite <- (Permutation_length (sortRanked_perm _)). }
  split; [intros r; apply allCandidates64_In|].
  split.
  { intros r Hin. apply (Permutation_in r Hperm). apply in_or_app. now left. }
  split; [exists rest; auto|].
  split.
  { clear - Hs. induction result as [|x l IH]; [constructor|].
    simpl in Hs. inversion Hs as [|? ? Hs' Hall]; subst.
    constructor; [now apply IH|].
    apply Forall_app in Hall. tauto. }
  split; [rewrite Hlen; lia | exact Hlen].
Qed.

End RankingProperties.

(** ** The reason string: C10 *)

Lemma Qsum_zero (t q : list string) :
  (forall x, In x q -> award t x = 0) -> Qsum (map (award t) q) == 0.
Proof.
  induction q as [|x q IH]; simpl; intros H; [reflexivity|].
  rewrite (H x) by now left. rewrite IH; [reflexivity|].
  intros y Hy. apply H. now right.
Qed.

Lemma award_no_match (t : list string) (q : string) :
  existsb (reasonMatch q) t = false -> award t q = 0.
Proof.
  intros H. apply award_cases.
  - intros Hin. assert (E : existsb (reasonMatch q) t = true); [|congruence].
    apply existsb_exists. exists q. split; [assumption|].
    unfold reasonMatch. now rewrite String.eqb_refl.
  - intros tt Hin.
    assert (E : reasonMatch q tt = false).
    { destruct (reasonMatch q tt) eqn:E; [|reflexivity].
      assert (existsb (reasonMatch q) t = true); [|congruence].
      apply existsb_exists. eauto. }
    unfold reasonMatch in E. apply orb_false_iff in E. destruct E as [E E2].
    apply orb_false_iff in E. tauto.
Qed.

(** A positive overlap score comes from a query token and a target token
    related by the match rule of [buildReason]. *)
Lemma overlap_positive_match (q t : list string) :
  0 < calculateOverlapScore q t ->
  exists qt tk, In qt q /\ In tk t /\ reasonMatch qt tk = true.
Proof.
  intros Hpos.
  destruct (existsb (fun qt => existsb (reasonMatch qt) t) q) eqn:E.
  - apply existsb_exists in E. destruct E as (qt & Hq & E).
    apply existsb_exists in E. destruct E as (tk & Ht & E). eauto.
  - exfalso. rewrite calculateOverlapScore_spec in Hpos. unfold overlapSpec in Hpos.
    rewrite Qsum_zero in Hpos.
    + unfold Qdiv in Hpos. rewrite Qmult_0_l in Hpos. discriminate.
    + intros x Hx. apply award_no_match.
      destruct (existsb (reasonMatch x) t) eqn:Ex; [|reflexivity].
      assert (existsb (fun qt => existsb (reasonMatch qt) t) q = true); [|congruence].
      apply existsb_exists. eauto.
Qed.

Lemma combined_positive (up cap : Q) :
  0 <= up -> 0 <= cap -> 0 < (4 # 10) * up + (6 # 10) * cap -> 0 < up \/ 0 < cap.
Proof.
  intros Hu Hc Hpos.
  destruct (Qlt_le_dec 0 up) as [H|H]; [now left|].
  destruct (Qlt_le_dec 0 cap) as [H'|H']; [now right|].
  exfalso. assert (Eu : up == 0) by now apply Qle_antisym.
  assert (Ec : cap == 0) by now apply Qle_antisym.
  rewrite Eu, Ec in Hpos. discriminate.
Qed.

Lemma firstMatches_nonempty (q t : list string) qt tk :
  In qt q -> In tk t -> reasonMatch qt tk = true -> firstMatches q t <> [].
Proof.
  intros Hq Ht Hm Hnil.
  destruct (find (reasonMatch qt) t) as [x|] eqn:Ef.
  - assert (Hin : In x (firstMatches q t)).
    { unfold firstMatches. apply in_flat_map. exists qt. split; [assumption|].
      rewrite Ef. now left. }
    rewrite Hnil in Hin. contradiction.
  - apply (find_none _ _ Ef) in Ht. congruence.
Qed.

(** The two shapes of a reason that has a clause. *)
Lemma buildReason_server (q st tt : list string) :
  firstMatches q st <> [] ->
  exists rest, buildReason q st tt = ("server matches: " ++ rest)%string.
Proof.
  intros H. unfold buildReason.
  destruct (firstMatches q st) as [|m ms]; [congruence|].
  destruct (firstMatches q tt) as [|m' ms'].
  - exists (renderMatches (m :: ms)). reflexivity.
  - exists (renderMatches (m :: ms) ++ "; " ++ "tool matches: "
            ++ renderMatches (m' :: ms'))%string.
    reflexivity.
Qed.

Lemma buildReason_tool (q st tt : list string) :
  firstMatches q st = [] -> firstMatches q tt <> [] ->
  exists rest, buildReason q st tt = ("tool matches: " ++ rest)%string.
Proof.
  intros H0 H. unfold buildReason. rewrite H0.
  destruct (firstMatches q tt) as [|m ms]; [congruence|].
  exists (renderMatches (m :: ms)). reflexivity.
Qed.


(** ** The invariant of the registry *)

Lemma In_mapSet {V} (m : JsMap V) k v k' v' :
  In (k', v') (mapSet m k v) -> In (k', v') m \/ (k', v') = (k, v).
Proof.
  induction m as [|[k0 v0] m IH]; simpl.
  - intros [H|[]]. now right.
  - destruct (String.eqb k0 k) eqn:E; simpl.
    + apply String.eqb_eq in E. subst k0. intros [H|H]; [right | left; right]; auto.
    + intros [H|H]; [auto|]. destruct (IH H); auto.
Qed.

Lemma register_clients (l : list ServerConfig) : forall acc,
  (forall k sv, In (k, sv) acc -> client sv = None) ->
  forall k sv, In (k, sv) (fold_left register l acc) -> client sv = None.
Proof.
  induction l as [|c l IH]; intros acc Hacc; simpl; [assumption|].
  apply IH. intros k sv. unfold register. destruct (cfg_enabled c); [|apply Hacc].
  intros Hin. apply In_mapSet in Hin. destruct Hin as [Hin|[= _ ->]]; [|reflexivity].
  now apply (Hacc k).
Qed.

Lemma wf_initialState (cfg : DiscoveryConfig) : wfState (initialState cfg).
Proof.
  split.
  - apply register_NoDup. constructor.
  - intros k server c Hin Hc. simpl in Hin.
    apply register_clients in Hin; [congruence | intros ? ? []].
Qed.

Lemma wf_registry (s s' : State) :
  registry s' = registry s -> wfState s -> wfState s'.
Proof. unfold wfState. now intros ->. Qed.

Lemma wf_mapUpdate (s : State) id f tr :
  wfState s ->
  (forall v c, In (id, v) (servers (registry s)) ->
               client (f v) = Some c -> clientServerId c = id /\ clientSound c) ->
  wfState {| registry := withServers (mapUpdate (servers (registry s)) id f)
                                     (registry s);
             trace := tr |}.
Proof.
  intros [ND Hwf] Hf. split.
  - unfold getServerIds. simpl. now rewrite mapKeys_mapUpdate.
  - simpl. intros k server c Hin Hc.
    apply In_mapUpdate in Hin. destruct Hin as [Hin|(-> & v & Hin & ->)].
    + now apply (Hwf k server).
    + now apply (Hf v).
Qed.

Lemma wf_getClient (W : World) id s r s' :
  wfState s -> getClient W id s = (r, s') -> wfState s'.
Proof.
  intros Hwf H. destruct (getClient_spec _ _ _ H) as (evs & _ & _ & _ & _ & Hr).
  destruct r as [c|e].
  - destruct Hr as (_ & server & _ & [[_ ->]|(_ & Hid & Hs & _ & Hreg)]); [assumption|].
    apply wf_registry with
      (s := {| registry := withServers
                 (mapUpdate (servers (registry s)) id (withClient (Some c)))
                 (registry s);
               trace := trace s' |}); [assumption|].
    apply wf_mapUpdate; [assumption|]. simpl. intros v c' _ [= <-]. auto.
  - destruct Hr as (Hreg & _). now apply (wf_registry _ Hreg).
Qed.

Lemma wf_withCachedTools (s : State) id t tr :
  wfState s ->
  wfState {| registry := withServers
               (mapUpdate (servers (registry s)) id (withCachedTools t))
               (registry s);
             trace := tr |}.
Proof.
  intros Hwf. apply wf_mapUpdate; [assumption|]. simpl.
  intros v c Hin Hc. destruct Hwf as [_ Hwf]. now apply (Hwf id v).
Qed.

Lemma wf_listTools (W : World) id now s r s' :
  wfState s -> listTools W id now s = (r, s') -> wfState s'.
Proof.
  intros Hwf H.
  destruct (mapGet (servers (registry s)) id) as [server|] eqn:Hg.
  2:{ rewrite (listTools_unknown W _ _ _ Hg) in H. now injection H as <- <-. }
  destruct (freshTools (cacheTtlMs (registry s)) now server) as [cached|] eqn:Hf.
  { rewrite (listTools_hit W _ _ _ Hg Hf) in H. now injection H as <- <-. }
  rewrite (listTools_miss W _ _ _ Hg Hf) in H.
  destruct (getClient W id s) as [[c|e] s1] eqn:Hc.
  - assert (Hwf1 : wfState s1) by (eapply wf_getClient; eassumption).
    destruct (clientListTools W c (trace s1)) as [[ts|e] tr2]; injection H as <- <-.
    + now apply wf_withCachedTools.
    + now apply (wf_registry (s := s1)).
  - injection H as <- <-. eapply wf_getClient; eassumption.
Qed.

Lemma wf_callTool (W : World) id n a s r s' :
  wfState s -> callTool W id n a s = (r, s') -> wfState s'.
Proof.
  intros Hwf. rewrite callTool_unfold.
  destruct (getClient W id s) as [[c|e] s1] eqn:Hc.
  - destruct (clientCallTool W c n a (trace s1)) as [r2 tr2]. intros [= <- <-].
    apply (wf_registry (s := s1)); [reflexivity|]. eapply wf_getClient; eassumption.
  - intros [= <- <-]. eapply wf_getClient; eassumption.
Qed.

Lemma wf_stateAfter (W : World) now ids : forall s,
  wfState s -> wfState (stateAfter W now ids s).
Proof.
  induction ids as [|id ids IH]; intros s Hwf; simpl; [assumption|].
  apply IH. destruct (listTools W id (now id) s) as [r s'] eqn:H. simpl.
  eapply wf_listTools; eassumption.
Qed.

Lemma wf_listAllTools (W : World) now s :
  wfState s -> wfState (snd (listAllTools W now s)).
Proof.
  intros Hwf. rewrite listAllTools_collected by apply Hwf. simpl.
  now apply wf_stateAfter.
Qed.

Lemma wf_closeAll (s : State) : wfState s -> wfState (snd (closeAll s)).
Proof.
  intros [ND _]. destruct (closeAll_registry s) as (_ & Hm & _). split.
  - unfold getServerIds, mapKeys in *. rewrite Hm, map_map. simpl. exact ND.
  - intros k server c Hin Hc. rewrite Hm in Hin. apply in_map_iff in Hin.
    destruct Hin as (x & [= _ <-] & _). discriminate.
Qed.

Lemma wf_invalidateCache (o : option string) (s : State) :
  wfState s -> wfState (invalidateCache o s).
Proof.
  intros Hwf.
  assert (Hall : wfState
    {| registry := withServers
         (map (fun e => (fst e, withCachedTools None (snd e))) (servers (registry s)))
         (registry s);
       trace := trace s |}).
  { destruct Hwf as [ND Hwf]. split.
    - unfold getServerIds, mapKeys in *. simpl. rewrite map_map. exact ND.
    - simpl. intros k server c Hin Hc. apply in_map_iff in Hin.
      destruct Hin as ([k0 v0] & [= <- <-] & Hin). now apply (Hwf k0 v0). }
  unfold invalidateCache. destruct o as [id|]; [|assumption].
  destruct (truthy (Some id)); [|assumption].
  destruct (mapGet (servers (registry s)) id); [|assumption].
  now apply wf_withCachedTools.
Qed.

Lemma wf_processExit (id : string) (s : State) : wfState s -> wfState (processExit id s).
Proof.
  intros Hwf. apply wf_mapUpdate; [assumption|]. simpl.
  intros v c Hin Hc. destruct (client v) as [c0|] eqn:E; [|discriminate].
  injection Hc as <-. destruct Hwf as [_ Hwf].
  destruct (Hwf id v c0 Hin E) as [Hid Hs].
  destruct c0 as [c0|c0]; simpl in *; auto. split; [assumption | discriminate].
Qed.

(** A lost connection leaves the stored client behind; the next
    [getClient] does not hand it out but connects anew. *)
Example reconnect_after_processExit :
  let W := healthyWorld weatherTools in
  let s1 := snd (getClient W "server1" (initialState testConfig)) in
  let s2 := processExit "server1" s1 in
  trace s1 = [EvConnect "server1"] /\
  option_map connectedClient (mapGet (servers (registry s2)) "server1") = Some None /\
  trace (snd (getClient W "server1" s2)) = [EvConnect "server1"; EvConnect "server1"].
Proof. repeat split; vm_compute; reflexivity. Qed.

(** The collation used in the examples is a total preorder. *)
Lemma codeUnitCompare_total (a b : string) :
  codeUnitCompare a b = Gt -> codeUnitCompare b a <> Gt.
Proof.
  unfold codeUnitCompare. rewrite (String.compare_antisym b a).
  intros ->. discriminate.
Qed.

Lemma codeUnitCompare_trans (a b c : string) :
  codeUnitCompare a b <> Gt -> codeUnitCompare b c <> Gt -> codeUnitCompare a c <> Gt.
Proof.
  unfold codeUnitCompare. intros H1 H2 H3.
  change String.compare with String_as_OT.cmp in *.
  assert (Hca : String_as_OT.lt c a).
  { apply String_as_OT.cmp_lt. rewrite String_as_OT.cmp_antisym, H3. reflexivity. }
  destruct (String_as_OT.cmp a b) eqn:E1; [| |congruence].
  - apply String_as_OT.cmp_eq in E1. subst b.
    apply String_as_OT.cmp_lt in Hca.
    rewrite String_as_OT.cmp_antisym, Hca in H2. now apply H2.
  - apply String_as_OT.cmp_lt in E1.
    pose proof (@String_as_OT.lt_trans c a b Hca E1) as Hcb.
    apply String_as_OT.cmp_lt in Hcb.
    rewrite String_as_OT.cmp_antisym, Hcb in H2. now apply H2.
Qed.

(** ** The scenarios of the test suite *)

Example tokenize_query :
  tokenize "What is the weather forecast?"
  = ["what"; "is"; "the"; "weather"; "forecast"].
Proof. vm_compute. reflexivity. Qed.

Example weather_query_ranks_forecast_first :
  map (fun r => (serverId r, toolName r, Qred (score r)))
      (rankToolsForQuery codeUnitCompare "What is the weather forecast?"
         testServerTools testServerConfigs 10)
  = [("weather", "get-forecast", 14 # 25); ("weather", "get-alerts", 1 # 2);
     ("calculator", "add", 1 # 10); ("calculator", "multiply", 1 # 25)].
Proof. vm_compute. reflexivity. Qed.

Example add_query_finds_add :
  hd_error (rankToolsForQuery codeUnitCompare "add two numbers"
              testServerTools testServerConfigs 10)
  = Some addCandidate.
Proof. vm_compute. reflexivity. Qed.

Example empty_query_ranks_nothing :
  rankToolsForQuery codeUnitCompare EmptyString testServerTools testServerConfigs 10 = [].
Proof. vm_compute. reflexivity. Qed.

Example maxResults_is_respected :
  List.length (rankToolsForQuery codeUnitCompare "weather forecast calculation"
                 testServerTools testServerConfigs 2) = 2%nat.
Proof. vm_compute. reflexivity. Qed.

Example registry_of_testConfig :
  getServerIds (newServerRegistry testConfig) = ["server1"; "server2"] /\
  hasServer (newServerRegistry testConfig) "disabled" = false /\
  hasServer (newServerRegistry testConfig) "unknown" = false.
Proof. repeat split. Qed.

(** ** The statements at sample inputs *)

Lemma C1_listTools_witness :
  listTools (healthyWorld calculatorTools) "server1" 2000 cachedState
    = (Ok weatherTools, cachedState) /\
  (fetchCount
     (trace (snd (listTools (healthyWorld calculatorTools) "server1" 10
                    (snd (listTools (healthyWorld calculatorTools) "server1" 0
                            (initialState testConfig))))))
   <= fetchCount (trace (initialState testConfig)) + 1)%nat /\
  (exists s1 server1,
     listTools (healthyWorld calculatorTools) "server1" 0 (initialState testConfig)
       = (Ok calculatorTools, s1) /\
     fetchCount (trace s1) = 1%nat /\
     mapGet (servers (registry s1)) "server1" = Some server1 /\
     cachedTools server1 = Some {| tools := calculatorTools; fetchedAt := 0 |}) /\
  (exists s1 server1,
     listTools (healthyWorld calculatorTools) "server1" 61000 cachedState
       = (Ok calculatorTools, s1) /\
     fetchCount (trace s1) = 1%nat /\
     mapGet (servers (registry s1)) "server1" = Some server1 /\
     cachedTools server1 = Some {| tools := calculatorTools; fetchedAt := 61000 |}).
Proof.
  split; [|split; [|split]].
  - destruct (@C1_listTools_uses_the_cache_within_ttl
                (healthyWorld calculatorTools) "server1" 2000 cachedState cachedRow
                eq_refl) as [H _].
    exact (H _ eq_refl eq_refl).
  - destruct (@C1_listTools_uses_the_cache_within_ttl
                (healthyWorld calculatorTools) "server1" 0 (initialState testConfig)
                freshRow eq_refl) as (_ & H & _).
    assert (E1 : listTools (healthyWorld calculatorTools) "server1" 0
                   (initialState testConfig)
                 = (Ok calculatorTools,
                    snd (listTools (healthyWorld calculatorTools) "server1" 0
                           (initialState testConfig))))
      by (vm_compute; reflexivity).
    exact (H 10%Z _ _ _ _ E1 (surjective_pairing _) eq_refl).
  - destruct (@C1_listTools_uses_the_cache_within_ttl
                (healthyWorld calculatorTools) "server1" 0 (initialState testConfig)
                freshRow eq_refl) as (_ & _ & H).
    destruct (H (or_introl eq_refl)) as [_ H'].
    exact (H' noArgs calculatorTools (wf_initialState testConfig) eq_refl
              (fun _ => eq_refl) (fun _ => eq_refl)).
  - destruct (@C1_listTools_uses_the_cache_within_ttl
                (healthyWorld calculatorTools) "server1" 61000 cachedState
                cachedRow eq_refl) as (_ & _ & H).
    assert (Hexpired : (cacheTtlMs (registry cachedState)
                        <= 61000 - fetchedAt {| tools := weatherTools;
                                                fetchedAt := 1000 |})%Z)
      by (vm_compute; discriminate).
    destruct (H (or_intror (ex_intro _ _ (conj eq_refl Hexpired)))) as [_ H'].
    assert (Hwf : wfState cachedState).
    { split.
      - constructor; [intros [] | constructor].
      - intros k sv c [E|[]]. injection E as _ <-. discriminate. }
    exact (H' noArgs calculatorTools Hwf eq_refl
              (fun _ => eq_refl) (fun _ => eq_refl)).
Defined.

Lemma C2_listAllTools_witness :
  exists m s',
    listAllTools (oneBrokenWorld "server2" weatherTools) (fun _ => 0%Z)
      (initialState testConfig) = (Ok m, s') /\
    mapKeys m = ["server1"; "server2"] /\
    mapGet m "server1" = Some weatherTools /\
    mapGet m "server2" = Some [].
Proof.
  destruct (@C2_listAllTools_covers_every_id
              (oneBrokenWorld "server2" weatherTools) (fun _ => 0%Z)
              (initialState testConfig))
    as (m & s' & Hrun & Hkeys & _ & Hrows).
  - apply (wf_initialState testConfig).
  - exists m, s'. split; [exact Hrun|]. split; [exact Hkeys|]. split.
    + destruct (Hrows [] "server1" ["server2"] eq_refl) as (_ & _ & Hok).
      apply Hok. vm_compute. reflexivity.
    + destruct (Hrows ["server1"] "server2" [] eq_refl) as (_ & Hfail & _).
      apply (Hfail "listing failed"). vm_compute. reflexivity.
Defined.

Lemma C3_errors_witness :
  registry (snd (getClient (unreachableWorld "refused") "server1"
                   (initialState testConfig)))
    = registry (initialState testConfig) /\
  snapshots (registry (snd (listTools (brokenWorld "boom") "server1" 70000 cachedState)))
    = snapshots (registry cachedState).
Proof.
  destruct (@C3_errors_keep_the_registry (unreachableWorld "refused") "server1"
              (initialState testConfig)) as [H1 _].
  destruct (@C3_errors_keep_the_registry (brokenWorld "boom") "server1" cachedState)
    as [_ H2].
  split.
  - refine (proj1 (H1 (connectFailed "server1" "refused") _ _)).
    vm_compute. reflexivity.
  - refine (H2 70000%Z "boom" _ _). vm_compute. reflexivity.
Defined.

Lemma C4_errors_witness :
  getClient (unreachableWorld "refused") "server1" (initialState testConfig)
    = (Err (connectFailed "server1" "refused"),
       {| registry := registry (initialState testConfig);
          trace := [EvConnect "server1"; EvClose "server1"] |}) /\
  fst (listTools (brokenWorld "boom") "server1" 0 (initialState testConfig))
    = Err "boom" /\
  trace (snd (listTools (brokenWorld "boom") "server1" 0 (initialState testConfig)))
    = [EvConnect "server1"; EvListTools "server1"].
Proof.
  split.
  - destruct (@C4_errors_reach_the_caller (unreachableWorld "refused") "server1"
                (initialState testConfig) (wf_initialState testConfig))
      as (_ & H & _).
    exact (proj1 (H freshRow noArgs "refused" eq_refl eq_refl eq_refl eq_refl)).
  - destruct (@C4_errors_reach_the_caller (brokenWorld "boom") "server1"
                (initialState testConfig) (wf_initialState testConfig))
      as (_ & _ & _ & H & _).
    assert (E : getClient (brokenWorld "boom") "server1" (initialState testConfig)
                = (Ok (CStdio {| stdio_serverId := "server1"; stdio_config := noArgs;
                                 stdio_client := true; stdio_transport := true;
                                 stdio_process := true; stdio_connected := true |}),
                   snd (getClient (brokenWorld "boom") "server1"
                          (initialState testConfig))))
      by (vm_compute; reflexivity).
    rewrite (H 0%Z freshRow _ _ "boom" eq_refl eq_refl E eq_refl).
    split; reflexivity.
Defined.

(** The values of some binary64 numbers, and the one product that makes
    the two tools of [roundingServerTools] differ: 0.375 times 0.6 is just
    below 0.225. *)
Example binary64_numbers :
  Qred Binary64.point4 = 3602879701896397 # 9007199254740992 /\
  Qred Binary64.point6 = 5404319552844595 # 9007199254740992 /\
  Qred (Binary64.mul (3 # 8) Binary64.point6) = 2026619832316723 # 9007199254740992 /\
  Binary64.mul (3 # 8) Binary64.point6 < 225 # 1000 /\
  Qred (Binary64.add Binary64.point4 Binary64.point6) = 1 /\
  Qred (Binary64.div 1 3) = 6004799503160661 # 18014398509481984.
Proof. repeat split; vm_compute; reflexivity. Qed.

(** In exact arithmetic the two tools both score 0.23 and the name
    decides; the code puts [zzz] first, see the instance of C5 below. *)
Example exact_arithmetic_ranks_otherwise :
  map (fun r => (toolName r, Qred (score r)))
      (rankToolsForQuery codeUnitCompare "alpha beta gamma delta"
         roundingServerTools roundingServerConfigs 5)
    = [("kkk", 23 # 100); ("zzz", 23 # 100)].
Proof. vm_compute. reflexivity. Qed.

Lemma C5_ranking_witness :
  let result := Binary64.rankToolsForQuery codeUnitCompare "alpha beta gamma delta"
                  roundingServerTools roundingServerConfigs 5 in
  StronglySorted (rankedBefore codeUnitCompare) result /\
  (Z.of_nat (List.length result) <= 5)%Z /\
  map (fun r => (toolName r, Qred (score r))) result
    = [("zzz", 8286623314361713 # 36028797018963968);
       ("kkk", 7926335344172073 # 36028797018963968)].
Proof.
  destruct (@C5_ranking_is_scored_sorted_and_truncated codeUnitCompare
              codeUnitCompare_total codeUnitCompare_trans
              "alpha beta gamma delta" roundingServerTools roundingServerConfigs 5)
    as (_ & _ & _ & Hs & Hl & _).
  - discriminate.
  - split; [exact Hs|]. split; [exact Hl|]. vm_compute. reflexivity.
Defined.


Lemma C7_registered_ids_witness :
  hasServer (newServerRegistry testConfig) "disabled" = false /\
  hasServer (newServerRegistry testConfig) "unknown" = false.
Proof.
  destruct (C7_registered_ids_are_the_enabled_ones testConfig) as (_ & _ & _ & H & _).
  split; apply H; intros c Hin Hid;
    repeat (destruct Hin as [<-|Hin]; [try reflexivity; discriminate Hid|]);
    destruct Hin.
Defined.

Lemma C8_closeAll_witness :
  exists s',
    closeAll cachedState = (Ok tt, s') /\
    snapshots (registry s') = snapshots (registry cachedState) /\
    listTools (healthyWorld calculatorTools) "server1" 2000 s' = (Ok weatherTools, s').
Proof.
  destruct (@C8_closeAll_keeps_the_cache (healthyWorld calculatorTools) "server1" 2000
              cachedState cachedRow {| tools := weatherTools; fetchedAt := 1000 |}
              eq_refl eq_refl eq_refl)
    as (s' & H1 & _ & H2 & _ & _ & _ & H3).
  exists s'. split; [exact H1|]. split; [exact H2 | exact H3].
Defined.


(* ================================================================= *)
(** * Part III: further properties of the code *)
(* ================================================================= *)

(** ** The tokenizer *)

Lemma append_empty_r (a : string) : (a ++ EmptyString)%string = a.
Proof. induction a as [|x a IH]; simpl; [reflexivity | now rewrite IH]. Qed.

Lemma chars_append (a b : string) : chars (a ++ b) = chars a ++ chars b.
Proof. induction a as [|x a IH]; simpl; [reflexivity | now rewrite IH]. Qed.

Lemma chars_toLowerCase (s : string) : chars (toLowerCase s) = map lowerChar (chars s).
Proof. induction s as [|x s IH]; simpl; [reflexivity | now rewrite IH]. Qed.

Lemma toLowerCase_append (a b : string) :
  toLowerCase (a ++ b) = (toLowerCase a ++ toLowerCase b)%string.
Proof. induction a as [|x a IH]; simpl; [reflexivity | now rewrite IH]. Qed.

Lemma lowerChar_idempotent (c : ascii) : lowerChar (lowerChar c) = lowerChar c.
Proof.
  destruct c as [[] [] [] [] [] [] [] []]; vm_compute; reflexivity.
Qed.

Lemma isSeparator_lowerChar (c : ascii) : isSeparator (lowerChar c) = isSeparator c.
Proof.
  destruct c as [[] [] [] [] [] [] [] []]; vm_compute; reflexivity.
Qed.

Lemma toLowerCase_fixed (s : string) :
  (forall c, In c (chars s) -> lowerChar c = c) -> toLowerCase s = s.
Proof.
  induction s as [|x s IH]; simpl; intros H; [reflexivity|].
  rewrite (H x) by now left. rewrite IH; [reflexivity|]. intros c Hc. apply H. now right.
Qed.

(** Every character of a piece was read from the input or was already in
    the piece being read. *)
Lemma splitRuns_chars (s : string) : forall cur b p c,
  In p (splitRuns s cur b) -> In c (chars p) ->
  In c (chars cur) \/ (In c (chars s) /\ isSeparator c = false).
Proof.
  induction s as [|x s IH]; intros cur b p c Hp Hc; simpl in Hp.
  - destruct Hp as [<-|[]]. now left.
  - destruct (isSeparator x) eqn:Ex.
    + assert (Hrest : forall cur' b', In p (splitRuns s cur' b') ->
                In c (chars cur') \/ (In c (chars (String x s)) /\ isSeparator c = false)).
      { intros cur' b' Hp'. destruct (IH _ _ _ _ Hp' Hc) as [H|[H H']]; [now left|].
        right. split; [now right | assumption]. }
      destruct b.
      * apply (Hrest _ _ Hp).
      * destruct Hp as [<-|Hp]; [now left|].
        destruct (Hrest _ _ Hp) as [[]|H]. now right.
    + destruct (IH _ _ _ _ Hp Hc) as [H|[H H']].
      * rewrite chars_append in H. apply in_app_or in H. simpl in H.
        destruct H as [H|[<-|[]]]; [now left|]. right. split; [now left | assumption].
      * right. split; [now right | assumption].
Qed.

Lemma tokens_are_clean (text t : string) :
  In t (tokenize text) ->
  t <> EmptyString /\
  (forall c, In c (chars t) ->
     isSeparator c = false /\ exists c0, In c0 (chars text) /\ c = lowerChar c0) /\
  toLowerCase t = t.
Proof.
  unfold tokenize, split. intros H. apply filter_In in H. destruct H as [Hp Hne].
  assert (Hc : forall c, In c (chars t) ->
             isSeparator c = false /\ exists c0, In c0 (chars text) /\ c = lowerChar c0).
  { intros c Hc. destruct (splitRuns_chars _ _ _ _ _ Hp Hc) as [[]|[H Hs]].
    split; [assumption|]. rewrite chars_toLowerCase in H.
    apply in_map_iff in H. destruct H as (c0 & <- & H0). eauto. }
  split; [|split].
  - intros ->. discriminate.
  - exact Hc.
  - apply toLowerCase_fixed. intros c Hin.
    destruct (Hc c Hin) as [_ (c0 & _ & ->)]. apply lowerChar_idempotent.
Qed.

(** X1. Every token is non-empty, holds none of the separating characters
    and is in lower case; each of its characters is the lower case of a
    character of the text. *)
Theorem X1_tokens_are_clean (text t : string) :
  In t (tokenize text) ->
  t <> EmptyString /\
  (forall c, In c (chars t) ->
     isSeparator c = false /\ exists c0, In c0 (chars text) /\ c = lowerChar c0) /\
  toLowerCase t = t.
Proof. apply tokens_are_clean. Qed.

(** A run of characters that do not separate goes to the piece being
    read. *)
Lemma splitRuns_run (t : string) : forall s cur b,
  (forall c, In c (chars t) -> isSeparator c = false) ->
  splitRuns (t ++ s) cur b =
  splitRuns s (cur ++ t) (match t with EmptyString => b | _ => false end).
Proof.
  induction t as [|x t IH]; intros s cur b H; simpl.
  - now rewrite append_empty_r.
  - rewrite (H x) by now left. rewrite IH by (intros c Hc; apply H; now right).
    rewrite append_assoc. simpl. now destruct t.
Qed.

Lemma splitRuns_joined (ts : list string) : forall b,
  ts <> [] -> Forall cleanToken ts ->
  filter (fun t => (0 <? String.length t)%nat)
         (splitRuns (String.concat " " ts) EmptyString b) = ts.
Proof.
  induction ts as [|t ts IH]; intros b Hne Hall; [congruence|].
  inversion Hall as [|? ? [Ht Hs] Hall']; subst.
  assert (Hlen : (0 <? String.length t)%nat = true) by (destruct t; [congruence | reflexivity]).
  destruct ts as [|t2 ts].
  - cbn [String.concat]. rewrite <- (append_empty_r t) at 1.
    rewrite splitRuns_run by assumption.
    cbn [splitRuns filter append]. now rewrite Hlen.
  - change (String.concat " " (t :: t2 :: ts))
      with (t ++ (" " ++ String.concat " " (t2 :: ts)))%string.
    rewrite splitRuns_run by assumption. cbn [append].
    replace (match t with EmptyString => b | String _ _ => false end) with false
      by (destruct t; [congruence | reflexivity]).
    change (" " ++ String.concat " " (t2 :: ts))%string
      with (String " "%char (String.concat " " (t2 :: ts))).
    cbn [splitRuns]. change (isSeparator " "%char) with true. cbv iota.
    cbn [filter]. rewrite Hlen. f_equal.
    apply IH; [discriminate | assumption].
Qed.

(** X2. Tokens joined by spaces tokenize to themselves: tokenizing the
    tokens of a text again changes nothing. *)
Theorem X2_tokenize_is_idempotent (text : string) :
  tokenize (String.concat " " (tokenize text)) = tokenize text.
Proof.
  assert (Hall : Forall cleanToken (tokenize text)).
  { apply Forall_forall. intros t Ht.
    destruct (tokens_are_clean text t Ht) as (Hne & Hc & _).
    split; [assumption|]. intros c Hin. apply (Hc c Hin). }
  assert (Hlow : toLowerCase (String.concat " " (tokenize text))
                 = String.concat " " (tokenize text)).
  { apply toLowerCase_fixed. intros c Hc.
    assert (Hgen : forall ts, (forall t, In t ts -> toLowerCase t = t) ->
              forall c, In c (chars (String.concat " " ts)) -> lowerChar c = c).
    { clear. induction ts as [|t ts IH]; intros H c Hc; [destruct Hc|].
      assert (Ht : forall c, In c (chars t) -> lowerChar c = c).
      { intros c0 Hc0. pose proof (H t (or_introl eq_refl)) as E.
        apply (f_equal chars) in E. rewrite chars_toLowerCase in E.
        clear - E Hc0. revert E Hc0. induction (chars t) as [|y l IHl]; simpl; [tauto|].
        intros [= E1 E2] [<-|Hin]; auto. }
      destruct ts as [|t2 ts]; [now apply Ht|].
      change (String.concat " " (t :: t2 :: ts))
        with (t ++ (" " ++ String.concat " " (t2 :: ts)))%string in Hc.
      rewrite chars_append in Hc. apply in_app_or in Hc.
      destruct Hc as [Hc|[<-|Hc]]; [now apply Ht | reflexivity |].
      apply IH; [|assumption]. intros t' Ht'. apply H. now right. }
    apply (Hgen (tokenize text)); [|assumption].
    intros t Ht. apply (tokens_are_clean text t Ht). }
  unfold tokenize at 1. rewrite Hlow. unfold split.
  destruct (tokenize text) as [|t ts] eqn:E; [reflexivity|].
  apply splitRuns_joined; [discriminate | assumption].
Qed.

Lemma splitRuns_separators (s : string) : forall b,
  (forall c, In c (chars s) -> isSeparator c = true) ->
  filter (fun t => (0 <? String.length t)%nat) (splitRuns s EmptyString b) = [].
Proof.
  induction s as [|x s IH]; intros b H; [reflexivity|].
  cbn [splitRuns]. rewrite (H x) by now left.
  assert (Hs : forall c, In c (chars s) -> isSeparator c = true)
    by (intros c Hc; apply H; now right).
  destruct b; [now apply IH|]. cbn [filter String.length Nat.ltb Nat.leb]. now apply IH.
Qed.

Lemma splitRuns_cur (s : string) : forall cur b,
  cur <> EmptyString -> exists p, In p (splitRuns s cur b) /\ p <> EmptyString.
Proof.
  induction s as [|x s IH]; intros cur b Hne; cbn [splitRuns].
  - exists cur. split; [now left | assumption].
  - destruct (isSeparator x).
    + destruct b; [now apply IH|]. exists cur. split; [now left | assumption].
    + apply IH. destruct cur; [congruence | discriminate].
Qed.

Lemma splitRuns_token (s : string) : forall cur b c,
  In c (chars s) -> isSeparator c = false ->
  exists p, In p (splitRuns s cur b) /\ p <> EmptyString.
Proof.
  induction s as [|x s IH]; intros cur b c Hc Hs; [destruct Hc|].
  cbn [splitRuns]. destruct Hc as [->|Hc].
  - rewrite Hs. apply splitRuns_cur. destruct cur; discriminate.
  - destruct (isSeparator x).
    + destruct b; [now apply (IH _ _ c)|].
      destruct (IH EmptyString true c Hc Hs) as (p & Hp & Hne).
      exists p. split; [now right | assumption].
    + now apply (IH _ _ c).
Qed.

Lemma tokenize_empty_iff (text : string) :
  tokenize text = [] <-> forall c, In c (chars text) -> isSeparator c = true.
Proof.
  unfold tokenize, split. split.
  - intros H c Hc. destruct (isSeparator c) eqn:E; [reflexivity|]. exfalso.
    assert (Hl : In (lowerChar c) (chars (toLowerCase text)))
      by (rewrite chars_toLowerCase; now apply in_map).
    destruct (splitRuns_token _ EmptyString false _ Hl) as (p & Hp & Hne).
    { now rewrite isSeparator_lowerChar. }
    assert (Hin : In p (filter (fun t => (0 <? String.length t)%nat)
                          (splitRuns (toLowerCase text) EmptyString false))).
    { apply filter_In. split; [assumption|]. destruct p; [congruence | reflexivity]. }
    rewrite H in Hin. destruct Hin.
  - intros H. apply splitRuns_separators. intros c Hc.
    rewrite chars_toLowerCase in Hc. apply in_map_iff in Hc.
    destruct Hc as (c0 & <- & Hc0). rewrite isSeparator_lowerChar. now apply H.
Qed.

(** ** The ranker *)

(** X3. A query has no token exactly when all its characters separate
    (the empty query among them), and such a query is answered by the
    empty list whatever the upstreams offer. *)
Theorem X3_query_without_tokens_ranks_nothing (query : string) :
  (tokenize query = [] <-> forall c, In c (chars query) -> isSeparator c = true) /\
  ((forall c, In c (chars query) -> isSeparator c = true) ->
   forall localeCompare serverTools serverConfigs limit,
     rankToolsForQuery localeCompare query serverTools serverConfigs limit = []).
Proof.
  split; [apply tokenize_empty_iff|].
  intros H lc st sc limit. apply tokenize_empty_iff in H.
  unfold rankToolsForQuery. now rewrite H.
Qed.




Lemma allCandidates_configured q st sc :
  allCandidates q (filter (fun e => mapHas sc (fst e)) st) sc = allCandidates q st sc.
Proof.
  unfold allCandidates. induction st as [|[sid tls] st IH]; [reflexivity|].
  cbn [filter fst]. unfold mapHas at 1.
  destruct (mapGet sc sid) as [cfg|] eqn:Hg.
  - cbn [flat_map]. now rewrite IH.
  - rewrite IH. cbn [flat_map]. unfold serverCandidates at 2. now rewrite Hg.
Qed.

(** X5. An upstream that has tools but no configuration is skipped: the
    ranking is the same as if the upstream were not in the map of tools. *)
Theorem X5_unconfigured_upstreams_are_skipped
    (localeCompare : string -> string -> comparison)
    (query : string) (serverTools : JsMap (list ToolInfo))
    (serverConfigs : JsMap ServerConfig) (limit : Z) :
  rankToolsForQuery localeCompare query
    (filter (fun e => mapHas serverConfigs (fst e)) serverTools) serverConfigs limit
  = rankToolsForQuery localeCompare query serverTools serverConfigs limit.
Proof.
  unfold rankToolsForQuery. now rewrite allCandidates_configured.
Qed.




Lemma toolCandidates_length q sid cfg tool :
  (List.length (toolCandidates q sid cfg tool) <= 1)%nat.
Proof. unfold toolCandidates. cbv zeta. destruct (Qpositive _); simpl; lia. Qed.

Lemma allCandidates_length q st sc :
  (List.length (allCandidates q st sc) <= List.length (flat_map snd st))%nat.
Proof.
  unfold allCandidates. induction st as [|[sid tls] st IH]; simpl; [lia|].
  rewrite !length_app. apply Nat.add_le_mono; [|assumption].
  destruct (mapGet sc sid) as [cfg|]; [|simpl; lia].
  induction tls as [|tool tls IHt]; simpl; [lia|].
  rewrite length_app. pose proof (toolCandidates_length q sid cfg tool). lia.
Qed.

(** X7. With a limit of at least the number of tools on offer nothing is
    cut: every tool of a configured upstream whose combination, computed in
    binary64 arithmetic as the code computes it, is positive has its
    candidate among the results. *)
Theorem X7_large_limit_keeps_every_match
    (localeCompare : string -> string -> comparison)
    (query : string) (serverTools : JsMap (list ToolInfo))
    (serverConfigs : JsMap ServerConfig) (limit : Z)
    (sid : string) (tls : list ToolInfo) (cfg : ServerConfig) (tool : ToolInfo) :
  (Z.of_nat (List.length (flat_map snd serverTools)) <= limit)%Z ->
  In (sid, tls) serverTools ->
  mapGet serverConfigs sid = Some cfg ->
  In tool tls ->
  0 < Binary64.add
        (Binary64.mul (Binary64.calculateOverlapScore (tokenize query)
                         (serverTokensOf cfg)) Binary64.point4)
        (Binary64.mul (Binary64.calculateOverlapScore (tokenize query)
                         (toolTokensOf tool)) Binary64.point6) ->
  exists r,
    In r (Binary64.rankToolsForQuery localeCompare query serverTools serverConfigs
            limit) /\
    Binary64.candidateOf (tokenize query) sid cfg tool r.
Proof.
  intros Hl Hst Hsc Htl Hpos.
  set (q := tokenize query) in *.
  set (r := {| serverId := sid; serverName := cfg_name cfg; toolName := tool_name tool;
               toolDescription := tool_description tool;
               score := Binary64.round2
                          (Binary64.combinedScore
                             (Binary64.calculateOverlapScore q (serverTokensOf cfg))
                             (Binary64.calculateOverlapScore q (toolTokensOf tool)));
               reason := buildReason q (serverTokensOf cfg) (toolTokensOf tool) |}).
  assert (Hr : In r (Binary64.toolCandidates q sid cfg tool)).
  { unfold Binary64.toolCandidates. cbv zeta.
    apply Qpositive_iff in Hpos. unfold Binary64.combinedScore at 1.
    rewrite Hpos. now left. }
  assert (Hc : Binary64.candidateOf q sid cfg tool r) by now apply toolCandidates64_In.
  assert (Hall : In r (Binary64.allCandidates q serverTools serverConfigs)).
  { apply allCandidates64_In. exists sid, tls, cfg, tool. auto. }
  exists r. split; [|exact Hc].
  unfold Binary64.rankToolsForQuery. fold q. rewrite sortRanked64.
  destruct q as [|t ts] eqn:Eq.
  - rewrite allCandidates64_no_tokens in Hall. destruct Hall.
  - cbn [List.length Nat.eqb]. unfold slice0.
    assert (Hlim : (0 <= limit)%Z) by lia.
    apply Z.ltb_ge in Hlim. rewrite Hlim.
    rewrite firstn_all2.
    + apply (Permutation_in r (sortRanked_perm localeCompare _)). exact Hall.
    + rewrite <- (Permutation_length (sortRanked_perm localeCompare _)).
      pose proof (allCandidates64_length (t :: ts) serverTools serverConfigs). lia.
Qed.

Lemma newSet_In (l : list string) x : In x (newSet l) <-> In x l.
Proof.
  induction l as [|y l IH]; simpl; [tauto|]. rewrite filter_In, IH.
  destruct (String.eqb x y) eqn:E.
  - apply String.eqb_eq in E. subst. tauto.
  - split; [tauto|]. intros [H|H]; [apply String.eqb_neq in E; congruence|].
    right. split; [assumption | reflexivity].
Qed.

Lemma newSet_NoDup (l : list string) : NoDup (newSet l).
Proof.
  induction l as [|y l IH]; simpl; constructor.
  - rewrite filter_In. intros [_ H]. now rewrite String.eqb_refl in H.
  - now apply NoDup_filter.
Qed.

Lemma firstMatches_In (q t : list string) x :
  In x (firstMatches q t) -> In x t /\ exists qt, In qt q /\ reasonMatch qt x = true.
Proof.
  unfold firstMatches. rewrite in_flat_map. intros (qt & Hq & Hx).
  destruct (find (reasonMatch qt) t) as [y|] eqn:E; [|destruct Hx].
  destruct Hx as [<-|[]]. apply find_some in E. destruct E. eauto.
Qed.

Lemma reasonTokens_props (q t : list string) :
  (List.length (reasonTokens q t) <= 3)%nat /\
  NoDup (reasonTokens q t) /\
  (forall x, In x (reasonTokens q t) ->
     In x t /\ exists qt, In qt q /\ reasonMatch qt x = true) /\
  (reasonTokens q t = [] <-> firstMatches q t = []).
Proof.
  unfold reasonTokens. split; [|split; [|split; [|split]]].
  - rewrite length_firstn. lia.
  - apply (NoDup_app_remove_r _ (skipn 3 (newSet (firstMatches q t)))).
    rewrite firstn_skipn. apply newSet_NoDup.
  - intros x Hx. apply (@firstMatches_In q t x). apply newSet_In.
    rewrite <- (firstn_skipn 3 (newSet (firstMatches q t))). apply in_or_app. now left.
  - destruct (firstMatches q t); [reflexivity | discriminate].
  - intros ->. reflexivity.
Qed.

(** X8. A reason has a clause for the server and a clause for the tool,
    each present exactly when it has tokens to name.  A clause names at
    most three tokens, all different, each a token of its side that matches
    some query token; without any clause the reason is the fixed text. *)
Theorem X8_reason_clauses (queryTokens serverTokens toolTokens : list string) :
  let sm := reasonTokens queryTokens serverTokens in
  let tm := reasonTokens queryTokens toolTokens in
  ((List.length sm <= 3)%nat /\ NoDup sm /\
   forall x, In x sm ->
     In x serverTokens /\ exists qt, In qt queryTokens /\ reasonMatch qt x = true) /\
  ((List.length tm <= 3)%nat /\ NoDup tm /\
   forall x, In x tm ->
     In x toolTokens /\ exists qt, In qt queryTokens /\ reasonMatch qt x = true) /\
  buildReason queryTokens serverTokens toolTokens =
    match sm, tm with
    | [], [] => "low relevance match"
    | _ :: _, [] => ("server matches: " ++ String.concat ", " sm)%string
    | [], _ :: _ => ("tool matches: " ++ String.concat ", " tm)%string
    | _ :: _, _ :: _ =>
        (("server matches: " ++ String.concat ", " sm) ++ "; "
         ++ ("tool matches: " ++ String.concat ", " tm))%string
    end.
Proof.
  cbv zeta.
  destruct (reasonTokens_props queryTokens serverTokens) as (Hs1 & Hs2 & Hs3 & Hs4).
  destruct (reasonTokens_props queryTokens toolTokens) as (Ht1 & Ht2 & Ht3 & Ht4).
  split; [auto|]. split; [auto|].
  assert (Hb : buildReason queryTokens serverTokens toolTokens =
    match firstMatches queryTokens serverTokens, firstMatches queryTokens toolTokens with
    | [], [] => "low relevance match"
    | _ :: _, [] =>
        ("server matches: "
         ++ String.concat ", " (reasonTokens queryTokens serverTokens))%string
    | [], _ :: _ =>
        ("tool matches: "
         ++ String.concat ", " (reasonTokens queryTokens toolTokens))%string
    | _ :: _, _ :: _ =>
        (("server matches: "
          ++ String.concat ", " (reasonTokens queryTokens serverTokens)) ++ "; "
         ++ ("tool matches: "
             ++ String.concat ", " (reasonTokens queryTokens toolTokens)))%string
    end).
  { unfold buildReason, renderMatches, reasonTokens.
    destruct (firstMatches queryTokens serverTokens);
      destruct (firstMatches queryTokens toolTokens); reflexivity. }
  rewrite Hb. clear Hb Hs1 Hs2 Hs3 Ht1 Ht2 Ht3.
  destruct (firstMatches queryTokens serverTokens), (firstMatches queryTokens toolTokens),
    (reasonTokens queryTokens serverTokens), (reasonTokens queryTokens toolTokens);
    try reflexivity; exfalso;
    first [ discriminate (proj1 Hs4 eq_refl) | discriminate (proj2 Hs4 eq_refl)
          | discriminate (proj1 Ht4 eq_refl) | discriminate (proj2 Ht4 eq_refl) ].
Qed.

(** ** The registry *)

(** X9. For an id that is not registered, [getClient], [listTools] and
    [callTool] fail with the message [Unknown server: "id"] and leave the
    registry and the record of requests as they were; [getServerConfig]
    finds nothing. *)
Theorem X9_unregistered_id_fails_untouched (W : World) (id : string) (s : State) :
  hasServer (registry s) id = false ->
  getClient W id s = (Err (unknownServer id), s) /\
  (forall now, listTools W id now s = (Err (unknownServer id), s)) /\
  (forall n a, callTool W id n a s = (Err (unknownServer id), s)) /\
  getServerConfig (registry s) id = None.
Proof.
  unfold hasServer, mapHas, getServerConfig. intros Hh.
  destruct (mapGet (servers (registry s)) id) eqn:Hg; [discriminate|].
  repeat split.
  - now apply getClient_unknown.
  - intros now. now apply listTools_unknown.
  - intros n a. rewrite callTool_unfold. now rewrite (getClient_unknown W _ _ Hg).
Qed.

Lemma connectedClient_of (server : RegisteredServer) c :
  client server = Some c -> connected c = true -> connectedClient server = Some c.
Proof. unfold connectedClient. intros -> ->. reflexivity. Qed.

(** X10. [getClient] is idempotent: once it has handed out a client, the
    next call hands out the same client and changes nothing, so no second
    connection is opened. *)
Theorem X10_getClient_is_idempotent (W : World) (id : string) (s s1 : State)
    (c : McpClient) :
  getClient W id s = (Ok c, s1) ->
  getClient W id s1 = (Ok c, s1).
Proof.
  intros H.
  destruct (getClient_spec _ _ _ H) as (evs & _ & _ & _ & _ & Hcon & server & Hg & Hcase).
  destruct Hcase as [[Hcc ->]|(_ & _ & _ & _ & Hreg)].
  - now apply getClient_connected with (server := server).
  - apply getClient_connected with (server := withClient (Some c) server).
    + rewrite Hreg. simpl. now apply mapGet_update_same.
    + now apply connectedClient_of.
Qed.

Lemma freshTools_none_after_clear ttl now server :
  freshTools ttl now (withCachedTools None server) = None.
Proof. reflexivity. Qed.

(** X11. After an invalidation, of this id or of all, [listTools] does
    not answer from the cache: a call that returns tools has asked the
    client for them, once, and stored them under the time of the call. *)
Theorem X11_listTools_fetches_after_invalidation
    (W : World) (id : string) (now : Z) (s : State) (server : RegisteredServer)
    (o : option string) (ts : list ToolInfo) (s1 : State) :
  mapGet (servers (registry s)) id = Some server ->
  o = None \/ (o = Some id /\ id <> EmptyString) ->
  listTools W id now (invalidateCache o s) = (Ok ts, s1) ->
  fetchCount (trace s1) = (fetchCount (trace s) + 1)%nat /\
  exists server1, mapGet (servers (registry s1)) id = Some server1 /\
    cachedTools server1 = Some {| tools := ts; fetchedAt := now |}.
Proof.
  intros Hg Ho H.
  assert (Hrow : mapGet (servers (registry (invalidateCache o s))) id
                 = Some (withCachedTools None server) /\
                 trace (invalidateCache o s) = trace s).
  { destruct Ho as [->|[-> Hne]].
    - simpl. now rewrite mapGet_map, Hg.
    - unfold invalidateCache. rewrite Hg. destruct id; [congruence|]. simpl.
      now rewrite (mapGet_update_same _ _ _ Hg). }
  destruct Hrow as [Hrow Htr].
  destruct (listTools_spec _ _ _ _ H)
    as (evs & Ht & _ & _ & _ & _ & _ & sv & Hsv & Hcase).
  rewrite Hrow in Hsv. injection Hsv as <-.
  destruct Hcase as [[Hfresh _]|(_ & Hone & Hstored)].
  - rewrite freshTools_none_after_clear in Hfresh. discriminate.
  - split; [|exact Hstored].
    rewrite Ht, Htr. unfold fetchCount in *. rewrite count_app. lia.
Qed.

(** X12. [invalidateCache] with a registered, non-empty id discards the
    snapshot of that id only; without an id it discards every snapshot.
    Either way configurations, clients and the record of requests stay. *)
Theorem X12_invalidateCache_discards_only_snapshots
    (id : string) (s : State) (server : RegisteredServer) :
  mapGet (servers (registry s)) id = Some server ->
  id <> EmptyString ->
  (let s' := invalidateCache (Some id) s in
   mapGet (servers (registry s')) id = Some (withCachedTools None server) /\
   (forall k, k <> id ->
      mapGet (servers (registry s')) k = mapGet (servers (registry s)) k) /\
   clients (registry s') = clients (registry s) /\
   configs (registry s') = configs (registry s) /\
   trace s' = trace s) /\
  (let s' := invalidateCache None s in
   (forall k c, In (k, c) (snapshots (registry s')) -> c = None) /\
   clients (registry s') = clients (registry s) /\
   configs (registry s') = configs (registry s) /\
   trace s' = trace s).
Proof.
  intros Hg Hne. split.
  - destruct (@invalidateCache_registered id s server Hg Hne) as (H1 & H2 & H3 & H4).
    cbv zeta. repeat split; try assumption.
    unfold invalidateCache. rewrite Hg. destruct id; [congruence|]. cbn [truthy].
    cbn [String.length Nat.ltb Nat.leb registry].
    now rewrite configs_mapUpdate, withServers_same.
  - cbv zeta. split; [apply invalidateCache_all|].
    unfold clients, configs. simpl. rewrite !map_map. simpl. auto.
Qed.

Lemma closeEach_no_clients (m : JsMap RegisteredServer) tr :
  (forall k sv, In (k, sv) m -> client sv = None) -> closeEach m tr = (m, tr).
Proof.
  induction m as [|[k sv] m IH]; intros H; simpl; [reflexivity|].
  rewrite (H k sv) by now left. rewrite IH; [reflexivity|].
  intros k' sv' Hin. apply (H k'). now right.
Qed.

Lemma closeEach_events (m : JsMap RegisteredServer) : forall tr,
  exists evs, snd (closeEach m tr) = tr ++ evs /\
    forall e, In e evs ->
      exists k sv c, In (k, sv) m /\ client sv = Some c /\ e = EvClose (clientServerId c).
Proof.
  induction m as [|[k sv] m IH]; intros tr; simpl.
  - exists []. rewrite app_nil_r. split; [reflexivity | intros e []].
  - destruct (client sv) as [c|] eqn:Ec.
    + destruct (clientClose c tr) as [c' tr1] eqn:Ecl.
      assert (Htr1 : exists ev1, tr1 = tr ++ ev1 /\
                forall e, In e ev1 -> e = EvClose (clientServerId c)).
      { destruct c as [c|c]; simpl in Ecl.
        - unfold stdioClose in Ecl. injection Ecl as _ <-.
          destruct (stdio_transport c).
          + exists [EvClose (stdio_serverId c)]. split; [reflexivity|].
            now intros e [<-|[]].
          + exists []. rewrite app_nil_r. split; [reflexivity | intros e []].
        - injection Ecl as _ <-. exists []. rewrite app_nil_r.
          split; [reflexivity | intros e []]. }
      destruct Htr1 as (ev1 & -> & Hev1).
      destruct (IH (tr ++ ev1)) as (evs & Hevs & Hin).
      destruct (closeEach m (tr ++ ev1)) as [rest tr2]. simpl in *.
      exists (ev1 ++ evs). rewrite Hevs, app_assoc. split; [reflexivity|].
      intros e He. apply in_app_or in He. destruct He as [He|He].
      * exists k, sv, c. rewrite (Hev1 e He). auto.
      * destruct (Hin e He) as (k' & sv' & c2 & H1 & H2 & H3).
        exists k', sv', c2. auto.
    + destruct (IH tr) as (evs & Hevs & Hin).
      destruct (closeEach m tr) as [rest tr2]. simpl in *.
      exists evs. split; [assumption|].
      intros e He. destruct (Hin e He) as (k' & sv' & c' & H1 & H2 & H3).
      exists k', sv', c'. auto.
Qed.

(** X13. [closeAll] asks only for closing, and only clients that are
    stored; called again right away it finds no client and changes nothing
    at all. *)
Theorem X13_closeAll_is_idempotent (s : State) :
  (exists evs, trace (snd (closeAll s)) = trace s ++ evs /\
     forall e, In e evs ->
       exists k sv c, In (k, sv) (servers (registry s)) /\ client sv = Some c /\
                      e = EvClose (clientServerId c)) /\
  closeAll (snd (closeAll s)) = (Ok tt, snd (closeAll s)).
Proof.
  split.
  - destruct (closeEach_events (servers (registry s)) (trace s)) as (evs & H1 & H2).
    exists evs. split; [|exact H2]. unfold closeAll.
    destruct (closeEach (servers (registry s)) (trace s)). exact H1.
  - destruct (closeAll_registry s) as (_ & Hm & _).
    set (s1 := snd (closeAll s)) in *. unfold closeAll at 1.
    rewrite closeEach_no_clients.
    + now rewrite withServers_same, state_eta.
    + intros k sv Hin. rewrite Hm in Hin. apply in_map_iff in Hin.
      now destruct Hin as (x & [= _ <-] & _).
Qed.

(** ** The life of a registry *)

Lemma keys_of_configs (r r' : ServerRegistry) :
  configs r' = configs r -> getServerIds r' = getServerIds r.
Proof.
  intros H. apply (f_equal (map fst)) in H. unfold configs in H.
  rewrite !map_map in H. exact H.
Qed.

Lemma In_key {V} (m : JsMap V) k v : In (k, v) m -> In k (mapKeys m).
Proof. intros H. change k with (fst (k, v)). now apply in_map. Qed.

Lemma okTrace_app (tr evs : list Event) :
  okTrace tr ->
  (forall a e b, evs = a ++ e :: b -> isRequest e = true ->
                 In (EvConnect (eventId e)) (tr ++ a)) ->
  okTrace (tr ++ evs).
Proof.
  intros Htr Hevs a e b Heq Hreq.
  apply app_eq_app in Heq. destruct Heq as (l & [[Ha Hl]|[Ha Hl]]).
  - destruct l as [|x l].
    + simpl in Hl. rewrite app_nil_r in Ha. subst a.
      specialize (Hevs [] e b (eq_sym Hl) Hreq). now rewrite app_nil_r in Hevs.
    + simpl in Hl. injection Hl as -> ->. now apply (Htr a x l).
  - subst a. now apply (Hevs l e b).
Qed.

Lemma singleton_split {A} (x : A) a e b :
  [x] = a ++ e :: b -> a = [] /\ e = x /\ b = [].
Proof.
  destruct a as [|y a]; simpl.
  - intros [= -> <-]. auto.
  - intros [= _ H]. now destruct a.
Qed.

(** One step of the life of a registry keeps the invariant, given what the
    step did to the rows and to the record of requests. *)
Lemma inv_step (cfg : DiscoveryConfig) (s s' : State) (evs : list Event) :
  registryInv cfg s ->
  wfState s' ->
  configs (registry s') = configs (registry s) ->
  cacheTtlMs (registry s') = cacheTtlMs (registry s) ->
  trace s' = trace s ++ evs ->
  (forall e, In e evs -> In (eventId e) (getServerIds (registry s))) ->
  (forall a e b, evs = a ++ e :: b -> isRequest e = true ->
                 In (EvConnect (eventId e)) (trace s ++ a)) ->
  (forall k sv c,
      In (k, sv) (servers (registry s')) -> client sv = Some c -> connected c = true ->
      (exists sv0, In (k, sv0) (servers (registry s)) /\ client sv0 = Some c /\
                   config sv0 = config sv) \/
      (isStdio (cfg_transport (config sv)) /\ In (EvConnect k) (trace s ++ evs))) ->
  (forall k sv,
      In (k, sv) (servers (registry s')) -> cachedTools sv <> None ->
      (exists sv0, In (k, sv0) (servers (registry s)) /\ cachedTools sv0 <> None /\
                   config sv0 = config sv) \/
      isStdio (cfg_transport (config sv))) ->
  registryInv cfg s'.
Proof.
  intros (Hwf & Hcfg & Httl & Hcl & Hca & Hev & Hok) Hwf' Hcfg' Httl' Htr Hids Hpre Hcl' Hca'.
  unfold registryInv. rewrite Hcfg', Httl', Htr, (keys_of_configs _ _ Hcfg').
  split; [assumption|]. split; [assumption|]. split; [assumption|].
  split; [|split; [|split]].
  - intros k sv c Hin Hc Hcon.
    destruct (Hcl' k sv c Hin Hc Hcon) as [(sv0 & Hin0 & Hc0 & Hcf)|[H1 H2]].
    + destruct (Hcl k sv0 c Hin0 Hc0 Hcon) as [H1 H2]. rewrite <- Hcf.
      split; [assumption|]. apply in_or_app. now left.
    + now split.
  - intros k sv Hin Hc.
    destruct (Hca' k sv Hin Hc) as [(sv0 & Hin0 & Hc0 & Hcf)|H]; [|assumption].
    rewrite <- Hcf. now apply (Hca k sv0).
  - intros e He. apply in_app_or in He. destruct He; auto.
  - now apply okTrace_app.
Qed.

Lemma getClient_http (W : World) id s server h :
  mapGet (servers (registry s)) id = Some server ->
  connectedClient server = None ->
  cfg_transport (config server) = THttp h ->
  getClient W id s = (Err (httpConnectFailed id (url h)), s).
Proof.
  intros Hg Hc Ht. rewrite (getClient_connecting W _ _ Hg Hc), Ht. simpl.
  now rewrite state_eta.
Qed.

(** What [getClient] does, case by case. *)
Lemma getClient_detail (W : World) id s r s' :
  getClient W id s = (r, s') ->
  s' = s \/
  exists server c0,
    mapGet (servers (registry s)) id = Some server /\
    connectedClient server = None /\
    cfg_transport (config server) = TStdio c0 /\
    ((exists c, r = Ok c /\ connected c = true /\ clientServerId c = id /\
        clientSound c /\
        registry s' = withServers
          (mapUpdate (servers (registry s)) id (withClient (Some c))) (registry s) /\
        trace s' = trace s ++ [EvConnect id]) \/
     (exists m, r = Err (connectFailed id m) /\ registry s' = registry s /\
        trace s' = trace s ++ [EvConnect id; EvClose id])).
Proof.
  intros H.
  destruct (mapGet (servers (registry s)) id) as [server|] eqn:Hg.
  2:{ rewrite (getClient_unknown W _ _ Hg) in H. injection H as _ <-. now left. }
  destruct (connectedClient server) as [c|] eqn:Hc.
  { rewrite (getClient_connected W _ _ Hg Hc) in H. injection H as _ <-. now left. }
  destruct (cfg_transport (config server)) as [c0|h] eqn:Ht.
  2:{ rewrite (getClient_http W _ _ Hg Hc Ht) in H. injection H as _ <-. now left. }
  rewrite (getClient_connecting W _ _ Hg Hc), Ht in H. simpl in H.
  unfold stdioConnect in H. simpl in H.
  destruct (sdk_connect W (trace s) id) as [[m|m]|]; simpl in H; injection H as <- <-;
    [left; now destruct s | |];
    right; exists server, c0;
    (split; [first [reflexivity | assumption]|]);
    (split; [first [reflexivity | assumption]|]);
    (split; [first [reflexivity | assumption]|]).
  - right. exists m. simpl. rewrite <- app_assoc. auto.
  - left. eexists. split; [reflexivity|]. split; [reflexivity|].
    split; [reflexivity|]. split; [simpl; auto|]. split; reflexivity.
Qed.

Lemma getClient_stored (W : World) id s c s1 :
  getClient W id s = (Ok c, s1) ->
  connected c = true /\
  exists sv, mapGet (servers (registry s1)) id = Some sv /\ client sv = Some c.
Proof.
  intros H.
  destruct (getClient_spec _ _ _ H) as (evs & _ & _ & _ & _ & Hcon & server & Hg & Hcase).
  split; [assumption|].
  destruct Hcase as [[Hcc ->]|(_ & _ & _ & _ & Hreg)].
  - exists server. split; [assumption|]. now apply connectedClient_Some in Hcc.
  - exists (withClient (Some c) server). rewrite Hreg. simpl.
    split; [now apply mapGet_update_same | reflexivity].
Qed.

Lemma inv_getClient (cfg : DiscoveryConfig) (W : World) id s r s' :
  registryInv cfg s -> getClient W id s = (r, s') -> registryInv cfg s'.
Proof.
  intros Hinv H.
  assert (Hwf : wfState s) by apply Hinv.
  assert (Hwf' : wfState s') by (eapply wf_getClient; eassumption).
  destruct (getClient_frame _ _ _ H) as (Httl & Hcfg & _ & _).
  destruct (getClient_detail _ _ _ H) as [->|(server & c0 & Hg & Hcc & Ht & Hcase)];
    [assumption|].
  assert (Hkey : In id (getServerIds (registry s))).
  { apply mapGet_In in Hg. now apply In_key in Hg. }
  destruct Hcase as [(c & -> & Hcon & Hid & Hsound & Hreg & Htr)
                    |(m & -> & Hreg & Htr)].
  - apply inv_step with (s := s) (evs := [EvConnect id]); try assumption.
    + intros e [<-|[]]. exact Hkey.
    + intros a e b Heq Hreq. apply singleton_split in Heq.
      destruct Heq as (_ & -> & _). discriminate.
    + intros k sv c' Hin Hc' Hcon'. rewrite Hreg in Hin. simpl in Hin.
      apply In_mapUpdate in Hin. destruct Hin as [Hin|(-> & v & Hin & ->)].
      * left. exists sv. auto.
      * right. simpl. apply (In_mapGet _ _ _ (proj1 Hwf)) in Hin.
        rewrite Hg in Hin. injection Hin as <-. split.
        -- exists c0. exact Ht.
        -- apply in_or_app. right. now left.
    + intros k sv Hin Hca. rewrite Hreg in Hin. simpl in Hin.
      apply In_mapUpdate in Hin. destruct Hin as [Hin|(-> & v & Hin & ->)].
      * left. exists sv. auto.
      * left. exists v. auto.
  - apply inv_step with (s := s) (evs := [EvConnect id; EvClose id]); try assumption.
    + intros e [<-|[<-|[]]]; exact Hkey.
    + intros a e b Heq Hreq. exfalso.
      assert (Hin : In e [EvConnect id; EvClose id])
        by (rewrite Heq; apply in_or_app; right; now left).
      destruct Hin as [<-|[<-|[]]]; discriminate.
    + intros k sv c' Hin Hc' Hcon'. rewrite Hreg in Hin. left. exists sv. auto.
    + intros k sv Hin Hca. rewrite Hreg in Hin. left. exists sv. auto.
Qed.

(** The step after [getClient] in [listTools] and [callTool]: a request
    sent through the client just handed out, and possibly a new snapshot. *)
Lemma inv_request (cfg : DiscoveryConfig) (s1 s' : State) id c e :
  registryInv cfg s1 ->
  wfState s' ->
  connected c = true ->
  (exists sv, mapGet (servers (registry s1)) id = Some sv /\ client sv = Some c) ->
  eventId e = id ->
  trace s' = trace s1 ++ [e] ->
  (registry s' = registry s1 \/
   exists t, registry s' = withServers
               (mapUpdate (servers (registry s1)) id (withCachedTools t))
               (registry s1)) ->
  registryInv cfg s'.
Proof.
  intros Hinv Hwf' Hcon (sv & Hg & Hc) He Htr Hreg.
  assert (Hwf : wfState s1) by apply Hinv.
  assert (Hfacts : isStdio (cfg_transport (config sv)) /\ In (EvConnect id) (trace s1)).
  { destruct Hinv as (_ & _ & _ & Hcl & _).
    apply (Hcl id sv c (mapGet_In _ _ Hg) Hc Hcon). }
  destruct Hfacts as [Hstd Hconn].
  assert (Hkey : In id (getServerIds (registry s1))).
  { apply mapGet_In in Hg. now apply In_key in Hg. }
  apply inv_step with (s := s1) (evs := [e]); try assumption.
  - destruct Hreg as [->|(t & ->)]; [reflexivity|].
    now rewrite configs_mapUpdate, withServers_same.
  - destruct Hreg as [->|(t & ->)]; reflexivity.
  - intros e' [<-|[]]. now rewrite He.
  - intros a e' b Heq _. apply singleton_split in Heq. destruct Heq as (-> & -> & _).
    rewrite app_nil_r, He. exact Hconn.
  - intros k sv' c' Hin Hc' Hcon'. left.
    destruct Hreg as [Hreg|(t & Hreg)]; rewrite Hreg in Hin.
    + exists sv'. auto.
    + simpl in Hin. apply In_mapUpdate in Hin.
      destruct Hin as [Hin|(-> & v & Hin & ->)]; [exists sv'; auto|].
      exists v. auto.
  - intros k sv' Hin Hca.
    destruct Hreg as [Hreg|(t & Hreg)]; rewrite Hreg in Hin.
    + left. exists sv'. auto.
    + simpl in Hin. apply In_mapUpdate in Hin.
      destruct Hin as [Hin|(-> & v & Hin & ->)]; [left; exists sv'; auto|].
      right. simpl. apply (In_mapGet _ _ _ (proj1 Hwf)) in Hin.
      rewrite Hg in Hin. now injection Hin as <-.
Qed.

Lemma inv_listTools (cfg : DiscoveryConfig) (W : World) id now s r s' :
  registryInv cfg s -> listTools W id now s = (r, s') -> registryInv cfg s'.
Proof.
  intros Hinv H.
  assert (Hwf : wfState s) by apply Hinv.
  assert (Hwf' : wfState s') by (eapply wf_listTools; eassumption).
  destruct (mapGet (servers (registry s)) id) as [server|] eqn:Hg.
  2:{ rewrite (listTools_unknown W _ _ _ Hg) in H. now injection H as _ <-. }
  destruct (freshTools (cacheTtlMs (registry s)) now server) as [cached|] eqn:Hf.
  { rewrite (listTools_hit W _ _ _ Hg Hf) in H. now injection H as _ <-. }
  rewrite (listTools_miss W _ _ _ Hg Hf) in H.
  destruct (getClient W id s) as [[c|e] s1] eqn:Hc.
  - assert (Hinv1 : registryInv cfg s1) by (eapply inv_getClient; eassumption).
    destruct (getClient_sound _ _ Hwf Hc) as (Hcon & Hid & Hsound).
    destruct (getClient_stored _ _ _ Hc) as (_ & Hstored).
    rewrite (clientListTools_connected W _ _ Hcon Hsound), Hid in H.
    destruct (sdk_listTools W (trace s1) id) as [ts|e]; injection H as _ <-;
      apply inv_request with (s1 := s1) (id := id) (c := c) (e := EvListTools id);
      auto.
    right. eexists. reflexivity.
  - injection H as _ <-. eapply inv_getClient; eassumption.
Qed.

Lemma clientCallTool_event (W : World) (c : McpClient) n a (tr : list Event) :
  connected c = true -> clientSound c ->
  snd (clientCallTool W c n a tr) = tr ++ [EvCallTool (clientServerId c) n a].
Proof.
  destruct c as [c|c]; simpl; intros Hc Hs.
  - unfold stdioCallTool. rewrite Hc, (Hs Hc). simpl.
    destruct (sdk_callTool W tr (stdio_serverId c) n a); reflexivity.
  - congruence.
Qed.

Lemma inv_callTool (cfg : DiscoveryConfig) (W : World) id n a s r s' :
  registryInv cfg s -> callTool W id n a s = (r, s') -> registryInv cfg s'.
Proof.
  intros Hinv H.
  assert (Hwf : wfState s) by apply Hinv.
  assert (Hwf' : wfState s') by (eapply wf_callTool; eassumption).
  rewrite callTool_unfold in H.
  destruct (getClient W id s) as [[c|e] s1] eqn:Hc.
  - assert (Hinv1 : registryInv cfg s1) by (eapply inv_getClient; eassumption).
    destruct (getClient_sound _ _ Hwf Hc) as (Hcon & Hid & Hsound).
    destruct (getClient_stored _ _ _ Hc) as (_ & Hstored).
    pose proof (clientCallTool_event W c n a (trace s1) Hcon Hsound) as Hev.
    destruct (clientCallTool W c n a (trace s1)) as [r2 tr2]. simpl in Hev.
    injection H as _ <-.
    apply inv_request with (s1 := s1) (id := id) (c := c) (e := EvCallTool id n a);
      auto.
    simpl. now rewrite Hev, Hid.
  - injection H as _ <-. eapply inv_getClient; eassumption.
Qed.

Lemma inv_stateAfter (cfg : DiscoveryConfig) (W : World) now ids : forall s,
  registryInv cfg s -> registryInv cfg (stateAfter W now ids s).
Proof.
  induction ids as [|id ids IH]; intros s Hinv; simpl; [assumption|].
  apply IH. destruct (listTools W id (now id) s) as [r s'] eqn:H. simpl.
  eapply inv_listTools; eassumption.
Qed.

Lemma inv_closeAll (cfg : DiscoveryConfig) (s : State) :
  registryInv cfg s -> registryInv cfg (snd (closeAll s)).
Proof.
  intros Hinv. assert (Hwf : wfState s) by apply Hinv.
  destruct (closeAll_registry s) as (_ & Hm & Httl).
  destruct (closeEach_events (servers (registry s)) (trace s)) as (evs & Htr & Hevs).
  assert (Htr' : trace (snd (closeAll s)) = trace s ++ evs).
  { unfold closeAll. destruct (closeEach (servers (registry s)) (trace s)). exact Htr. }
  assert (Hclose : forall e, In e evs ->
            isRequest e = false /\ In (eventId e) (getServerIds (registry s))).
  { intros e He. destruct (Hevs e He) as (k & sv & c & Hin & Hc & ->).
    split; [reflexivity|]. simpl.
    destruct (proj2 Hwf k sv c Hin Hc) as [-> _]. now apply In_key in Hin. }
  apply inv_step with (s := s) (evs := evs); try assumption.
  - now apply wf_closeAll.
  - unfold configs. rewrite Hm, map_map. reflexivity.
  - intros e He. now apply Hclose.
  - intros a e b Heq Hreq. exfalso.
    assert (He : In e evs) by (rewrite Heq; apply in_or_app; right; now left).
    apply Hclose in He. destruct He as [He _]. congruence.
  - intros k sv c Hin Hc. rewrite Hm in Hin. apply in_map_iff in Hin.
    destruct Hin as (x & [= _ <-] & _). discriminate.
  - intros k sv Hin Hca. rewrite Hm in Hin. apply in_map_iff in Hin.
    destruct Hin as ([k0 v0] & [= <- <-] & Hin). left. exists v0. auto.
Qed.

Lemma inv_invalidateCache (cfg : DiscoveryConfig) (o : option string) (s : State) :
  registryInv cfg s -> registryInv cfg (invalidateCache o s).
Proof.
  intros Hinv.
  assert (Hwf' : wfState (invalidateCache o s)) by (apply wf_invalidateCache, Hinv).
  assert (Hall : registryInv cfg
    {| registry := withServers
         (map (fun e => (fst e, withCachedTools None (snd e))) (servers (registry s)))
         (registry s);
       trace := trace s |}).
  { apply inv_step with (s := s) (evs := []); try assumption.
    - apply (wf_invalidateCache None), Hinv.
    - unfold configs. simpl. rewrite map_map. reflexivity.
    - reflexivity.
    - simpl. now rewrite app_nil_r.
    - intros e [].
    - intros a e b Heq. now destruct a.
    - simpl. intros k sv c Hin Hc Hcon. apply in_map_iff in Hin.
      destruct Hin as ([k0 v0] & [= <- <-] & Hin). left. exists v0. auto.
    - simpl. intros k sv Hin Hca. apply in_map_iff in Hin.
      destruct Hin as ([k0 v0] & [= <- <-] & Hin). now elim Hca. }
  unfold invalidateCache in *. destruct o as [id|]; [|assumption].
  destruct (truthy (Some id)); [|assumption].
  destruct (mapGet (servers (registry s)) id); [|assumption].
  apply inv_step with (s := s) (evs := []); try assumption.
  - simpl. now rewrite configs_mapUpdate, withServers_same.
  - reflexivity.
  - simpl. now rewrite app_nil_r.
  - intros e [].
  - intros a e b Heq. now destruct a.
  - simpl. intros k sv c Hin Hc Hcon. apply In_mapUpdate in Hin. left.
    destruct Hin as [Hin|(-> & v & Hin & ->)]; [exists sv | exists v]; auto.
  - simpl. intros k sv Hin Hca. apply In_mapUpdate in Hin.
    destruct Hin as [Hin|(-> & v & Hin & ->)]; [left; exists sv; auto|].
    now elim Hca.
Qed.

Lemma inv_processExit (cfg : DiscoveryConfig) (id : string) (s : State) :
  registryInv cfg s -> registryInv cfg (processExit id s).
Proof.
  intros Hinv. assert (Hwf : wfState s) by apply Hinv.
  apply inv_step with (s := s) (evs := []); try assumption.
  - now apply wf_processExit.
  - simpl. now rewrite configs_mapUpdate, withServers_same.
  - reflexivity.
  - simpl. now rewrite app_nil_r.
  - intros e [].
  - intros a e b Heq. now destruct a.
  - simpl. intros k sv c Hin Hc Hcon. apply In_mapUpdate in Hin.
    destruct Hin as [Hin|(-> & v & Hin & ->)]; [left; exists sv; auto|].
    exfalso. simpl in Hc. destruct (client v) as [c0|] eqn:E; [|discriminate].
    injection Hc as <-. destruct (proj2 Hwf id v c0 Hin E) as [_ Hs].
    destruct c0 as [c0|c0]; simpl in *; congruence.
  - simpl. intros k sv Hin Hca. apply In_mapUpdate in Hin. left.
    destruct Hin as [Hin|(-> & v & Hin & ->)]; [exists sv | exists v]; auto.
Qed.

Lemma register_rows (l : list ServerConfig) : forall acc,
  (forall k sv, In (k, sv) acc -> client sv = None /\ cachedTools sv = None) ->
  forall k sv, In (k, sv) (fold_left register l acc) ->
               client sv = None /\ cachedTools sv = None.
Proof.
  induction l as [|c l IH]; intros acc Hacc; simpl; [assumption|].
  apply IH. intros k sv. unfold register. destruct (cfg_enabled c); [|apply Hacc].
  intros Hin. apply In_mapSet in Hin. destruct Hin as [Hin|[= _ ->]]; [|auto].
  now apply (Hacc k).
Qed.

Lemma inv_initialState (cfg : DiscoveryConfig) : registryInv cfg (initialState cfg).
Proof.
  assert (Hnone : forall k sv, In (k, sv) (servers (registry (initialState cfg))) ->
            client sv = None /\ cachedTools sv = None).
  { simpl. apply register_rows. intros k sv []. }
  split; [apply wf_initialState|]. split; [reflexivity|]. split; [reflexivity|].
  split; [|split; [|split]].
  - intros k sv c Hin Hc. apply Hnone in Hin. destruct Hin. congruence.
  - intros k sv Hin Hca. apply Hnone in Hin. destruct Hin. congruence.
  - intros e [].
  - intros a e b Heq. now destruct a.
Qed.

Lemma inv_runOp (cfg : DiscoveryConfig) (W : World) (s : State) (op : Op) :
  registryInv cfg s -> registryInv cfg (runOp W s op).
Proof.
  intros Hinv. destruct op as [id|id now|now|id n a| |o|id]; simpl.
  - destruct (getClient W id s) as [r s'] eqn:H. eapply inv_getClient; eassumption.
  - destruct (listTools W id now s) as [r s'] eqn:H. eapply inv_listTools; eassumption.
  - rewrite listAllTools_collected by apply Hinv. now apply inv_stateAfter.
  - destruct (callTool W id n a s) as [r s'] eqn:H. eapply inv_callTool; eassumption.
  - now apply inv_closeAll.
  - now apply inv_invalidateCache.
  - now apply inv_processExit.
Qed.

Lemma inv_runOps (cfg : DiscoveryConfig) (W : World) (ops : list Op) :
  registryInv cfg (runOps W cfg ops).
Proof.
  unfold runOps. induction ops as [|op ops IH] using rev_ind; simpl.
  - apply inv_initialState.
  - rewrite fold_left_app. simpl. now apply inv_runOp.
Qed.

(** X14. Whatever happened before, the registered ids, their
    configurations and the TTL are those of construction, the ids are
    unique, and a client that is stored was built for the id it is stored
    under. *)
Theorem X14_registry_shape_is_fixed
    (cfg : DiscoveryConfig) (W : World) (ops : list Op) :
  let s := runOps W cfg ops in
  getServerIds (registry s) = getServerIds (newServerRegistry cfg) /\
  getAllServerConfigs (registry s) = getAllServerConfigs (newServerRegistry cfg) /\
  (forall id, getServerConfig (registry s) id
              = getServerConfig (newServerRegistry cfg) id) /\
  cacheTtlMs (registry s) = routing_cacheTtlMs (cfg_routing cfg) /\
  NoDup (getServerIds (registry s)) /\
  (forall k sv c, In (k, sv) (servers (registry s)) -> client sv = Some c ->
                  clientServerId c = k).
Proof.
  cbv zeta. destruct (inv_runOps cfg W ops) as ((ND & Hwf) & Hcfg & Httl & _).
  split; [now apply keys_of_configs|].
  split.
  { apply (f_equal (map snd)) in Hcfg. unfold configs in Hcfg.
    rewrite !map_map in Hcfg. unfold getAllServerConfigs, mapValues.
    rewrite !map_map. exact Hcfg. }
  split.
  { intros id. unfold getServerConfig.
    rewrite <- !(mapGet_map config). exact (f_equal (fun m => mapGet m id) Hcfg). }
  split; [assumption|]. split; [assumption|].
  intros k sv c Hin Hc. now apply (Hwf k sv c).
Qed.

(** X15. Whatever happened before, every request on record went to a
    registered upstream, that is to the id of an enabled descriptor, and
    every listing and every call on record comes after a connection to the
    same upstream. *)
Theorem X15_requests_go_to_connected_registered_upstreams
    (cfg : DiscoveryConfig) (W : World) (ops : list Op) :
  let s := runOps W cfg ops in
  (forall e, In e (trace s) ->
     exists c, In c (cfg_servers cfg) /\ cfg_enabled c = true /\ cfg_id c = eventId e) /\
  (forall a e b, trace s = a ++ e :: b -> isRequest e = true ->
     In (EvConnect (eventId e)) a).
Proof.
  cbv zeta. destruct (inv_runOps cfg W ops) as (_ & Hcfg & _ & _ & _ & Hev & Hok).
  split; [|exact Hok].
  intros e He. apply Hev in He. rewrite (keys_of_configs _ _ Hcfg) in He.
  unfold getServerIds, newServerRegistry in He. simpl in He.
  apply register_keys in He. destruct He as [[]|H]. exact H.
Qed.

(** X16. An upstream with the HTTP transport can never be reached:
    whatever happened before, it holds no snapshot, and [getClient],
    [listTools] and [callTool] fail for it with the message of the HTTP
    client, send nothing and leave the state as it was. *)
Theorem X16_http_upstreams_always_fail
    (cfg : DiscoveryConfig) (W : World) (ops : list Op)
    (id : string) (server : RegisteredServer) (h : HttpTransportConfig) :
  let s := runOps W cfg ops in
  mapGet (servers (registry s)) id = Some server ->
  cfg_transport (config server) = THttp h ->
  cachedTools server = None /\
  getClient W id s = (Err (httpConnectFailed id (url h)), s) /\
  (forall now, listTools W id now s = (Err (httpConnectFailed id (url h)), s)) /\
  (forall n a, callTool W id n a s = (Err (httpConnectFailed id (url h)), s)).
Proof.
  cbv zeta. intros Hg Ht.
  destruct (inv_runOps cfg W ops) as (_ & _ & _ & Hcl & Hca & _).
  assert (Hnot : ~ isStdio (cfg_transport (config server))).
  { rewrite Ht. intros (c0 & E). discriminate. }
  assert (Hcache : cachedTools server = None).
  { destruct (cachedTools server) eqn:E; [|reflexivity]. exfalso. apply Hnot.
    apply (Hca id server (mapGet_In _ _ Hg)). congruence. }
  assert (Hcc : connectedClient server = None).
  { destruct (connectedClient server) as [c|] eqn:E; [|reflexivity]. exfalso.
    apply connectedClient_Some in E. destruct E as [Hc Hcon].
    apply Hnot. apply (Hcl id server c (mapGet_In _ _ Hg) Hc Hcon). }
  pose proof (getClient_http W _ _ Hg Hcc Ht) as Hget.
  split; [assumption|]. split; [assumption|]. split.
  - intros now. rewrite (listTools_miss W id now _ Hg).
    + now rewrite Hget.
    + unfold freshTools. now rewrite Hcache.
  - intros n a. rewrite callTool_unfold. now rewrite Hget.
Qed.

Lemma mapGet_mapSet {V} (m : JsMap V) k v k' :
  mapGet (mapSet m k v) k' = if String.eqb k k' then Some v else mapGet m k'.
Proof.
  induction m as [|[k0 v0] m IH]; simpl.
  - reflexivity.
  - destruct (String.eqb k0 k) eqn:E; simpl.
    + apply String.eqb_eq in E. subst k0. now destruct (String.eqb k k').
    + destruct (String.eqb k0 k') eqn:E'.
      * apply String.eqb_eq in E'. subst k0. rewrite String.eqb_sym in E. now rewrite E.
      * exact IH.
Qed.

Lemma find_app {A} (f : A -> bool) (l1 l2 : list A) :
  find f (l1 ++ l2) = match find f l1 with Some x => Some x | None => find f l2 end.
Proof.
  induction l1 as [|x l1 IH]; simpl; [reflexivity|]. now destruct (f x).
Qed.

Lemma register_get (id : string) (l : list ServerConfig) : forall acc,
  option_map config (mapGet (fold_left register l acc) id) =
  match lastEnabled l id with
  | Some c => Some c
  | None => option_map config (mapGet acc id)
  end.
Proof.
  unfold lastEnabled. induction l as [|c l IH]; intros acc; simpl; [reflexivity|].
  rewrite IH. unfold register. destruct (cfg_enabled c) eqn:En; [|reflexivity].
  simpl. rewrite find_app. simpl.
  destruct (find (fun c0 => String.eqb (cfg_id c0) id) (rev (filter cfg_enabled l)));
    [reflexivity|].
  rewrite mapGet_mapSet. now destruct (String.eqb (cfg_id c) id).
Qed.

Lemma register_row_ids (l : list ServerConfig) : forall acc,
  (forall k sv, In (k, sv) acc -> cfg_id (config sv) = k) ->
  forall k sv, In (k, sv) (fold_left register l acc) -> cfg_id (config sv) = k.
Proof.
  induction l as [|c l IH]; intros acc Hacc; simpl; [assumption|].
  apply IH. intros k sv. unfold register. destruct (cfg_enabled c); [|apply Hacc].
  intros Hin. apply In_mapSet in Hin. destruct Hin as [Hin|[= -> ->]]; [|reflexivity].
  now apply (Hacc k).
Qed.

(** X17. When several enabled descriptors carry the same id, the
    registry keeps the last of them, at the place of the first.  The
    configuration found under an id carries that id and is enabled, and the
    list of all configurations goes id by id with the list of ids. *)
Theorem X17_last_enabled_descriptor_wins (cfg : DiscoveryConfig) (id : string) :
  let r := newServerRegistry cfg in
  getServerConfig r id = lastEnabled (cfg_servers cfg) id /\
  (forall c, getServerConfig r id = Some c ->
     cfg_id c = id /\ cfg_enabled c = true /\ In c (cfg_servers cfg)) /\
  map cfg_id (getAllServerConfigs r) = getServerIds r.
Proof.
  cbv zeta.
  assert (Hget : getServerConfig (newServerRegistry cfg) id
                 = lastEnabled (cfg_servers cfg) id).
  { unfold getServerConfig, newServerRegistry. simpl. rewrite register_get.
    now destruct (lastEnabled (cfg_servers cfg) id). }
  split; [exact Hget|]. split.
  - rewrite Hget. unfold lastEnabled. intros c Hc. apply find_some in Hc.
    destruct Hc as [Hin Hid]. apply String.eqb_eq in Hid.
    apply in_rev, filter_In in Hin. tauto.
  - unfold getAllServerConfigs, getServerIds, mapValues, mapKeys. rewrite !map_map.
    apply map_ext_in. intros [k sv] Hin. simpl.
    apply (register_row_ids (cfg_servers cfg) []); [intros ? ? []|exact Hin].
Qed.

Lemma collected_fresh (W : World) now (s : State) (rows : JsMap RegisteredServer) :
  (forall k sv, In (k, sv) rows ->
     mapGet (servers (registry s)) k = Some sv /\
     freshTools (cacheTtlMs (registry s)) (now k) sv <> None) ->
  collected W now (mapKeys rows) s =
    map (fun e => (fst e,
                   match freshTools (cacheTtlMs (registry s)) (now (fst e)) (snd e) with
                   | Some ts => ts
                   | None => []
                   end)) rows /\
  stateAfter W now (mapKeys rows) s = s.
Proof.
  induction rows as [|[k sv] rows IH]; intros H; simpl; [auto|].
  destruct (H k sv (or_introl eq_refl)) as [Hg Hf].
  destruct (freshTools (cacheTtlMs (registry s)) (now k) sv) as [ts|] eqn:E;
    [|congruence].
  rewrite (listTools_hit W _ _ _ Hg E). simpl.
  destruct IH as [IH1 IH2]; [intros k' sv' Hin; apply H; now right|].
  unfold mapKeys in *. now rewrite IH1, IH2.
Qed.

(** X18. While every registered upstream has a fresh snapshot,
    [listAllTools] answers from the snapshots alone: the map holds the
    cached tools of every id, and neither the registry nor the record of
    requests changes. *)
Theorem X18_listAllTools_answers_from_fresh_snapshots
    (W : World) (now : string -> Z) (s : State) :
  NoDup (getServerIds (registry s)) ->
  (forall k sv, In (k, sv) (servers (registry s)) ->
     freshTools (cacheTtlMs (registry s)) (now k) sv <> None) ->
  listAllTools W now s =
  (Ok (map (fun e => (fst e,
                      match freshTools (cacheTtlMs (registry s)) (now (fst e)) (snd e) with
                      | Some ts => ts
                      | None => []
                      end)) (servers (registry s))),
   s).
Proof.
  intros ND Hfresh. rewrite listAllTools_collected by assumption.
  destruct (collected_fresh W now s (servers (registry s))) as [H1 H2].
  - intros k sv Hin. split; [now apply In_mapGet | now apply Hfresh].
  - unfold getServerIds. now rewrite H1, H2.
Qed.

(** X19. A [callTool] that succeeds has sent the call to the upstream of
    [id] once, with the tool name and the arguments as given, after every
    earlier request; it returns the content the upstream answered, with
    [isError] set only if the answer said [true]; no snapshot changes and
    nothing is listed. *)
Theorem X19_callTool_forwards_the_call
    (W : World) (id n : string) (a : Json) (s s' : State) (res : ToolCallResult) :
  wfState s ->
  callTool W id n a s = (Ok res, s') ->
  exists evs resp,
    trace s' = trace s ++ evs ++ [EvCallTool id n a] /\
    (evs = [] \/ evs = [EvConnect id]) /\
    sdk_callTool W (trace s ++ evs) id n a = Ok resp /\
    content res = resp_content resp /\
    isError res = isTrue (resp_isError resp) /\
    snapshots (registry s') = snapshots (registry s).
Proof.
  intros Hwf H. rewrite callTool_unfold in H.
  destruct (getClient W id s) as [[c|e] s1] eqn:Hc; [|discriminate].
  destruct (getClient_sound _ _ Hwf Hc) as (Hcon & Hid & Hsound).
  destruct (getClient_frame _ _ _ Hc) as (_ & _ & Hsnap & _).
  assert (Hevs : exists evs, trace s1 = trace s ++ evs /\ (evs = [] \/ evs = [EvConnect id])).
  { destruct (getClient_detail _ _ _ Hc) as [->|(sv & c0 & _ & _ & _ & Hcase)].
    - exists []. rewrite app_nil_r. auto.
    - destruct Hcase as [(c' & _ & _ & _ & _ & _ & Htr)|(m & Hm & _)]; [|discriminate].
      exists [EvConnect id]. auto. }
  destruct Hevs as (evs & Htr & Hshape).
  pose proof (clientCallTool_event W c n a (trace s1) Hcon Hsound) as Hev.
  destruct (clientCallTool W c n a (trace s1)) as [r2 tr2] eqn:Hcall. simpl in Hev.
  injection H as -> <-.
  destruct (clientCallTool_spec _ _ _ _ _ Hcall) as (_ & _ & _ & _ & _ & resp & Hresp & ->).
  exists evs, resp. simpl. rewrite Hev, Hid, Htr, <- app_assoc.
  rewrite Hid, Htr in Hresp.
  split; [reflexivity|]. split; [assumption|]. split; [assumption|].
  split; [reflexivity|]. split; [reflexivity | assumption].
Qed.

(** ** The stdio client *)

(** X20. The life of a stdio client.  Connecting a connected client does
    nothing.  A connection the SDK rejects closes the client again: it is
    left as when it was built, and the error carries the SDK's message
    behind the server id.  When [spawn] throws, the SDK is asked nothing,
    the error is the one thrown, as it is, and the client is left with its
    SDK client assigned but not connected, so that it refuses to list or to
    call.  Closing asks the transport to close only if there is one, so
    closing twice asks once; and a client that is closed, or was never
    connected, answers a listing or a call with [Client not connected]
    without sending anything. *)
Theorem X20_stdio_client_lifecycle (W : World) (c : StdioMcpClient) (tr : list Event) :
  (stdio_connected c = true -> stdioConnect W c tr = (Ok tt, c, tr)) /\
  (stdio_connected c = false ->
   forall m, sdk_connect W tr (stdio_serverId c) = Some (ConnectRejected m) ->
     stdioConnect W c tr =
     (Err (connectFailed (stdio_serverId c) m),
      newStdioMcpClient (stdio_serverId c) (stdio_config c),
      tr ++ [EvConnect (stdio_serverId c); EvClose (stdio_serverId c)])) /\
  (stdio_connected c = false ->
   forall m, sdk_connect W tr (stdio_serverId c) = Some (SpawnThrew m) ->
     exists c',
       stdioConnect W c tr = (Err m, c', tr) /\
       stdio_serverId c' = stdio_serverId c /\ stdio_config c' = stdio_config c /\
       stdio_client c' = true /\ stdio_connected c' = false /\
       stdio_transport c' = stdio_transport c /\ stdio_process c' = stdio_process c /\
       (forall tr', stdioListTools W c' tr'
                    = (Err (notConnected (stdio_serverId c)), tr')) /\
       (forall n a tr', stdioCallTool W c' n a tr'
                        = (Err (notConnected (stdio_serverId c)), tr'))) /\
  (stdio_connected c = false ->
   sdk_connect W tr (stdio_serverId c) = None ->
   exists c', stdioConnect W c tr = (Ok tt, c', tr ++ [EvConnect (stdio_serverId c)]) /\
              stdio_connected c' = true /\ stdio_client c' = true) /\
  (let closed := fst (stdioClose c tr) in
   closed = newStdioMcpClient (stdio_serverId c) (stdio_config c) /\
   (forall tr', stdioClose closed tr' = (closed, tr')) /\
   (forall tr', stdioListTools W closed tr'
                = (Err (notConnected (stdio_serverId c)), tr')) /\
   (forall n a tr', stdioCallTool W closed n a tr'
                    = (Err (notConnected (stdio_serverId c)), tr'))).
Proof.
  split; [|split; [|split; [|split]]].
  - intros H. unfold stdioConnect. now rewrite H.
  - intros H m Hm. unfold stdioConnect. rewrite H, Hm. simpl.
    now rewrite <- app_assoc.
  - intros H m Hm. unfold stdioConnect. rewrite H, Hm.
    eexists. split; [reflexivity|]. simpl. repeat split.
  - intros H Hm. unfold stdioConnect. rewrite H, Hm.
    eexists. split; [reflexivity|]. auto.
  - cbv zeta. simpl. repeat split.
Qed.

(** ** The router tools *)

Lemma includes_unknownServerText (id : string) :
  includes (unknownServerText id) id = true.
Proof. unfold unknownServerText. apply includes_app_r, includes_app_l, includes_quoted. Qed.

Lemma includes_listErrorText (id m : string) : includes (listErrorText id m) id = true.
Proof. unfold listErrorText. apply includes_app_r, includes_app_l, includes_quoted. Qed.

Lemma includes_callErrorText (n id m : string) :
  includes (callErrorText n id m) id = true /\ includes (callErrorText n id m) n = true.
Proof.
  unfold callErrorText. split.
  - apply includes_app_r, includes_app_r, includes_app_r, includes_app_l, includes_quoted.
  - apply includes_app_r, includes_app_l, includes_quoted.
Qed.

Arguments unknownServerText : simpl never.
Arguments listErrorText : simpl never.
Arguments callErrorText : simpl never.
Arguments noToolsText : simpl never.

(** X21. The handler of [list-tools] turns every failure into an answer
    marked as an error whose one text names the server id, and then no
    snapshot has changed.  For an id that is not registered nothing at all
    is touched; inside the TTL window the cached list is rendered and
    nothing is touched either. *)
Theorem X21_list_tools_handler (R : Rendering) (W : World) (id : string) (now : Z)
    (s : State) :
  let resp := fst (listToolsHandler R W id now s) in
  let s' := snd (listToolsHandler R W id now s) in
  (hasServer (registry s) id = false ->
   resp = errorResponse (unknownServerText id) /\ s' = s) /\
  (r_isError resp = Some true ->
   exists t, r_content resp = [textItem t] /\ includes t id = true /\
             snapshots (registry s') = snapshots (registry s)) /\
  (forall server cached,
     mapGet (servers (registry s)) id = Some server ->
     freshTools (cacheTtlMs (registry s)) now server = Some cached ->
     resp = textResponse (stringifyTools R cached) /\ s' = s).
Proof.
  cbv zeta. unfold listToolsHandler. split; [|split].
  - intros H. now rewrite H.
  - destruct (hasServer (registry s) id); simpl.
    + destruct (listTools W id now s) as [[ts|e] s1] eqn:Hl; simpl; [discriminate|].
      intros _. exists (listErrorText id e).
      split; [reflexivity|]. split; [apply includes_listErrorText|].
      now destruct (listTools_spec _ _ _ _ Hl) as (_ & _ & _ & _ & _ & _ & _ & H).
    + intros _. exists (unknownServerText id).
      split; [reflexivity|]. split; [apply includes_unknownServerText | reflexivity].
  - intros server cached Hg Hf. unfold hasServer, mapHas. rewrite Hg. simpl.
    rewrite (listTools_hit W _ _ _ Hg Hf). simpl. now rewrite copyTool_id.
Qed.

(** X22. The handler of [call-tool]: for an id that is not registered it
    answers with an error and touches nothing; when the registry fails it
    answers with an error whose text names the tool and the server id and
    ends with the message of the failure; when the registry succeeds it
    passes on the content and the error flag of the result.  No argument
    object stands for the empty object. *)
Theorem X22_call_tool_handler (W : World) (id n : string) (a : option Json)
    (s : State) :
  let args := match a with Some x => x | None => emptyObject end in
  let resp := fst (callToolHandler W id n a s) in
  let s' := snd (callToolHandler W id n a s) in
  (hasServer (registry s) id = false ->
   resp = errorResponse (unknownServerText id) /\ s' = s) /\
  (hasServer (registry s) id = true ->
   forall e s1, callTool W id n args s = (Err e, s1) ->
     resp = errorResponse (callErrorText n id e) /\ s' = s1 /\
     includes (callErrorText n id e) id = true /\
     includes (callErrorText n id e) n = true /\
     exists pre, callErrorText n id e = (pre ++ e)%string) /\
  (hasServer (registry s) id = true ->
   forall res s1, callTool W id n args s = (Ok res, s1) ->
     resp = {| r_content := content res; r_isError := Some (isError res) |} /\
     s' = s1) /\
  callToolHandler W id n None s = callToolHandler W id n (Some emptyObject) s.
Proof.
  cbv zeta. unfold callToolHandler. split; [|split; [|split]].
  - intros H. now rewrite H.
  - intros H e s1 Hc. rewrite H, Hc. simpl.
    destruct (includes_callErrorText n id e) as [H1 H2].
    repeat split; try assumption.
    exists ("Error calling tool " ++ quoted n ++ " on server " ++ quoted id ++ ": ")%string.
    unfold callErrorText. now rewrite !append_assoc.
  - intros H res s1 Hc. now rewrite H, Hc.
  - reflexivity.
Qed.

Lemma stateAfter_keys (W : World) now ids : forall s,
  getServerIds (registry (stateAfter W now ids s)) = getServerIds (registry s).
Proof.
  induction ids as [|id ids IH]; intros s; simpl; [reflexivity|].
  now rewrite IH, listTools_keys.
Qed.

Lemma collectConfigs_rows (r : ServerRegistry) (rows : JsMap RegisteredServer) :
  forall acc,
  (forall k sv, In (k, sv) rows -> getServerConfig r k = Some (config sv)) ->
  NoDup (mapKeys acc ++ mapKeys rows) ->
  fold_left (fun m id => match getServerConfig r id with
                         | Some c => mapSet m id c
                         | None => m
                         end) (mapKeys rows) acc
  = acc ++ map (fun e => (fst e, config (snd e))) rows.
Proof.
  induction rows as [|[k sv] rows IH]; intros acc H ND; simpl.
  - now rewrite app_nil_r.
  - rewrite (H k sv) by now left. simpl in ND. rewrite mapSet_new.
    + rewrite IH.
      * now rewrite <- app_assoc.
      * intros k' sv' Hin. apply H. now right.
      * unfold mapKeys in *. rewrite map_app, <- app_assoc. exact ND.
    + apply NoDup_remove_2 in ND. intros Hin. apply ND, in_or_app. now left.
Qed.

Lemma collectConfigs_configs (r : ServerRegistry) :
  NoDup (getServerIds r) -> collectConfigs r = configs r.
Proof.
  intros ND. unfold collectConfigs, getServerIds.
  rewrite (collectConfigs_rows r (servers r) []); [reflexivity| |exact ND].
  intros k sv Hin. unfold getServerConfig.
  now rewrite (In_mapGet _ _ _ ND Hin).
Qed.

Lemma resultText_not_noTools (R : Rendering) (query : string) (l : list RankedTool) :
  resultText R query l <> noToolsText query.
Proof. unfold resultText, noToolsText. cbn [String.concat append]. discriminate. Qed.

(** X23. The handler of [route-query] never answers with an error: the
    aggregate listing cannot fail, so the [catch] branch is never taken.
    It ranks against the configuration of every registered upstream, so no
    upstream is passed over for want of one; it leaves the state
    [listAllTools] leaves; and it answers with the text for no relevant
    tool exactly when the ranking is empty, as it is for a query without
    tokens.  A missing [maxResults] stands for the registered default. *)
Theorem X23_route_query_handler
    (R : Rendering) (W : World) (localeCompare : string -> string -> comparison)
    (maxRouteResults : Z) (query : string) (requested : option Z)
    (now : string -> Z) (s : State) :
  NoDup (getServerIds (registry s)) ->
  let limit := match requested with Some n => n | None => maxRouteResults end in
  let resp := fst (routeQueryHandler R W localeCompare maxRouteResults query
                     requested now s) in
  let s' := snd (routeQueryHandler R W localeCompare maxRouteResults query
                   requested now s) in
  exists allTools,
    listAllTools W now s = (Ok allTools, s') /\
    collectConfigs (registry s') = configs (registry s') /\
    r_isError resp = None /\
    (rankToolsForQuery localeCompare query allTools (configs (registry s')) limit = [] ->
     resp = textResponse (noToolsText query)) /\
    (resp = textResponse (noToolsText query) ->
     rankToolsForQuery localeCompare query allTools (configs (registry s')) limit = []) /\
    (tokenize query = [] -> resp = textResponse (noToolsText query)).
Proof.
  intros ND. cbv zeta. unfold routeQueryHandler.
  rewrite (listAllTools_collected W now s ND). cbv zeta. cbv iota beta.
  set (s1 := stateAfter W now (getServerIds (registry s)) s).
  set (m := collected W now (getServerIds (registry s)) s).
  assert (Hcfg : collectConfigs (registry s1) = configs (registry s1)).
  { apply collectConfigs_configs. unfold s1. now rewrite stateAfter_keys. }
  rewrite Hcfg.
  remember (rankToolsForQuery localeCompare query m (configs (registry s1))
              match requested with Some n => n | None => maxRouteResults end)
    as ranked eqn:E.
  exists m.
  assert (Hs' : snd (if (List.length ranked =? 0)%nat
                     then (textResponse (noToolsText query), s1)
                     else (textResponse (resultText R query ranked), s1)) = s1)
    by now destruct (List.length ranked =? 0)%nat.
  rewrite Hs', <- E. clear Hs'. split; [reflexivity|]. split; [exact Hcfg|].
  destruct ranked as [|r0 rs]; cbn [List.length Nat.eqb fst].
  - repeat split; reflexivity.
  - split; [reflexivity|]. split; [discriminate|]. split.
    + intros H. exfalso. apply (@resultText_not_noTools R query (r0 :: rs)).
      exact (f_equal (fun x => match r_content x with
                               | [i] => item_text i
                               | _ => EmptyString
                               end) H).
    + intros Ht. exfalso. unfold rankToolsForQuery in E.
      rewrite Ht in E. discriminate.
Qed.

(** ** The command line *)

Lemma prefix_slice (pre a : string) :
  String.prefix pre a = true -> a = (pre ++ sliceFrom (String.length pre) a)%string.
Proof.
  revert a. induction pre as [|c pre IH]; intros [|d a]; simpl; try easy.
  destruct (ascii_dec c d); [|discriminate]. subst. intros H. f_equal. now apply IH.
Qed.

(** X24. The three spellings of the configuration option are one: where
    the loop stands, [--config p], [-c p] and [--config=p] all leave the
    path [p] and go on behind, whatever [p] is, be it a word such as
    [--help]. *)
Theorem X24_config_option_spellings
    (p : string) (rest : list string) (cp : option string) (h : bool) :
  parseLoop ("--config" :: p :: rest) cp h = parseLoop rest (Some p) h /\
  parseLoop ("-c" :: p :: rest) cp h = parseLoop rest (Some p) h /\
  parseLoop (("--config=" ++ p)%string :: rest) cp h = parseLoop rest (Some p) h.
Proof.
  split; [reflexivity|]. split; [reflexivity|].
  assert (E1 : String.eqb ("--config=" ++ p) "--help" = false) by reflexivity.
  assert (E2 : String.eqb ("--config=" ++ p) "-h" = false) by reflexivity.
  assert (E3 : String.eqb ("--config=" ++ p) "--config" = false) by reflexivity.
  assert (E4 : String.eqb ("--config=" ++ p) "-c" = false) by reflexivity.
  assert (E5 : startsWith ("--config=" ++ p) "--config=" = true)
    by (apply prefix_app, prefix_refl).
  cbn [parseLoop]. rewrite E1, E2, E3, E4, E5. reflexivity.
Qed.

Lemma parseLoop_unknown (arg : string) (rest : list string) cp h :
  isOptionWord arg = false -> parseLoop (arg :: rest) cp h = parseLoop rest cp h.
Proof.
  unfold isOptionWord. intros H.
  apply orb_false_iff in H. destruct H as [H H5].
  apply orb_false_iff in H. destruct H as [H H4].
  apply orb_false_iff in H. destruct H as [H H3].
  apply orb_false_iff in H. destruct H as [H1 H2].
  cbn [parseLoop]. now rewrite H1, H2, H3, H4, H5.
Qed.

Lemma parseLoop_facts (n : nat) : forall args cp h,
  (List.length args <= n)%nat ->
  (help (parseLoop args cp h) = true ->
   h = true \/ In "--help" args \/ In "-h" args) /\
  (forall p, configPath (parseLoop args cp h) = Some p ->
     cp = Some p \/ In p args \/ In ("--config=" ++ p)%string args) /\
  (h = true -> help (parseLoop args cp h) = true).
Proof.
  induction n as [|n IH]; intros args cp h Hlen.
  - destruct args; [|simpl in Hlen; lia]. simpl. auto.
  - destruct args as [|arg rest]; [simpl; auto|]. simpl in Hlen.
    assert (Hrest : (List.length rest <= n)%nat) by lia.
    cbn [parseLoop].
    destruct (String.eqb arg "--help" || String.eqb arg "-h") eqn:Eh.
    { destruct (IH rest cp true Hrest) as (H1 & H2 & H3).
      split; [|split].
      - intros _. right. apply orb_true_iff in Eh.
        destruct Eh as [E|E]; apply String.eqb_eq in E; subst; simpl; auto.
      - intros p Hp. destruct (H2 p Hp) as [H|[H|H]]; simpl; auto.
      - intros _. now apply H3. }
    destruct (String.eqb arg "--config" || String.eqb arg "-c") eqn:Ec.
    { destruct rest as [|path rest'].
      - simpl. split; [auto|]. split; [discriminate | auto].
      - simpl in Hrest.
        destruct (IH rest' (Some path) h ltac:(lia)) as (H1 & H2 & H3).
        split; [|split].
        + intros Hh. destruct (H1 Hh) as [H|[H|H]]; simpl; auto.
        + intros p Hp. destruct (H2 p Hp) as [[= ->]|[H|H]]; simpl; auto.
        + exact H3. }
    destruct (startsWith arg "--config=") eqn:Es.
    { destruct (IH rest (Some (sliceFrom (String.length "--config=") arg)) h Hrest)
        as (H1 & H2 & H3).
      split; [|split].
      - intros Hh. destruct (H1 Hh) as [H|[H|H]]; simpl; auto.
      - intros p Hp. destruct (H2 p Hp) as [E|[H|H]]; [|simpl; auto..].
        assert (Ep : p = sliceFrom (String.length "--config=") arg) by congruence.
        right. right. left. rewrite Ep. apply prefix_slice. exact Es.
      - exact H3. }
    destruct (IH rest cp h Hrest) as (H1 & H2 & H3).
    split; [|split].
    + intros Hh. destruct (H1 Hh) as [H|[H|H]]; simpl; auto.
    + intros p Hp. destruct (H2 p Hp) as [H|[H|H]]; simpl; auto.
    + exact H3.
Qed.

(** X25. What [parseArgs] makes of a command line: arguments it does not
    know are passed over; help is asked for only if [--help] or [-h] is
    among the arguments; and a path comes from an argument, either a whole
    one or what follows [--config=].  An option word that ends the command
    line without a path clears a path given before. *)
Theorem X25_parseArgs_reads_only_its_options (argv : list string) :
  ((forall a, In a argv -> isOptionWord a = false) ->
   parseArgs argv = {| configPath := None; help := false |}) /\
  (help (parseArgs argv) = true -> In "--help" argv \/ In "-h" argv) /\
  (forall p, configPath (parseArgs argv) = Some p ->
     In p argv \/ In ("--config=" ++ p)%string argv) /\
  (forall p h, parseLoop ["--config"] (Some p) h
               = {| configPath := None; help := h |} /\
               parseLoop ["-c"] (Some p) h = {| configPath := None; help := h |}).
Proof.
  unfold parseArgs. split; [|split; [|split]].
  - induction argv as [|a argv IH]; intros H; [reflexivity|].
    rewrite parseLoop_unknown by (apply H; now left).
    apply IH. intros a' Ha'. apply H. now right.
  - intros Hh.
    destruct (@parseLoop_facts (List.length argv) argv None false (le_n _)) as (H & _).
    destruct (H Hh) as [E|E]; [discriminate | exact E].
  - intros p Hp.
    destruct (@parseLoop_facts (List.length argv) argv None false (le_n _))
      as (_ & H & _).
    destruct (H p Hp) as [E|E]; [discriminate | exact E].
  - intros p h. split; reflexivity.
Qed.

(** ** The ranker in binary64 and in exact arithmetic *)

(** A candidate pushed in exact arithmetic has a reason with a clause. *)
Lemma allCandidates_reason q st sc r :
  In r (allCandidates q st sc) ->
  reason r <> "low relevance match" /\
  (String.prefix "server matches: " (reason r) = true \/
   String.prefix "tool matches: " (reason r) = true).
Proof.
  intros Hin. apply allCandidates_In in Hin.
  destruct Hin as (sid & tls & cfg & tool & H1 & H2 & H3 & H4).
  apply toolCandidates_candidateOf in H4.
  destruct H4 as (_ & _ & _ & _ & Hpos & _ & Hreason).
  destruct (calculateOverlapScore_range q (serverTokensOf cfg)) as [Hu _].
  destruct (calculateOverlapScore_range q (toolTokensOf tool)) as [Hc _].
  assert (Hshape : exists rest,
             reason r = ("server matches: " ++ rest)%string \/
             reason r = ("tool matches: " ++ rest)%string).
  { rewrite Hreason.
    destruct (firstMatches q (serverTokensOf cfg)) as [|m ms] eqn:Es.
    - destruct (combined_positive Hu Hc Hpos) as [H|H];
        apply overlap_positive_match in H; destruct H as (qt & tk & Hq & Ht & Hmt).
      + exfalso. revert Es. eapply firstMatches_nonempty; eassumption.
      + destruct (@buildReason_tool q (serverTokensOf cfg) (toolTokensOf tool) Es)
          as (rest & ->); [|eauto].
        eapply firstMatches_nonempty; eassumption.
    - destruct (@buildReason_server q (serverTokensOf cfg) (toolTokensOf tool))
        as (rest & ->); [rewrite Es; discriminate | eauto]. }
  destruct Hshape as (rest & Hshape). split.
  - destruct Hshape as [-> | ->]; discriminate.
  - destruct Hshape as [-> | ->]; [left | right]; apply prefix_app, prefix_refl.
Qed.

Lemma slice0_same_length {A B} (l : list A) (l' : list B) e :
  List.length l = List.length l' ->
  List.length (slice0 l e) = List.length (slice0 l' e).
Proof.
  intros H. unfold slice0. destruct (e <? 0)%Z; rewrite !length_firstn, H; reflexivity.
Qed.

Lemma Forall2_In_l {A B} (R : A -> B -> Prop) l l' x :
  Forall2 R l l' -> In x l -> exists y, In y l' /\ R x y.
Proof.
  induction 1 as [|a b l l' Hab _ IH]; simpl; [contradiction|].
  intros [<-|Hin]; [eauto|]. destruct (IH Hin) as (y & Hy & Hr). eauto.
Qed.

Lemma rankToolsForQuery64_In lc query st sc limit r :
  In r (Binary64.rankToolsForQuery lc query st sc limit) ->
  In r (Binary64.allCandidates (tokenize query) st sc).
Proof.
  unfold Binary64.rankToolsForQuery. rewrite sortRanked64.
  destruct (tokenize query) as [|t ts]; simpl; [contradiction|].
  intros H.
  destruct (slice0_prefix (sortRanked lc (Binary64.allCandidates (t :: ts) st sc)) limit)
    as (rest & Hrest).
  apply (Permutation_in r (Permutation_sym (sortRanked_perm lc _))).
  rewrite Hrest. apply in_or_app. now left.
Qed.

(** X26. Rounding changes nothing but scores.  The code pushes a
    candidate exactly where exact arithmetic pushes one, with the same
    names and the same reason, so it returns as many candidates as exact
    arithmetic would; and no candidate it returns carries the reason "low
    relevance match": its reason starts with one of the two clauses. *)
Theorem X26_rounding_changes_only_scores
    (localeCompare : string -> string -> comparison)
    (query : string) (serverTools : JsMap (list ToolInfo))
    (serverConfigs : JsMap ServerConfig) (limit : Z) :
  let coded :=
    Binary64.rankToolsForQuery localeCompare query serverTools serverConfigs limit in
  Forall2 sameButScore
    (Binary64.allCandidates (tokenize query) serverTools serverConfigs)
    (allCandidates (tokenize query) serverTools serverConfigs) /\
  List.length coded
    = List.length (rankToolsForQuery localeCompare query serverTools serverConfigs
                     limit) /\
  (forall r, In r coded ->
     reason r <> "low relevance match" /\
     (String.prefix "server matches: " (reason r) = true \/
      String.prefix "tool matches: " (reason r) = true)).
Proof.
  intros coded.
  pose proof (allCandidates64_same (tokenize query) serverTools serverConfigs) as Hsame.
  split; [exact Hsame|]. split.
  - unfold coded, Binary64.rankToolsForQuery, rankToolsForQuery.
    destruct (List.length (tokenize query) =? 0)%nat; [reflexivity|].
    apply slice0_same_length. rewrite sortRanked64.
    rewrite <- !(Permutation_length (sortRanked_perm localeCompare _)).
    apply (Forall2_length Hsame).
  - intros r Hin. apply rankToolsForQuery64_In in Hin.
    destruct (@Forall2_In_l _ _ _ _ _ r Hsame Hin) as (r' & Hin' & Hr).
    destruct Hr as (_ & _ & _ & _ & Hreason). rewrite Hreason.
    eapply allCandidates_reason; eassumption.
Qed.

(** X27. With fewer than [2^52] query tokens, as every array has, the
    overlap score the code computes is the exact score, the sum of the
    awards over the number of query tokens, rounded once to the nearest
    binary64 number: the sums of the loop are exact and only the division
    rounds.  The score lies between 0 and 1 and is positive exactly when
    the exact score is. *)
Theorem X27_overlap_score_rounds_once (queryTokens targetTokens : list string) :
  (Z.of_nat (List.length queryTokens) < 2 ^ 52)%Z ->
  Binary64.calculateOverlapScore queryTokens targetTokens
    == Binary64.round64
         (Qsum (map (award targetTokens) queryTokens)
          / inject_Z (Z.of_nat (List.length queryTokens))) /\
  0 <= Binary64.calculateOverlapScore queryTokens targetTokens /\
  Binary64.calculateOverlapScore queryTokens targetTokens <= 1 /\
  (0 < Binary64.calculateOverlapScore queryTokens targetTokens <->
   0 < Qsum (map (award targetTokens) queryTokens)
       / inject_Z (Z.of_nat (List.length queryTokens))).
Proof.
  intros Hlen.
  pose proof (calculateOverlapScore_spec queryTokens targetTokens) as Espec.
  unfold overlapSpec in Espec.
  destruct (calculateOverlapScore_range queryTokens targetTokens) as [E0 E1].
  destruct (@calculateOverlapScore64_range queryTokens targetTokens Hlen) as [H0 H1].
  split; [|split; [exact H0 | split; [exact H1|]]].
  - rewrite (@calculateOverlapScore64_rounds queryTokens targetTokens Hlen).
    apply round64_comp; assumption.
  - rewrite <- Espec. apply calculateOverlapScore64_sign.
Qed.

(** X28. With fewer than [2^52] query tokens, the score of every candidate
    the code returns is the binary64 number [k / 100] for a whole number
    [k] of hundredths from 0 to 100, and lies between 0 and 1. *)
Theorem X28_code_scores_are_hundredths
    (localeCompare : string -> string -> comparison)
    (query : string) (serverTools : JsMap (list ToolInfo))
    (serverConfigs : JsMap ServerConfig) (limit : Z) (r : RankedTool) :
  (Z.of_nat (List.length (tokenize query)) < 2 ^ 52)%Z ->
  In r (Binary64.rankToolsForQuery localeCompare query serverTools serverConfigs
          limit) ->
  (exists k : Z, (0 <= k <= 100)%Z /\ score r = Binary64.div (inject_Z k) 100) /\
  0 <= score r /\ score r <= 1.
Proof.
  intros Hlen Hin. apply rankToolsForQuery64_In, allCandidates64_In in Hin.
  destruct Hin as (sid & tls & cfg & tool & _ & _ & _ & Hc).
  destruct Hc as (_ & _ & _ & _ & _ & _ & (k & Hk & Hlo & Hhi) & _).
  destruct (@combinedScore64_range
              (Binary64.calculateOverlapScore (tokenize query) (serverTokensOf cfg))
              (Binary64.calculateOverlapScore (tokenize query) (toolTokensOf tool)))
    as (_ & _ & M0 & M100);
    [now apply calculateOverlapScore64_range
    |now apply calculateOverlapScore64_range|].
  unfold Binary64.combinedScore in M0, M100.
  assert (Hk0 : (0 <= k)%Z).
  { assert (A : inject_Z (-1) < inject_Z k) by (change (inject_Z (-1)) with (-1); lra).
    apply inject_Z_lt_inv in A. lia. }
  assert (Hk100 : (k <= 100)%Z).
  { assert (A : inject_Z k < inject_Z 101) by (change (inject_Z 101) with 101; lra).
    apply inject_Z_lt_inv in A. lia. }
  assert (Q0 : 0 <= inject_Z k / 100).
  { apply Qdiv_sign; [|reflexivity].
    change 0 with (inject_Z 0). now rewrite <- Zle_Qle. }
  assert (Q1 : inject_Z k / 100 <= 1).
  { apply Qle_shift_div_r; [reflexivity|]. rewrite Qmult_1_l.
    change 100 with (inject_Z 100). now rewrite <- Zle_Qle. }
  split; [exists k; auto|]. rewrite Hk. unfold Binary64.div.
  split; [now apply round64_nonneg|].
  apply Qle_trans with (Binary64.round64 1); [now apply round64_mono|].
  pose proof round64_one. lra.
Qed.

(* ----------------------------------------------------------------- *)
(** ** The further properties on the data of the tests *)

Lemma X1_tokens_witness :
  "forecast" <> EmptyString /\ toLowerCase "forecast" = "forecast".
Proof.
  assert (Hin : In "forecast" (tokenize "Weather Forecast")).
  { vm_compute. right. left. reflexivity. }
  destruct (@X1_tokens_are_clean "Weather Forecast" "forecast" Hin) as (H1 & _ & H3).
  split; [exact H1 | exact H3].
Defined.


Lemma X7_large_limit_witness :
  exists r,
    In r (Binary64.rankToolsForQuery codeUnitCompare "alpha beta gamma delta"
            roundingServerTools roundingServerConfigs 10) /\
    toolName r = "kkk" /\
    Qred (score r) = 7926335344172073 # 36028797018963968.
Proof.
  destruct (@X7_large_limit_keeps_every_match codeUnitCompare "alpha beta gamma delta"
              roundingServerTools roundingServerConfigs 10 "plain"
              [mkTool "kkk" "Tool" "alpha betamax"]
              {| cfg_id := "plain"; cfg_name := "Server K"; cfg_description := None;
                 cfg_transport := TStdio noArgs; cfg_enabled := true;
                 cfg_tags := [] |}
              (mkTool "kkk" "Tool" "alpha betamax"))
    as (r & Hin & _ & _ & Hn & _ & _ & Hscore & _).
  - vm_compute. discriminate.
  - left. reflexivity.
  - reflexivity.
  - left. reflexivity.
  - vm_compute. reflexivity.
  - exists r. split; [exact Hin|]. split; [exact Hn|].
    rewrite Hscore. vm_compute. reflexivity.
Defined.

Lemma X9_unregistered_witness :
  listTools (healthyWorld weatherTools) "unknown" 0 (initialState testConfig)
    = (Err (unknownServer "unknown"), initialState testConfig).
Proof.
  destruct (@X9_unregistered_id_fails_untouched (healthyWorld weatherTools)
              "unknown" (initialState testConfig) eq_refl) as (_ & H & _).
  exact (H 0%Z).
Defined.

Lemma X10_getClient_witness :
  getClient (healthyWorld weatherTools) "server1"
    (snd (getClient (healthyWorld weatherTools) "server1" (initialState testConfig)))
  = getClient (healthyWorld weatherTools) "server1" (initialState testConfig).
Proof.
  assert (E : getClient (healthyWorld weatherTools) "server1" (initialState testConfig)
              = (Ok (CStdio {| stdio_serverId := "server1"; stdio_config := noArgs;
                               stdio_client := true; stdio_transport := true;
                               stdio_process := true; stdio_connected := true |}),
                 snd (getClient (healthyWorld weatherTools) "server1"
                        (initialState testConfig))))
    by (vm_compute; reflexivity).
  rewrite (X10_getClient_is_idempotent _ _ _ E). symmetry. exact E.
Defined.

Lemma X11_listTools_witness :
  fetchCount
    (trace (snd (listTools (healthyWorld calculatorTools) "server1" 2000
                   (invalidateCache (Some "server1") cachedState)))) = 1%nat.
Proof.
  assert (E : listTools (healthyWorld calculatorTools) "server1" 2000
                (invalidateCache (Some "server1") cachedState)
              = (Ok calculatorTools,
                 snd (listTools (healthyWorld calculatorTools) "server1" 2000
                        (invalidateCache (Some "server1") cachedState))))
    by (vm_compute; reflexivity).
  assert (Hne : "server1" <> EmptyString) by discriminate.
  exact (proj1 (@X11_listTools_fetches_after_invalidation
                  (healthyWorld calculatorTools) "server1" 2000 cachedState cachedRow
                  (Some "server1") calculatorTools _ eq_refl
                  (or_intror (conj eq_refl Hne)) E)).
Defined.

Lemma X12_invalidateCache_witness :
  mapGet (servers (registry (invalidateCache (Some "server1") cachedState))) "server1"
    = Some freshRow /\
  snapshots (registry (invalidateCache None cachedState)) = [("server1", None)].
Proof.
  assert (Hne : "server1" <> EmptyString) by discriminate.
  destruct (@X12_invalidateCache_discards_only_snapshots "server1" cachedState
              cachedRow eq_refl Hne) as [(H & _) _].
  split; [exact H | reflexivity].
Defined.

Lemma X16_http_witness :
  getClient (healthyWorld weatherTools) "remote" (initialState httpConfig)
    = (Err (httpConnectFailed "remote" "http://localhost:1"), initialState httpConfig).
Proof.
  destruct (@X16_http_upstreams_always_fail httpConfig (healthyWorld weatherTools) []
              "remote" _ _ eq_refl eq_refl) as (_ & H & _).
  exact H.
Defined.

Lemma X18_listAllTools_witness :
  listAllTools (healthyWorld calculatorTools) (fun _ => 2000%Z) cachedState
    = (Ok [("server1", weatherTools)], cachedState).
Proof.
  assert (Hd : NoDup (getServerIds (registry cachedState))).
  { constructor; [intros [] | constructor]. }
  assert (Hf : forall k sv, In (k, sv) (servers (registry cachedState)) ->
                 freshTools (cacheTtlMs (registry cachedState)) 2000 sv <> None).
  { intros k sv [E|[]]. injection E as _ <-. discriminate. }
  exact (@X18_listAllTools_answers_from_fresh_snapshots
           (healthyWorld calculatorTools) (fun _ => 2000%Z) cachedState Hd Hf).
Defined.

Lemma X19_callTool_witness :
  snapshots (registry (snd (callTool (healthyWorld weatherTools) "server1" "add"
                              emptyObject (initialState testConfig))))
    = snapshots (registry (initialState testConfig)).
Proof.
  assert (E : callTool (healthyWorld weatherTools) "server1" "add" emptyObject
                (initialState testConfig)
              = (Ok {| content := []; isError := false |},
                 snd (callTool (healthyWorld weatherTools) "server1" "add" emptyObject
                        (initialState testConfig))))
    by (vm_compute; reflexivity).
  destruct (@X19_callTool_forwards_the_call (healthyWorld weatherTools) "server1"
              "add" emptyObject (initialState testConfig) _ _
              (wf_initialState testConfig) E) as (evs & resp & _ & _ & _ & _ & _ & H).
  exact H.
Defined.

Lemma X23_route_query_witness :
  r_isError (fst (routeQueryHandler sampleRendering (healthyWorld weatherTools)
                    codeUnitCompare 5 "forecast" None (fun _ => 0%Z)
                    (initialState testConfig))) = None.
Proof.
  destruct (@X23_route_query_handler sampleRendering (healthyWorld weatherTools)
              codeUnitCompare 5 "forecast" None (fun _ => 0%Z)
              (initialState testConfig)
              (proj1 (wf_initialState testConfig))) as (m & _ & _ & H & _).
  exact H.
Defined.

Lemma X27_overlap_score_witness :
  0 <= Binary64.calculateOverlapScore ["what"; "is"; "the"] ["the"; "forecast"] /\
  Binary64.calculateOverlapScore ["what"; "is"; "the"] ["the"; "forecast"] <= 1.
Proof.
  assert (Hlen : (Z.of_nat (List.length ["what"; "is"; "the"]) < 2 ^ 52)%Z)
    by (vm_compute; reflexivity).
  destruct (@X27_overlap_score_rounds_once ["what"; "is"; "the"] ["the"; "forecast"]
              Hlen) as (_ & H0 & H1 & _).
  split; [exact H0 | exact H1].
Defined.

Lemma X28_code_scores_witness :
  Forall (fun r => 0 <= score r /\ score r <= 1)
         (Binary64.rankToolsForQuery codeUnitCompare "alpha beta gamma delta"
            roundingServerTools roundingServerConfigs 5).
Proof.
  assert (Hlen : (Z.of_nat (List.length (tokenize "alpha beta gamma delta"))
                  < 2 ^ 52)%Z) by (vm_compute; reflexivity).
  apply Forall_forall. intros r Hin.
  exact (proj2 (@X28_code_scores_are_hundredths codeUnitCompare
                  "alpha beta gamma delta" roundingServerTools roundingServerConfigs
                  5 r Hlen Hin)).
Defined.
